(** * XcodeLibPlot: the dependency graph engine

    A shallow embedding of the [Graph] class of [XcodeLibPlot.py]
    (builders, filters, Tarjan cycle marking, the global DOT view and the
    JSON payload) together with the properties stated for it.

    Python values are modelled as follows.
    - [str] is [string]; [Set[str]] is [gset string]; [Set[Tuple[str,str]]]
      is [gset (string * string)]; [Dict[str, _]] is [gmap string _].
    - The order in which a Python [set] is iterated is not determined by
      its contents.  Every loop over a set therefore goes through an
      enumeration supplied by the class [SetOrder]; the theorems hold for
      every such enumeration.
    - A [dict] whose key order is observed ([adj] in [mark_cycles]) is an
      insertion-ordered dictionary [odict].
    - Exceptions are values of [error]; a function that can raise returns a
      [result].  The interpreter's bound on nested calls is the [limit]
      argument of [mark_cycles]. *)

From Stdlib Require Import Ascii String.
From stdpp Require Import base gmap strings pretty list fin_maps fin_sets sorting relations.

Local Open Scope string_scope.
Local Open Scope list_scope.
Local Open Scope nat_scope.
Set Warnings "-clear-no-such-hyp".

(** ** Exceptions *)

Inductive error : Type :=
  | RecursionError
  | KeyError
  | IndexError.

Inductive result (A : Type) : Type :=
  | Ok (a : A)
  | Raise (e : error).
Arguments Ok {A} a.
Arguments Raise {A} e.

#[global] Instance result_ret : MRet result := λ A a, Ok a.
#[global] Instance result_bind : MBind result := λ A B k m,
  match m with
  | Ok a => k a
  | Raise e => Raise e
  end.

#[global] Instance result_fmap : FMap result := λ A B f m,
  match m with
  | Ok a => Ok (f a)
  | Raise e => Raise e
  end.

(** [for x in l: body] over a state that the body may replace or abort. *)
Fixpoint for_each {A S} (body : A → S → result S) (l : list A) (s : S) : result S :=
  match l with
  | [] => Ok s
  | a :: l' => s' ← body a s; for_each body l' s'
  end.

(** [d[k]] on a dictionary: [KeyError] when the key is absent. *)
Definition dict_get {V} (d : gmap string V) (k : string) : result V :=
  match d !! k with
  | Some v => Ok v
  | None => Raise KeyError
  end.

(** ** The graph model *)

(** A value of [lib_meta]: a dictionary with the optional keys ["ext"] and
    ["is_system"]. *)
Record Meta : Type := mkMeta {
  meta_ext : option string;
  meta_is_system : option bool;
}.

Definition empty_meta : Meta := mkMeta None None.

Record Graph : Type := mkGraph {
  target_nodes : gset string;
  lib_nodes : gset string;
  edges : gset (string * string);
  annotations : gmap string string;
  lib_meta : gmap string Meta;
  cycle_nodes : gset string;
  cycle_edges : gset (string * string);
  cycle_components : list (list string);
}.

(** [Graph.__init__] *)
Definition new_graph : Graph := mkGraph ∅ ∅ ∅ ∅ ∅ ∅ ∅ [].

(** Truth value of a [str]: the empty string is false. *)
Definition str_truthy (s : string) : bool :=
  match s with
  | EmptyString => false
  | String _ _ => true
  end.

(** Truth value of an [Optional[str]]. *)
Definition opt_truthy (o : option string) : bool :=
  match o with
  | Some s => str_truthy s
  | None => false
  end.

(** [Graph.add_target] *)
Definition add_target (name : string) (g : Graph) : Graph :=
  mkGraph ({[name]} ∪ target_nodes g) (lib_nodes g) (edges g) (annotations g)
          (lib_meta g) (cycle_nodes g) (cycle_edges g) (cycle_components g).

(** The metadata steps of [Graph.add_lib] on the dictionary [meta]. *)
Definition meta_register (is_system : bool) (ext : option string) (meta : Meta) : Meta :=
  let meta1 :=
    match ext with
    | Some e => mkMeta (Some e) (meta_is_system meta)
    | None => meta
    end in
  match meta_is_system meta1 with
  | None => mkMeta (meta_ext meta1) (Some is_system)
  | Some b => mkMeta (meta_ext meta1) (Some (b || is_system))
  end.

(** [Graph.add_lib] *)
Definition add_lib (name : string) (subtitle : option string) (is_system : bool)
    (ext : option string) (g : Graph) : Graph :=
  let annotations' :=
    match subtitle with
    | Some s => if str_truthy s then <[name := s]> (annotations g) else annotations g
    | None => annotations g
    end in
  let meta := default empty_meta (lib_meta g !! name) in
  mkGraph (target_nodes g) ({[name]} ∪ lib_nodes g) (edges g) annotations'
          (<[name := meta_register is_system ext meta]> (lib_meta g))
          (cycle_nodes g) (cycle_edges g) (cycle_components g).

(** [Graph.add_edge] *)
Definition add_edge (src dst : string) (g : Graph) : Graph :=
  if str_truthy src && str_truthy dst then
    mkGraph (target_nodes g) (lib_nodes g) ({[(src, dst)]} ∪ edges g) (annotations g)
            (lib_meta g) (cycle_nodes g) (cycle_edges g) (cycle_components g)
  else g.

(** [meta.get("is_system")] read as a boolean, as the exports do. *)
Definition lib_is_system (g : Graph) (name : string) : bool :=
  match lib_meta g !! name with
  | Some m => default false (meta_is_system m)
  | None => false
  end.

(** [meta.get("ext")] of a library. *)
Definition lib_ext (g : Graph) (name : string) : option string :=
  match lib_meta g !! name with
  | Some m => meta_ext m
  | None => None
  end.

(** ** Iteration order of sets *)

(** The enumerations through which the loops of the program see a set.
    [iter_succ v] is the order of the successor set stored for [v] in the
    adjacency dictionary.  Nothing but "every element once" is known. *)
Class SetOrder : Type := {
  iter_names : gset string → list string;
  iter_succ : string → gset string → list string;
  iter_pairs : gset (string * string) → list (string * string);
  iter_names_perm : ∀ X, iter_names X ≡ₚ elements X;
  iter_succ_perm : ∀ v X, iter_succ v X ≡ₚ elements X;
  iter_pairs_perm : ∀ X, iter_pairs X ≡ₚ elements X;
}.

(** One admissible order: stdpp's [elements]. *)
#[global] Instance elements_order : SetOrder := {|
  iter_names := elements;
  iter_succ := λ _, elements;
  iter_pairs := elements;
  iter_names_perm := λ X, reflexivity _;
  iter_succ_perm := λ _ X, reflexivity _;
  iter_pairs_perm := λ X, reflexivity _;
|}.

(** ** Strings *)

(** [str.lower] on the ASCII letters; other bytes are kept. *)
Definition lower_ascii (c : ascii) : ascii :=
  let n := nat_of_ascii c in
  if (65 <=? n)%nat && (n <=? 90)%nat then ascii_of_nat (n + 32) else c.

Fixpoint lower (s : string) : string :=
  match s with
  | EmptyString => EmptyString
  | String c s' => String (lower_ascii c) (lower s')
  end.

(** [needle in s] on strings. *)
Fixpoint contains (needle s : string) : bool :=
  String.prefix needle s ||
  match s with
  | EmptyString => false
  | String _ s' => contains needle s'
  end.

(** ** Filters *)

(** A compiled pattern, seen through the truth value of [p.search(text)]. *)
Definition Pattern : Type := string → bool.

(** Truth value of a list: non-empty. *)
Definition list_truthy {A} (l : list A) : bool :=
  match l with
  | [] => false
  | _ :: _ => true
  end.

(** Truth value of a set: non-empty. *)
Definition set_truthy (X : gset string) : bool := bool_decide (X ≠ ∅).

Definition match_any (patterns : list Pattern) (text : string) : bool :=
  existsb (λ p, p text) patterns.

(** The arguments of [apply_filters] other than the isolated-target flag. *)
Record Filters : Type := mkFilters {
  include_targets : list Pattern;
  exclude_targets : list Pattern;
  include_libs : list Pattern;
  exclude_libs : list Pattern;
  include_suffixes : gset string;
  exclude_suffixes : gset string;
}.

Definition inc_suf (f : Filters) : gset string := set_map lower (include_suffixes f).
Definition exc_suf (f : Filters) : gset string := set_map lower (exclude_suffixes f).

(** [target_allowed] of [apply_filters]. *)
Definition target_allowed (f : Filters) (t : string) : bool :=
  if list_truthy (exclude_targets f) && match_any (exclude_targets f) t then false
  else if list_truthy (include_targets f) then match_any (include_targets f) t
  else true.

(** The two suffix tests that end [lib_allowed]. *)
Definition suffix_allowed (f : Filters) (ext_key : string) : bool :=
  if set_truthy (inc_suf f) && negb (bool_decide (ext_key ∈ inc_suf f)) then false
  else if set_truthy (exc_suf f) && bool_decide (ext_key ∈ exc_suf f) then false
  else true.

(** The subtitle test of [lib_allowed]:
    [l in annotations and annotations[l] and "http" in annotations[l].lower()]. *)
Definition has_url_subtitle (ann : gmap string string) (l : string) : bool :=
  match ann !! l with
  | Some sub => str_truthy sub && contains "http" (lower sub)
  | None => false
  end.

(** [lib_allowed] of [apply_filters].  It reads [self.annotations] and reads
    and writes [self.lib_meta], which is threaded through. *)
Definition lib_allowed (f : Filters) (ann : gmap string string) (l : string)
    (lm : gmap string Meta) : bool * gmap string Meta :=
  if list_truthy (exclude_libs f) && match_any (exclude_libs f) l then (false, lm)
  else if list_truthy (include_libs f) && negb (match_any (include_libs f) l) then (false, lm)
  else
    let meta := default empty_meta (lm !! l) in
    let ext := lower (match meta_ext meta with
                      | Some e => if str_truthy e then e else ""
                      | None => ""
                      end) in
    let ext_key := if str_truthy ext then ext else "" in
    let '(ext_key, lm) :=
      if has_url_subtitle ann l then
        match meta_ext meta with
        | None => ("spm", <[l := mkMeta (Some "spm") (meta_is_system meta)]> lm)
        | Some _ => (ext_key, lm)
        end
      else if bool_decide (meta_ext meta = Some "spm") then ("spm", lm)
      else (ext_key, lm) in
    (suffix_allowed f ext_key, lm).

Section filters.
Context `{SetOrder}.

(** The body of the first loop of [apply_filters]. *)
Definition prune_edge (f : Filters) (g : Graph) (e : string * string)
    (acc : gset (string * string) * gmap string Meta)
    : gset (string * string) * gmap string Meta :=
  let '(a, b) := e in
  let '(new_edges, lm) := acc in
  if bool_decide (a ∈ target_nodes g) && negb (target_allowed f a) then acc
  else if bool_decide (b ∈ target_nodes g) && negb (target_allowed f b) then acc
  else if bool_decide (b ∈ lib_nodes g) then
    let '(ok, lm') := lib_allowed f (annotations g) b lm in
    if ok then ({[(a, b)]} ∪ new_edges, lm') else (new_edges, lm')
  else ({[(a, b)]} ∪ new_edges, lm).

(** The body of the second loop of [apply_filters]. *)
Definition keep_endpoints (g : Graph) (acc : gset string * gset string)
    (e : string * string) : gset string * gset string :=
  let '(a, b) := e in
  let '(kept_targets, kept_libs) := acc in
  let kept_targets := if bool_decide (a ∈ target_nodes g) then {[a]} ∪ kept_targets else kept_targets in
  let kept_targets := if bool_decide (b ∈ target_nodes g) then {[b]} ∪ kept_targets else kept_targets in
  let kept_libs := if bool_decide (b ∈ lib_nodes g) then {[b]} ∪ kept_libs else kept_libs in
  (kept_targets, kept_libs).

(** The body of the loop that keeps isolated targets. *)
Definition keep_isolated (f : Filters) (kept_targets : gset string) (t : string)
    : gset string :=
  if target_allowed f t && negb (bool_decide (t ∈ kept_targets))
  then {[t]} ∪ kept_targets else kept_targets.

(** [Graph.apply_filters] *)
Definition apply_filters (f : Filters) (keep_isolated_included_targets : bool)
    (g : Graph) : Graph :=
  let '(new_edges, lm) :=
    fold_left (λ acc e, prune_edge f g e acc) (iter_pairs (edges g)) (∅, lib_meta g) in
  let '(kept_targets, kept_libs) :=
    fold_left (keep_endpoints g) (iter_pairs new_edges) (∅, ∅) in
  let kept_targets :=
    if keep_isolated_included_targets
    then fold_left (keep_isolated f) (iter_names (target_nodes g)) kept_targets
    else kept_targets in
  mkGraph kept_targets kept_libs new_edges
          (filter (λ kv, kv.1 ∈ kept_libs) (annotations g))
          (filter (λ kv, kv.1 ∈ kept_libs) lm)
          (cycle_nodes g) (cycle_edges g) (cycle_components g).
End filters.

(** ** Sorting *)

(** The order of [str] values: by code point, which on UTF-8 bytes is the
    bytewise lexicographic order. *)
Definition str_le (s1 s2 : string) : Prop := String.leb s1 s2 = true.

#[global] Instance str_le_dec : RelDecision str_le := λ s1 s2, decide (String.leb s1 s2 = true).

(** The order of [(from, to)] tuples: the first components decide unless
    they are equal. *)
Definition pair_leb (p q : string * string) : bool :=
  if String.eqb p.1 q.1 then String.leb p.2 q.2 else String.ltb p.1 q.1.

Definition pair_le (p q : string * string) : Prop := pair_leb p q = true.

#[global] Instance pair_le_dec : RelDecision pair_le := λ p q, decide (pair_leb p q = true).

(** [sorted(xs)] on names and on edges. *)
Definition sorted (l : list string) : list string := merge_sort str_le l.
Definition sorted_pairs (l : list (string * string)) : list (string * string) :=
  merge_sort pair_le l.

(** ** Cycle marking (Tarjan) *)

(** An insertion-ordered [dict] with [str] keys: the mapping and the keys in
    the order in which they were first inserted. *)
Record odict (V : Type) : Type := mkOdict {
  od_map : gmap string V;
  od_keys : list string;
}.
Arguments mkOdict {V} _ _.
Arguments od_map {V} _.
Arguments od_keys {V} _.

Definition od_empty {V} : odict V := mkOdict ∅ [].

(** [d.setdefault(k, dflt)], for its effect on [d]. *)
Definition od_setdefault {V} (k : string) (dflt : V) (d : odict V) : odict V :=
  match od_map d !! k with
  | Some _ => d
  | None => mkOdict (<[k := dflt]> (od_map d)) (od_keys d ++ [k])
  end.

(** [adj.setdefault(a, set()).add(b)] *)
Definition adj_add (a b : string) (adj : odict (gset string)) : odict (gset string) :=
  let adj1 := od_setdefault a ∅ adj in
  mkOdict (alter (λ s, {[b]} ∪ s) a (od_map adj1)) (od_keys adj1).

(** [adj.get(v, ())] as a set. *)
Definition adj_get (adj : odict (gset string)) (v : string) : gset string :=
  default ∅ (od_map adj !! v).

(** The state of the traversal: the [nonlocal] counter and the five
    containers that [strongconnect] closes over.  [stack] is kept with its
    top (the end of the Python list) at the head. *)
Record tarjan : Type := mkTarjan {
  index : nat;
  indices : gmap string nat;
  low : gmap string nat;
  stack : list string;
  onstack : gset string;
  sccs : list (list string);
}.

Definition tarjan_init : tarjan := mkTarjan 0 ∅ ∅ [] ∅ [].

(** The first five statements of [strongconnect]. *)
Definition enter (v : string) (st : tarjan) : tarjan :=
  mkTarjan (S (index st)) (<[v := index st]> (indices st)) (<[v := index st]> (low st))
           (v :: stack st) ({[v]} ∪ onstack st) (sccs st).

(** [low[v] = n] *)
Definition set_low (v : string) (n : nat) (st : tarjan) : tarjan :=
  mkTarjan (index st) (indices st) (<[v := n]> (low st)) (stack st) (onstack st) (sccs st).

(** The body of [for w in adj.get(v, ())], given the recursive call. *)
Definition visit_successor (self : string → tarjan → result tarjan)
    (v w : string) (st : tarjan) : result tarjan :=
  if bool_decide (w ∉ dom (indices st)) then
    st' ← self w st;
    lv ← dict_get (low st') v;
    lw ← dict_get (low st') w;
    Ok (set_low v (lv `min` lw) st')
  else if bool_decide (w ∈ onstack st) then
    lv ← dict_get (low st) v;
    iw ← dict_get (indices st) w;
    Ok (set_low v (lv `min` iw) st)
  else Ok st.

(** The [while True] loop that pops a component: [stack.pop()] raises
    [IndexError] on an empty list, [onstack.remove(w)] raises [KeyError]
    when [w] is absent. *)
Fixpoint pop_component (v : string) (stack : list string) (onstack : gset string)
    (comp : list string) : result (list string * gset string * list string) :=
  match stack with
  | [] => Raise IndexError
  | w :: stack' =>
      if bool_decide (w ∈ onstack) then
        let onstack' := onstack ∖ {[w]} in
        let comp' := comp ++ [w] in
        if bool_decide (w = v) then Ok (stack', onstack', comp')
        else pop_component v stack' onstack' comp'
      else Raise KeyError
  end.

(** The [if low[v] == indices[v]] block. *)
Definition close_component (v : string) (st : tarjan) : result tarjan :=
  lv ← dict_get (low st) v;
  iv ← dict_get (indices st) v;
  if bool_decide (lv = iv) then
    '(stack', onstack', comp) ← pop_component v (stack st) (onstack st) [];
    Ok (mkTarjan (index st) (indices st) (low st) stack' onstack' (sccs st ++ [comp]))
  else Ok st.

Section cycles.
Context `{SetOrder}.

(** [Graph._build_adjacency] *)
Definition build_adjacency (g : Graph) : odict (gset string) :=
  let adj :=
    fold_left (λ adj e, od_setdefault e.2 ∅ (adj_add e.1 e.2 adj))
              (iter_pairs (edges g)) od_empty in
  fold_left (λ adj n, od_setdefault n ∅ adj)
            (iter_names (target_nodes g ∪ lib_nodes g)) adj.

(** [strongconnect].  [depth] is the number of nested activations the
    interpreter still allows; a call beyond it raises [RecursionError]. *)
Fixpoint strongconnect (adj : odict (gset string)) (depth : nat) (v : string)
    (st : tarjan) {struct depth} : result tarjan :=
  match depth with
  | O => Raise RecursionError
  | S depth' =>
      st' ← for_each (visit_successor (strongconnect adj depth') v)
                     (iter_succ v (adj_get adj v)) (enter v st);
      close_component v st'
  end.

(** [for v in adj.keys(): if v not in indices: strongconnect(v)] *)
Definition find_sccs (adj : odict (gset string)) (limit : nat) : result tarjan :=
  for_each (λ v st, if bool_decide (v ∉ dom (indices st))
                    then strongconnect adj limit v st else Ok st)
           (od_keys adj) tarjan_init.

(** The classification of a component in the last loop of [mark_cycles]. *)
Definition is_cycle (adj : odict (gset string)) (comp : list string) : bool :=
  if (1 <? length comp)%nat then true
  else match comp with
       | [v] => bool_decide (v ∈ adj_get adj v)
       | _ => false
       end.

(** The body of [for comp in sccs]. *)
Definition record_component (g : Graph) (adj : odict (gset string))
    (acc : gset string * gset (string * string) * list (list string))
    (comp : list string) : gset string * gset (string * string) * list (list string) :=
  let '(nodes, cedges, comps) := acc in
  let comp_set : gset string := list_to_set comp in
  if is_cycle adj comp then
    let comp_sorted := sorted comp in
    (list_to_set comp_sorted ∪ nodes,
     fold_left (λ ce e, if bool_decide (e.1 ∈ comp_set) && bool_decide (e.2 ∈ comp_set)
                        then {[e]} ∪ ce else ce)
               (iter_pairs (edges g)) cedges,
     comps ++ [comp_sorted])
  else acc.

(** [Graph.mark_cycles], with the interpreter's bound on nested calls. *)
Definition mark_cycles (limit : nat) (g : Graph) : result Graph :=
  let adj := build_adjacency g in
  st ← find_sccs adj limit;
  let '(nodes, cedges, comps) := fold_left (record_component g adj) (sccs st) (∅, ∅, []) in
  Ok (mkGraph (target_nodes g) (lib_nodes g) (edges g) (annotations g) (lib_meta g)
              nodes cedges comps).
End cycles.

(** ** Exports *)

(** The [colors] dictionary: its keys are those of [DEFAULT_COLORS]. *)
Record Colors : Type := mkColors {
  target_fill : string;
  target_stroke : string;
  lib3p_fill : string;
  lib3p_stroke : string;
  libsys_fill : string;
  libsys_stroke : string;
  cycle_fill : string;
  cycle_stroke : string;
  focus_fill : string;
  focus_stroke : string;
  color_edge : string;
  color_edge_cycle : string;
  color_edge_tt : string;
  color_edge_peer : string;
}.

(** [DEFAULT_COLORS] *)
Definition default_colors : Colors :=
  mkColors "#e7f1ff" "#3973ff" "#fff7e6" "#ffa500" "#f1f2f6" "#8e8e93" "#ffecec"
           "#ff3b30" "#eafff2" "#34c759" "#555555" "#ff3b30" "#9ca3af" "#cfcfcf".

(** The double quote and the newline, as one-character strings. *)
Definition dq : string := String (Ascii false true false false false true false false) EmptyString.
Definition nl : string := String (Ascii false true false true false false false false) EmptyString.

(** [s] between double quotes. *)
Definition quoted (s : string) : string := dq +:+ s +:+ dq.

(** [s.replace('"', '\\"')] *)
Fixpoint escape_quotes (s : string) : string :=
  match s with
  | EmptyString => EmptyString
  | String c s' =>
      if Ascii.eqb c (Ascii false true false false false true false false)
      then String "\" (String c (escape_quotes s'))
      else String c (escape_quotes s')
  end.

(** ["\n".join(lines)] *)
Fixpoint join_lines (lines : list string) : string :=
  match lines with
  | [] => EmptyString
  | [l] => l
  | l :: ls => l +:+ nl +:+ join_lines ls
  end.

(** The node statement shared by the target branches of [to_dot]. *)
Definition dot_target_line (colors : Colors) (highlight_cycles : bool) (g : Graph)
    (t : string) : string :=
  let safe_t := escape_quotes t in
  if highlight_cycles && bool_decide (t ∈ cycle_nodes g) then
    "  " +:+ quoted safe_t +:+ " [shape=ellipse, style=filled, fillcolor="
    +:+ quoted (cycle_fill colors) +:+ ", color=" +:+ quoted (cycle_stroke colors)
    +:+ ", penwidth=2.0];"
  else
    "  " +:+ quoted safe_t +:+ " [shape=ellipse, style=filled, fillcolor="
    +:+ quoted (target_fill colors) +:+ ", color=" +:+ quoted (target_stroke colors)
    +:+ "];".

(** The node statement of a library in [to_dot]. *)
Definition dot_lib_line (colors : Colors) (highlight_cycles system_highlight : bool)
    (g : Graph) (l : string) : string :=
  let safe_l := escape_quotes l in
  let sub := annotations g !! l in
  let label := if opt_truthy sub
               then safe_l +:+ "\n(" +:+ default "" sub +:+ ")" else safe_l in
  let is_sys := lib_is_system g l in
  if highlight_cycles && bool_decide (l ∈ cycle_nodes g) then
    "  " +:+ quoted safe_l +:+ " [label=" +:+ quoted label
    +:+ ", shape=box, style=filled, fillcolor=" +:+ quoted (cycle_fill colors)
    +:+ ", color=" +:+ quoted (cycle_stroke colors) +:+ ", penwidth=2.0];"
  else if system_highlight && is_sys then
    "  " +:+ quoted safe_l +:+ " [label=" +:+ quoted label
    +:+ ", shape=box, style=filled, fillcolor=" +:+ quoted (libsys_fill colors)
    +:+ ", color=" +:+ quoted (libsys_stroke colors) +:+ "];"
  else
    "  " +:+ quoted safe_l +:+ " [label=" +:+ quoted label
    +:+ ", shape=box, style=filled, fillcolor=" +:+ quoted (lib3p_fill colors)
    +:+ ", color=" +:+ quoted (lib3p_stroke colors) +:+ "];".

(** The edge statement of [to_dot]. *)
Definition dot_edge_line (colors : Colors) (highlight_cycles : bool) (g : Graph)
    (e : string * string) : string :=
  let sa := escape_quotes e.1 in
  let sb := escape_quotes e.2 in
  if highlight_cycles && bool_decide (e ∈ cycle_edges g) then
    "  " +:+ quoted sa +:+ " -> " +:+ quoted sb +:+ " [color="
    +:+ quoted (color_edge_cycle colors) +:+ ", penwidth=2.2];"
  else
    "  " +:+ quoted sa +:+ " -> " +:+ quoted sb +:+ ";".

(** The legend cluster of [to_dot]. *)
Definition dot_legend (colors : Colors) : list string :=
  [ "";
    "  // Legend";
    "  subgraph cluster_legend {";
    "    label=" +:+ quoted "Legend" +:+ ";";
    "    fontsize=11;";
    "    color=" +:+ quoted "#cccccc" +:+ ";";
    "    style=rounded;";
    "    " +:+ quoted "LEG_Target" +:+ " [label=" +:+ quoted "Target"
      +:+ ", shape=ellipse, style=filled, fillcolor=" +:+ quoted (target_fill colors)
      +:+ ", color=" +:+ quoted (target_stroke colors) +:+ "];";
    "    " +:+ quoted "LEG_Lib3P" +:+ "  [label=" +:+ quoted "3rd-party Library/Framework"
      +:+ ", shape=box, style=filled, fillcolor=" +:+ quoted (lib3p_fill colors)
      +:+ ", color=" +:+ quoted (lib3p_stroke colors) +:+ "];";
    "    " +:+ quoted "LEG_LibSys" +:+ " [label=" +:+ quoted "System Framework/Library"
      +:+ ", shape=box, style=filled, fillcolor=" +:+ quoted (libsys_fill colors)
      +:+ ", color=" +:+ quoted (libsys_stroke colors) +:+ "];";
    "    " +:+ quoted "LEG_CycleNode" +:+ " [label=" +:+ quoted "Node in cycle"
      +:+ ", shape=ellipse, style=filled, fillcolor=" +:+ quoted (cycle_fill colors)
      +:+ ", color=" +:+ quoted (cycle_stroke colors) +:+ ", penwidth=2.0];";
    "    " +:+ quoted "LEG_Target" +:+ " -> " +:+ quoted "LEG_Lib3P"
      +:+ " [label=" +:+ quoted "normal edge" +:+ ", fontcolor="
      +:+ quoted (color_edge colors) +:+ ", color=" +:+ quoted (color_edge colors) +:+ "];";
    "    " +:+ quoted "LEG_Lib3P" +:+ " -> " +:+ quoted "LEG_CycleNode"
      +:+ " [label=" +:+ quoted "edge in cycle" +:+ ", fontcolor="
      +:+ quoted (color_edge_cycle colors) +:+ ", color="
      +:+ quoted (color_edge_cycle colors) +:+ ", penwidth=2.2];";
    "  }" ].

Section exports.
Context `{SetOrder}.

(** [Graph.to_dot].  [now] is [datetime.now().strftime("%Y-%m-%d %H:%M:%S")]. *)
Definition to_dot (colors : Colors) (now : string)
    (highlight_cycles system_highlight : bool) (g : Graph) : string :=
  let cycles_part :=
    if list_truthy (cycle_components g) then "Cycles: YES" else "Cycles: NO" in
  join_lines
    ([ "digraph XcodeDeps {";
       "  rankdir=LR;";
       "  graph [fontname=" +:+ quoted "SF Pro Text" +:+ ", fontsize=10, labelloc="
         +:+ quoted "t" +:+ "];";
       "  node  [fontname=" +:+ quoted "SF Pro Text" +:+ ", fontsize=10];";
       "  edge  [fontname=" +:+ quoted "SF Pro Text" +:+ ", fontsize=9, color="
         +:+ quoted (color_edge colors) +:+ "];";
       "  label=" +:+ dq +:+ "Xcode Dependencies Graph\n" +:+ cycles_part
         +:+ "\nGenerated: " +:+ now +:+ dq +:+ ";";
       "";
       "  // Targets" ]
     ++ map (dot_target_line colors highlight_cycles g)
            (sorted (iter_names (target_nodes g)))
     ++ [ ""; "  // Frameworks / Libraries / SPM" ]
     ++ map (dot_lib_line colors highlight_cycles system_highlight g)
            (sorted (iter_names (lib_nodes g)))
     ++ [ ""; "  // Edges" ]
     ++ map (dot_edge_line colors highlight_cycles g)
            (sorted_pairs (iter_pairs (edges g)))
     ++ dot_legend colors
     ++ [ "}" ]).

(** [Graph.lib_in_degree] *)
Definition lib_in_degree (g : Graph) (lib : string) : nat :=
  length (filter (λ e, e.2 = lib ∧ e.1 ∈ target_nodes g) (iter_pairs (edges g))).

(** An element of ["libraries"] in the JSON payload. *)
Record LibEntry : Type := mkLibEntry {
  le_name : string;
  le_is_system : bool;
  le_ext : option string;
  le_subtitle : option string;
  le_in_degree : nat;
}.

(** The [payload] dictionary of [export_json]; [json.dump] writes its keys
    in this order.  [filters_meta] is passed through as it is. *)
Record Payload (F : Type) : Type := mkPayload {
  generated_at : string;
  root : string;
  has_cycles : bool;
  cycles_count : nat;
  nodes_targets : list string;
  nodes_libraries : list LibEntry;
  payload_edges : list (string * string);
  cycles_components : list (list string);
  cycles_edges : list (string * string);
  payload_filters : F;
  payload_colors : Colors;
}.

(** The payload built by [export_json].  [now] is
    [datetime.now().isoformat(timespec="seconds")]. *)
Definition export_json {F} (g : Graph) (now : string) (root_path : string)
    (filters_meta : F) (colors : Colors) : Payload F :=
  mkPayload F now root_path
    (list_truthy (cycle_components g))
    (length (cycle_components g))
    (sorted (iter_names (target_nodes g)))
    (map (λ name, mkLibEntry name (lib_is_system g name) (lib_ext g name)
                             (annotations g !! name) (lib_in_degree g name))
         (sorted (iter_names (lib_nodes g))))
    (sorted_pairs (iter_pairs (edges g)))
    (cycle_components g)
    (sorted_pairs (iter_pairs (cycle_edges g)))
    filters_meta colors.
End exports.

Arguments mkPayload {F}.
Arguments generated_at {F}.
Arguments root {F}.
Arguments has_cycles {F}.
Arguments cycles_count {F}.
Arguments nodes_targets {F}.
Arguments nodes_libraries {F}.
Arguments payload_edges {F}.
Arguments cycles_components {F}.
Arguments cycles_edges {F}.
Arguments payload_filters {F}.
Arguments payload_colors {F}.

(** ** The pipeline *)

(** A call of one of the three builders. *)
Inductive fact : Type :=
  | AddTarget (name : string)
  | AddLib (name : string) (subtitle : option string) (is_system : bool)
           (ext : option string)
  | AddEdge (src dst : string).

Definition apply_fact (g : Graph) (f : fact) : Graph :=
  match f with
  | AddTarget name => add_target name g
  | AddLib name subtitle is_system ext => add_lib name subtitle is_system ext g
  | AddEdge src dst => add_edge src dst g
  end.

(** The construction phase: the facts are registered in order on a new
    graph. *)
Definition build (facts : list fact) : Graph := fold_left apply_fact facts new_graph.

Section pipeline.
Context `{SetOrder}.

(** Construction, filtering and cycle marking, as [main] chains them. *)
Definition analyse (limit : nat) (f : Filters) (facts : list fact) : result Graph :=
  mark_cycles limit (apply_filters f true (build facts)).
End pipeline.

(** * XcodeLibPlot: names, colours, the parser and the run

    The functions around the [Graph] class: the helpers on paths and names,
    the colour table, the queries used by the per-framework views, the
    parser of [project.pbxproj] and the part of [main] that follows it.

    - Strings are sequences of bytes; [lower], [upper] and [strip] act on
      the ASCII range.  A property that depends on what [str.lower] or
      [str.upper] do outside that range is stated for ASCII values, and
      the sort key of the per-framework export takes [str.lower] as an
      argument.
    - What a function reads from the file system, from [plutil] or from the
      command line is an argument of its model; what it writes to a file is
      its result.  Messages of the logger are not modelled.
    - The JSON of a project is typed: an object is a record of the keys
      that the parser reads. *)

(** ** Paths and library names *)

(** [s.endswith(suffix)] *)
Fixpoint endswith (s suffix : string) : bool :=
  String.eqb s suffix ||
  match s with
  | EmptyString => false
  | String _ s' => endswith s' suffix
  end.

(** [s.startswith(prefix)] *)
Definition startswith (s prefix : string) : bool := String.prefix prefix s.

(** [str.upper] on the ASCII letters; other bytes are kept. *)
Definition upper_ascii (c : ascii) : ascii :=
  let n := nat_of_ascii c in
  if (97 <=? n)%nat && (n <=? 122)%nat then ascii_of_nat (n - 32) else c.

Fixpoint upper (s : string) : string :=
  match s with
  | EmptyString => EmptyString
  | String c s' => String (upper_ascii c) (upper s')
  end.

(** [a or b] where [a] is the result of a [dict.get] on a [str] entry. *)
Definition or_str (a : option string) (b : string) : string :=
  match a with
  | Some s => if str_truthy s then s else b
  | None => b
  end.

(** [is_library_like] *)
Definition is_library_like (name_or_path : string) : bool :=
  let lowered := lower name_or_path in
  existsb (λ ext, endswith lowered ext) [".framework"; ".a"; ".tbd"; ".dylib"].

(** [ext_from_path] *)
Definition ext_from_path (p : string) : string :=
  let p := lower p in
  if endswith p ".framework" then ".framework"
  else if endswith p ".a" then ".a"
  else if endswith p ".tbd" then ".tbd"
  else if endswith p ".dylib" then ".dylib"
  else "".

(** [c in s] for a single character [c]. *)
Fixpoint has_char (c : ascii) (s : string) : bool :=
  match s with
  | EmptyString => false
  | String a s' => Ascii.eqb a c || has_char c s'
  end.

(** [os.path.basename] (POSIX): what follows the last ["/"]. *)
Fixpoint basename (p : string) : string :=
  match p with
  | EmptyString => EmptyString
  | String c p' => if Ascii.eqb c "/" || has_char "/" p' then basename p' else p
  end.

(** [s.rfind(c)] for a single character: the last index of [c], if any. *)
Fixpoint rfind (c : ascii) (s : string) : option nat :=
  match s with
  | EmptyString => None
  | String a s' =>
      match rfind c s' with
      | Some i => Some (S i)
      | None => if Ascii.eqb a c then Some 0 else None
      end
  end.

Fixpoint all_dots (s : string) : bool :=
  match s with
  | EmptyString => true
  | String a s' => Ascii.eqb a "." && all_dots s'
  end.

(** [os.path.splitext(p)[0]] (POSIX): [p] up to its last dot, when that dot
    comes after the last ["/"] and after a character of the file name that
    is not a dot; [p] itself otherwise. *)
Definition splitext_root (p : string) : string :=
  match rfind "." p with
  | None => p
  | Some dotIndex =>
      let filenameIndex :=
        match rfind "/" p with
        | Some sepIndex => S sepIndex
        | None => 0
        end in
      if (filenameIndex <=? dotIndex)%nat then
        if all_dots (substring filenameIndex (dotIndex - filenameIndex) p) then p
        else substring 0 dotIndex p
      else p
  end.

(** [s.replace(old, new)] for a non-empty [old]: the occurrences of [old]
    are found from the left and do not overlap.  [skip] counts the
    characters of a replaced occurrence that are still to be passed. *)
Fixpoint replace_from (skip : nat) (old new s : string) : string :=
  match s with
  | EmptyString => EmptyString
  | String c s' =>
      match skip with
      | S k => replace_from k old new s'
      | O =>
          if String.prefix old s
          then new +:+ replace_from (String.length old - 1) old new s'
          else String c (replace_from 0 old new s')
      end
  end.

Definition replace (old new s : string) : string := replace_from 0 old new s.

(** [basename_without_ext] *)
Definition basename_without_ext (p : string) : string :=
  let base := basename p in
  if endswith base ".framework" then replace ".framework" "" base
  else if endswith base ".tbd" || endswith base ".dylib" || endswith base ".a"
       then splitext_root base
  else base.

(** [slugify] *)

(** The ASCII characters for which [str.isspace] holds. *)
Definition is_space (c : ascii) : bool :=
  let n := nat_of_ascii c in
  ((9 <=? n)%nat && (n <=? 13)%nat) || ((28 <=? n)%nat && (n <=? 32)%nat).

Fixpoint lstrip (s : string) : string :=
  match s with
  | EmptyString => EmptyString
  | String c s' => if is_space c then lstrip s' else s
  end.

Fixpoint rstrip (s : string) : string :=
  match s with
  | EmptyString => EmptyString
  | String c s' =>
      let r := rstrip s' in
      if is_space c && negb (str_truthy r) then EmptyString else String c r
  end.

(** [s.strip()] *)
Definition strip (s : string) : string := rstrip (lstrip s).

(** The characters of the class [A-Za-z0-9._-]. *)
Definition is_safe (c : ascii) : bool :=
  let n := nat_of_ascii c in
  ((65 <=? n)%nat && (n <=? 90)%nat) || ((97 <=? n)%nat && (n <=? 122)%nat)
  || ((48 <=? n)%nat && (n <=? 57)%nat)
  || (n =? 46)%nat || (n =? 95)%nat || (n =? 45)%nat.

(** [re.sub(r'[^A-Za-z0-9._-]+', "_", s)]: every maximal run of characters
    outside the class becomes one underscore.  [in_run] tells that the
    previous character was part of such a run. *)
Fixpoint sub_unsafe (in_run : bool) (s : string) : string :=
  match s with
  | EmptyString => EmptyString
  | String c s' =>
      if is_safe c then String c (sub_unsafe false s')
      else if in_run then sub_unsafe true s'
      else String "_" (sub_unsafe true s')
  end.

Definition slugify (name : string) : string :=
  let s := sub_unsafe false (strip name) in
  if str_truthy s then s else "item".

(** ** Colours *)

Definition is_hex_digit (c : ascii) : bool :=
  let n := nat_of_ascii c in
  ((48 <=? n)%nat && (n <=? 57)%nat) || ((97 <=? n)%nat && (n <=? 102)%nat)
  || ((65 <=? n)%nat && (n <=? 70)%nat).

Fixpoint all_hex_digits (s : string) : bool :=
  match s with
  | EmptyString => true
  | String c s' => is_hex_digit c && all_hex_digits s'
  end.

(** [is_hex_color]: the whole of [s or ""] matches [#([0-9a-fA-F]{6})]. *)
Definition is_hex_color (s : option string) : bool :=
  match or_str s "" with
  | String "#" digits => (String.length digits =? 6)%nat && all_hex_digits digits
  | _ => false
  end.

(** The colour options of the command line, [None] when not given. *)
Module Args.
Record colors : Type := mkColors {
  color_target_fill : option string;
  color_target_stroke : option string;
  color_lib3p_fill : option string;
  color_lib3p_stroke : option string;
  color_libsys_fill : option string;
  color_libsys_stroke : option string;
  color_cycle_fill : option string;
  color_cycle_stroke : option string;
  color_focus_fill : option string;
  color_focus_stroke : option string;
  color_edge : option string;
  color_edge_cycle : option string;
  color_edge_tt : option string;
  color_edge_peer : option string;
}.
End Args.

(** One round of the loop of [apply_color_overrides]: [cur] is [colors[key]]
    and [val] is [getattr(args, arg_name, None)]. *)
Definition override (val : option string) (cur : string) : string :=
  match val with
  | Some v => if str_truthy v then (if is_hex_color (Some v) then v else cur) else cur
  | None => cur
  end.

(** [apply_color_overrides]; the warnings are not part of the result. *)
Definition apply_color_overrides (args : Args.colors) : Colors :=
  let colors := default_colors in
  mkColors
    (override (Args.color_target_fill args) (target_fill colors))
    (override (Args.color_target_stroke args) (target_stroke colors))
    (override (Args.color_lib3p_fill args) (lib3p_fill colors))
    (override (Args.color_lib3p_stroke args) (lib3p_stroke colors))
    (override (Args.color_libsys_fill args) (libsys_fill colors))
    (override (Args.color_libsys_stroke args) (libsys_stroke colors))
    (override (Args.color_cycle_fill args) (cycle_fill colors))
    (override (Args.color_cycle_stroke args) (cycle_stroke colors))
    (override (Args.color_focus_fill args) (focus_fill colors))
    (override (Args.color_focus_stroke args) (focus_stroke colors))
    (override (Args.color_edge args) (color_edge colors))
    (override (Args.color_edge_cycle args) (color_edge_cycle colors))
    (override (Args.color_edge_tt args) (color_edge_tt colors))
    (override (Args.color_edge_peer args) (color_edge_peer colors)).

(** ** Graph queries *)

Section queries.
Context `{SetOrder}.

(** [Graph.targets_linking_lib] *)
Definition targets_linking_lib (g : Graph) (lib : string) : gset string :=
  list_to_set (map fst (filter (λ e, e.2 = lib ∧ e.1 ∈ target_nodes g)
                               (iter_pairs (edges g)))).

(** [Graph.libs_linked_by_targets] *)
Definition libs_linked_by_targets (g : Graph) (targets : gset string) : gset string :=
  list_to_set (map snd (filter (λ e, e.1 ∈ targets ∧ e.2 ∈ lib_nodes g)
                               (iter_pairs (edges g)))).

(** The value of [peer_libs] in [to_dot_framework_view]. *)
Definition peer_libs (g : Graph) (framework : string) (include_peer_libs : bool)
    : gset string :=
  let targets := targets_linking_lib g framework in
  if include_peer_libs && set_truthy targets
  then libs_linked_by_targets g targets ∖ {[framework]}
  else ∅.
End queries.

(** ** Frameworks chosen for the per-framework views *)

(** [sorted(xs, key=...)]: a stable sort.  [le a b] tells that the key of
    [a] is at most the key of [b]; an element is put before the first
    element whose key is not smaller, so equal keys keep their order. *)
Fixpoint insert_by {A} (le : A → A → bool) (x : A) (l : list A) : list A :=
  match l with
  | [] => [x]
  | y :: l' => if le x y then x :: l else y :: insert_by le x l'
  end.

Definition sorted_by {A} (le : A → A → bool) (l : list A) : list A :=
  foldr (insert_by le) [] l.

Section split.
Context `{SetOrder}.

(** [str.lower] as the sort key uses it.  It maps every cased character
    that [str] can hold, so it is an argument here: what is proved of the
    selection holds for whatever it maps a name to. *)
Variable str_lower : string → string.

(** The sort key [(-graph.lib_in_degree(l), l.lower())]. *)
Definition split_key (g : Graph) (l : string) : Z * string :=
  ((- Z.of_nat (lib_in_degree g l))%Z, str_lower l).

(** The order of the keys, as tuples. *)
Definition split_key_le (k1 k2 : Z * string) : bool :=
  if (k1.1 =? k2.1)%Z then String.leb k1.2 k2.2 else (k1.1 <? k2.1)%Z.

(** The value of [libs_sorted] in [export_split_by_framework] when the
    loop over it starts. *)
Definition split_selection (g : Graph) (split_max split_min_degree : Z) : list string :=
  let libs_sorted :=
    sorted_by (λ a b, split_key_le (split_key g a) (split_key g b))
              (iter_names (lib_nodes g)) in
  let libs_sorted :=
    if (1 <? split_min_degree)%Z
    then filter (λ l, (split_min_degree ≤ Z.of_nat (lib_in_degree g l))%Z) libs_sorted
    else libs_sorted in
  if bool_decide (split_max ≠ 0%Z) && (0 <? split_max)%Z
  then take (Z.to_nat split_max) libs_sorted
  else libs_sorted.
End split.

(** ** The cycles summary *)

(** [export_cycles_summary]: the strings written to [<output>.cycles.txt],
    one for each call of [fp.write]. *)
Definition export_cycles_summary (cycle_components : list (list string)) : list string :=
  let has_cycles := list_truthy cycle_components in
  [ "HAS_CYCLES=" +:+ (if has_cycles then "true" else "false") +:+ nl;
    "CYCLES_COUNT=" +:+ pretty (length cycle_components) +:+ nl ]
  ++ (if has_cycles
      then imap (λ i comp, "CYCLE_" +:+ pretty (S i) +:+ "=" +:+ String.concat "," comp +:+ nl)
                cycle_components
      else []).

(** ** Reading a project *)

(** The JSON that [plutil] gives for a [project.pbxproj].  An entry of
    ["objects"] is seen through the keys that the parser reads, with the
    types that Xcode writes for them: identifiers, names and paths are
    strings, the four reference lists are lists of identifiers.  An absent
    key is [None]. *)
Module Pbx.
Record object : Type := mkObject {
  isa : option string;
  name : option string;
  path : option string;
  sourceTree : option string;
  fileRef : option string;
  files : option (list string);
  buildPhases : option (list string);
  dependencies : option (list string);
  target : option string;
  packageProductDependencies : option (list string);
  productName : option string;
  package : option string;
  repositoryURL : option string;
}.

(** The empty dictionary [{}]. *)
Definition empty : object :=
  mkObject None None None None None None None None None None None None None.

(** The document: its ["objects"] entry, as [items()] lists it. *)
Record json : Type := mkJson {
  objects : option (list (string * object));
}.
End Pbx.

(** [detect_system_framework] *)
Definition detect_system_framework (fr_obj : Pbx.object) : bool :=
  let path := lower (or_str (Pbx.path fr_obj) (or_str (Pbx.name fr_obj) "")) in
  let src := upper (or_str (Pbx.sourceTree fr_obj) "") in
  if contains "system/library/frameworks" path then true
  else if contains "/usr/lib/" path then true
  else if bool_decide (src = "SDKROOT") || bool_decide (src = "DEVELOPER_DIR") then true
  else false.

(** [d[k] = v] on an insertion-ordered dictionary. *)
Definition od_insert {V} (k : string) (v : V) (d : odict V) : odict V :=
  mkOdict (<[k := v]> (od_map d))
          (if bool_decide (k ∈ dom (od_map d)) then od_keys d else od_keys d ++ [k]).

(** [d.items()] *)
Definition od_items {V} (d : odict V) : list (string * V) :=
  omap (λ k, (λ v, (k, v)) <$> od_map d !! k) (od_keys d).

(** The dictionaries and the list that the first loop of
    [parse_pbxproj_dependencies] fills.  A value of [spm_products] is the
    pair of its ["productName"] and ["package"] entries; a value of
    [spm_packages] is its ["repositoryURL"] entry. *)
Record tables : Type := mkTables {
  file_refs : gmap string Pbx.object;
  build_files_to_filerefs : gmap string string;
  frameworks_phase_to_files : gmap string (list string);
  target_to_frameworks_phases : odict (list string);
  target_names : odict string;
  target_dependencies : list (string * string);
  spm_products : gmap string (option string * option string);
  spm_packages : gmap string (option string);
}.

Definition empty_tables : tables := mkTables ∅ ∅ ∅ od_empty od_empty [] ∅ ∅.

(** [objects.get(k, {})] *)
Definition objects_get (objects : gmap string Pbx.object) (k : string) : Pbx.object :=
  default Pbx.empty (objects !! k).

(** The pairs that a native target appends to [target_dependencies]. *)
Definition dependency_pairs (objects : gmap string Pbx.object) (obj_id : string)
    (deps : list string) : list (string * string) :=
  omap (λ dep_id,
          let dep_obj := objects_get objects dep_id in
          if bool_decide (Pbx.isa dep_obj = Some "PBXTargetDependency") then
            match Pbx.target dep_obj with
            | Some dep_target =>
                if str_truthy dep_target then Some (obj_id, dep_target) else None
            | None => None
            end
          else None)
       deps.

(** The body of the first loop of [parse_pbxproj_dependencies]. *)
Definition scan_object (objects : gmap string Pbx.object) (tb : tables)
    (item : string * Pbx.object) : tables :=
  let '(obj_id, obj) := item in
  let isa := default "" (Pbx.isa obj) in
  if String.eqb isa "PBXFileReference" then
    mkTables (<[obj_id := obj]> (file_refs tb)) (build_files_to_filerefs tb)
             (frameworks_phase_to_files tb) (target_to_frameworks_phases tb)
             (target_names tb) (target_dependencies tb) (spm_products tb) (spm_packages tb)
  else if String.eqb isa "PBXBuildFile" then
    match Pbx.fileRef obj with
    | Some r =>
        mkTables (file_refs tb) (<[obj_id := r]> (build_files_to_filerefs tb))
                 (frameworks_phase_to_files tb) (target_to_frameworks_phases tb)
                 (target_names tb) (target_dependencies tb) (spm_products tb)
                 (spm_packages tb)
    | None => tb
    end
  else if String.eqb isa "PBXFrameworksBuildPhase" then
    mkTables (file_refs tb) (build_files_to_filerefs tb)
             (<[obj_id := default [] (Pbx.files obj)]> (frameworks_phase_to_files tb))
             (target_to_frameworks_phases tb)
             (target_names tb) (target_dependencies tb) (spm_products tb) (spm_packages tb)
  else if String.eqb isa "PBXNativeTarget" then
    let phases := default [] (Pbx.buildPhases obj) in
    let fps :=
      filter (λ ph_id, Pbx.isa (objects_get objects ph_id) = Some "PBXFrameworksBuildPhase")
             phases in
    let deps := default [] (Pbx.dependencies obj) in
    mkTables (file_refs tb) (build_files_to_filerefs tb) (frameworks_phase_to_files tb)
             (od_insert obj_id fps (target_to_frameworks_phases tb))
             (od_insert obj_id (default obj_id (Pbx.name obj)) (target_names tb))
             (target_dependencies tb ++ dependency_pairs objects obj_id deps)
             (spm_products tb) (spm_packages tb)
  else if String.eqb isa "XCSwiftPackageProductDependency" then
    mkTables (file_refs tb) (build_files_to_filerefs tb) (frameworks_phase_to_files tb)
             (target_to_frameworks_phases tb) (target_names tb) (target_dependencies tb)
             (<[obj_id := (Pbx.productName obj, Pbx.package obj)]> (spm_products tb))
             (spm_packages tb)
  else if String.eqb isa "XCRemoteSwiftPackageReference" then
    mkTables (file_refs tb) (build_files_to_filerefs tb) (frameworks_phase_to_files tb)
             (target_to_frameworks_phases tb) (target_names tb) (target_dependencies tb)
             (spm_products tb)
             (<[obj_id := Pbx.repositoryURL obj]> (spm_packages tb))
  else tb.

(** [target_names.get(t_id, t_id)] *)
Definition target_name (tb : tables) (t_id : string) : string :=
  default t_id (od_map (target_names tb) !! t_id).

(** The builder calls of one round of [for bf_id in build_files]. *)
Definition build_file_facts (tb : tables) (t_name bf_id : string) : list fact :=
  match build_files_to_filerefs tb !! bf_id with
  | None => []
  | Some fr_id =>
      if negb (str_truthy fr_id) then []
      else
        let fr := default Pbx.empty (file_refs tb !! fr_id) in
        let lib_path := or_str (Pbx.path fr) (or_str (Pbx.name fr) "") in
        if negb (str_truthy lib_path) then []
        else if is_library_like lib_path then
          let lib_name := basename_without_ext lib_path in
          let is_sys := detect_system_framework fr in
          let ext := ext_from_path lib_path in
          [ AddLib lib_name None is_sys (Some ext); AddEdge t_name lib_name ]
        else []
  end.

(** The builder calls of one round of [for p_id in ppds]. *)
Definition package_product_facts (tb : tables) (t_name p_id : string) : list fact :=
  match spm_products tb !! p_id with
  | None => []
  | Some (productName, package) =>
      let pname := or_str productName ("SPMProduct:" +:+ p_id) in
      let repo :=
        match package with
        | Some pkg_id => default None (spm_packages tb !! pkg_id)
        | None => None
        end in
      let subtitle := if opt_truthy repo then default "" repo else "Swift Package" in
      [ AddLib pname (Some subtitle) false (Some "spm"); AddEdge t_name pname ]
  end.

(** The builder calls of [parse_pbxproj_dependencies] on [graph], in the
    order in which they are made. *)
Definition parse_facts (pbx_json : Pbx.json) : list fact :=
  let objects := default [] (Pbx.objects pbx_json) in
  let by_id : gmap string Pbx.object := list_to_map objects in
  let tb := fold_left (scan_object by_id) objects empty_tables in
  map (λ item, AddTarget item.2) (od_items (target_names tb))
  ++ (item ← od_items (target_to_frameworks_phases tb);
      fp_id ← item.2;
      bf_id ← default [] (frameworks_phase_to_files tb !! fp_id);
      build_file_facts tb (target_name tb item.1) bf_id)
  ++ (item ← objects;
      if bool_decide (Pbx.isa item.2 = Some "PBXNativeTarget") then
        p_id ← default [] (Pbx.packageProductDependencies item.2);
        package_product_facts tb (target_name tb item.1) p_id
      else [])
  ++ map (λ d, AddEdge (target_name tb d.1) (target_name tb d.2)) (target_dependencies tb).

(** [parse_pbxproj_dependencies] *)
Definition parse_pbxproj_dependencies (pbx_json : Pbx.json) (graph : Graph) : Graph :=
  fold_left apply_fact (parse_facts pbx_json) graph.

(** What [process_project] finds for a project: [project_path.stem],
    whether [project.pbxproj] exists, the result of [plutil_to_json], and
    the first group of every match of the path pattern in the raw text of
    the file, read when [plutil] gave nothing. *)
Record Project : Type := mkProject {
  stem : string;
  pbxproj_exists : bool;
  plutil_to_json : option Pbx.json;
  raw_paths : list string;
}.

Section reading.
Context `{SetOrder}.

(** [process_project] *)
Definition process_project (project : Project) (graph : Graph) : Graph :=
  if negb (pbxproj_exists project) then graph
  else
    match plutil_to_json project with
    | None =>
        let libs : gset string :=
          list_to_set (map basename_without_ext (raw_paths project)) in
        let proj_name := stem project in
        let graph := add_target ("[" +:+ proj_name +:+ "]") graph in
        fold_left (λ graph lib,
                     add_edge ("[" +:+ proj_name +:+ "]") lib
                              (add_lib lib None false None graph))
                  (sorted (iter_names libs)) graph
    | Some pbx_json => parse_pbxproj_dependencies pbx_json graph
    end.

(** The graph that [main] builds from the projects, taken in order. *)
Definition read_projects (projects : list Project) : Graph :=
  fold_left (λ graph proj, process_project proj graph) projects new_graph.
End reading.

(** ** The command line *)

(** The options of [main] that decide what is computed. *)
Module Cli.
Record args : Type := mkArgs {
  no_cycle_highlight : bool;
  no_system_highlight : bool;
  fail_on_cycles : bool;
  split_only : bool;
  split_by_framework : bool;
  split_max : Z;
  split_min_degree : Z;
  json_out : option string;
  include_target : list string;
  exclude_target : list string;
  include_lib : list string;
  exclude_lib : list string;
  include_suffix : list string;
  exclude_suffix : list string;
  color_args : Args.colors;
}.
End Cli.

(** The [filters_meta] dictionary of [main]. *)
Record FiltersMeta : Type := mkFiltersMeta {
  fm_include_target : list string;
  fm_exclude_target : list string;
  fm_include_lib : list string;
  fm_exclude_lib : list string;
  fm_include_suffix : list string;
  fm_exclude_suffix : list string;
  fm_highlight_cycles : bool;
  fm_system_highlight : bool;
  fm_split_only : bool;
}.

(** The element of the normalised suffix set that [main] makes of [s]. *)
Definition normalize_suffix (s : string) : string :=
  if bool_decide (s = "spm") then s
  else if startswith s "." then s else "." +:+ s.

(** The suffix sets that [main] passes to [apply_filters], from the
    repeated option. *)
Definition cli_suffixes (raw : list string) : gset string :=
  let suffixes : gset string := list_to_set (map lower raw) in
  if set_truthy suffixes then set_map normalize_suffix suffixes else suffixes.

(** What a run of [main] produces once the projects are read: the graph,
    the text of the cycles summary, the JSON payload when [--json-out] is
    given, the frameworks of the per-framework export when it is asked
    for, the global DOT text unless [--split-only], and the exit code. *)
Record Outputs : Type := mkOutputs {
  out_graph : Graph;
  out_cycles_summary : list string;
  out_json : option (Payload FiltersMeta);
  out_split : option (list string);
  out_dot : option string;
  out_exit_code : Z;
}.

Section main.
Context `{SetOrder}.

(** [re.compile]: [None] stands for [re.error]. *)
Variable re_compile : string → option Pattern.

(** [compile_regex_list] of [main] *)
Definition compile_regex_list (patterns : list string) : list Pattern :=
  omap re_compile patterns.

(** The filters that [main] passes to [apply_filters]. *)
Definition cli_filters (args : Cli.args) : Filters :=
  mkFilters (compile_regex_list (Cli.include_target args))
            (compile_regex_list (Cli.exclude_target args))
            (compile_regex_list (Cli.include_lib args))
            (compile_regex_list (Cli.exclude_lib args))
            (cli_suffixes (Cli.include_suffix args))
            (cli_suffixes (Cli.exclude_suffix args)).

(** [main] from the point where the sorted list of projects is known and
    not empty.  [now_json] and [now_dot] are the two readings of the clock;
    [limit] is the interpreter's bound on nested calls. *)
Definition main (limit : nat) (args : Cli.args) (now_json now_dot root_path : string)
    (projects : list Project) : result Outputs :=
  let colors := apply_color_overrides (Cli.color_args args) in
  let graph := read_projects projects in
  let include_suffixes := cli_suffixes (Cli.include_suffix args) in
  let exclude_suffixes := cli_suffixes (Cli.exclude_suffix args) in
  let graph := apply_filters (cli_filters args) true graph in
  let highlight_cycles := negb (Cli.no_cycle_highlight args) in
  graph ← (if highlight_cycles then mark_cycles limit graph else Ok graph);
  let has_cycles := list_truthy (cycle_components graph) in
  let summary := export_cycles_summary (cycle_components graph) in
  let exit_code := if Cli.fail_on_cycles args && has_cycles then 2%Z else 0%Z in
  let json :=
    if opt_truthy (Cli.json_out args) then
      let filters_meta :=
        mkFiltersMeta (Cli.include_target args) (Cli.exclude_target args)
                      (Cli.include_lib args) (Cli.exclude_lib args)
                      (sorted (iter_names include_suffixes))
                      (sorted (iter_names exclude_suffixes))
                      highlight_cycles (negb (Cli.no_system_highlight args))
                      (Cli.split_only args) in
      Some (export_json graph now_json root_path filters_meta colors)
    else None in
  let split :=
    if Cli.split_by_framework args || Cli.split_only args
    then Some (split_selection lower graph (Cli.split_max args)
                                 (Cli.split_min_degree args))
    else None in
  let dot :=
    if negb (Cli.split_only args)
    then Some (to_dot colors now_dot highlight_cycles
                      (negb (Cli.no_system_highlight args)) graph)
    else None in
  Ok (mkOutputs graph summary json split dot exit_code).
End main.

(** ** Specification vocabulary *)

(** Exclusion before inclusion on a name: excluded names are refused,
    the others pass when there is no include pattern or one matches. *)
Definition name_allowed (include exclude : list Pattern) (name : string) : bool :=
  if match_any exclude name then false
  else match include with
       | [] => true
       | _ :: _ => match_any include name
       end.

(** The key on which [lib_allowed] runs its suffix tests. *)
Definition ext_key (ann : gmap string string) (lm : gmap string Meta) (l : string) : string :=
  match meta_ext (default empty_meta (lm !! l)) with
  | None => if has_url_subtitle ann l then "spm" else ""
  | Some e => lower e
  end.

(** The verdict of [lib_allowed] on the graph as it is before filtering. *)
Definition lib_ok (f : Filters) (g : Graph) (l : string) : bool :=
  (lib_allowed f (annotations g) l (lib_meta g)).1.

(** An edge passes the filters: its endpoints that are targets are allowed
    targets, and its destination, when a library, is an allowed library. *)
Definition edge_passes (f : Filters) (g : Graph) (e : string * string) : Prop :=
  (e.1 ∈ target_nodes g → target_allowed f e.1 = true)
  ∧ (e.2 ∈ target_nodes g → target_allowed f e.2 = true)
  ∧ (e.2 ∈ lib_nodes g → lib_ok f g e.2 = true).

(** The entry that [lib_allowed] leaves for [k] when it is evaluated on the
    metadata [lm0]. *)
Definition inferred (f : Filters) (ann : gmap string string) (lm0 : gmap string Meta)
    (k : string) : option Meta :=
  (lib_allowed f ann k lm0).2 !! k.

(** [lm] is [lm0] after some evaluations of [lib_allowed]: an entry is
    either untouched or the one that [lib_allowed] leaves. *)
Definition meta_inferred (f : Filters) (ann : gmap string string)
    (lm0 lm : gmap string Meta) : Prop :=
  ∀ k, lm !! k = lm0 !! k ∨ lm !! k = inferred f ann lm0 k.

(** *** Graph-theoretic vocabulary *)

(** The vertices of [mark_cycles]: every target, every library and every
    endpoint of an edge. *)
Definition vertices (g : Graph) : gset string :=
  target_nodes g ∪ lib_nodes g ∪ set_map fst (edges g) ∪ set_map snd (edges g).

(** The directed edge relation of a graph. *)
Definition edge (g : Graph) (a b : string) : Prop := (a, b) ∈ edges g.

(** Reachability by zero or more edges, and by one or more edges. *)
Definition reaches (g : Graph) : relation string := rtc (edge g).
Definition reaches_plus (g : Graph) : relation string := tc (edge g).

(** A strongly connected component of [g], as a set: the class of a vertex
    under mutual reachability. *)
Definition is_scc (g : Graph) (S : gset string) : Prop :=
  ∃ x, x ∈ vertices g ∧ ∀ y, y ∈ S ↔ reaches g x y ∧ reaches g y x.

(** The successor relation that [strongconnect] follows in [adj]. *)
Definition succ_rel (adj : odict (gset string)) (v w : string) : Prop :=
  w ∈ adj_get adj v.

Definition reach (adj : odict (gset string)) : relation string := rtc (succ_rel adj).

(** *** Invariants of the traversal *)

Definition visited (st : tarjan) (x : string) : Prop := is_Some (indices st !! x).

Definition num (st : tarjan) (x : string) : nat := default 0 (indices st !! x).

(** A list that holds a whole class of mutual reachability. *)
Definition is_scc_list (adj : odict (gset string)) (c : list string) : Prop :=
  c ≠ [] ∧ ∀ x, x ∈ c → ∀ y, y ∈ c ↔ reach adj x y ∧ reach adj y x.

(** What every state of the traversal satisfies.  [gray] is the set of
    vertices whose call of [strongconnect] is active. *)
Record tarjan_inv (adj : odict (gset string)) (gray : gset string) (st : tarjan) : Prop :=
  mkTarjanInv {
  inv_lt : ∀ x i, indices st !! x = Some i → i < index st;
  inv_onstack : ∀ x, x ∈ onstack st ↔ x ∈ stack st;
  inv_nodup : NoDup (stack st ++ concat (sccs st));
  inv_visited : ∀ x, visited st x ↔ x ∈ stack st ∨ x ∈ concat (sccs st);
  inv_scc : ∀ c, c ∈ sccs st → is_scc_list adj c;
  inv_closed : ∀ x y, x ∈ concat (sccs st) → succ_rel adj x y → y ∈ concat (sccs st);
  inv_gray_stack : ∀ g, g ∈ gray → g ∈ stack st;
  inv_stack_gray : ∀ y, y ∈ stack st →
    ∃ g, g ∈ gray ∧ num st g ≤ num st y ∧ reach adj y g;
  inv_gray_reach : ∀ g y, g ∈ gray → y ∈ stack st → num st g ≤ num st y → reach adj g y;
  inv_black : ∀ x y, visited st x → x ∉ gray → succ_rel adj x y → visited st y;
  inv_keys : ∀ x, visited st x → x ∈ od_keys adj;
}.

(** How a later state relates to an earlier one. *)
Definition grows (st st' : tarjan) : Prop :=
  index st ≤ index st'
  ∧ (∀ x, visited st x →
        indices st' !! x = indices st !! x ∧ low st' !! x = low st !! x)
  ∧ (∀ x, visited st' x → ¬ visited st x → index st ≤ num st' x)
  ∧ (∃ new, sccs st' = sccs st ++ new).

(** The state after [strongconnect(v)] returned, started in [st]. *)
Definition sc_post (adj : odict (gset string)) (gray : gset string) (v : string)
    (st st' : tarjan) : Prop :=
  tarjan_inv adj gray st'
  ∧ grows st st'
  ∧ indices st' !! v = Some (index st)
  ∧ ∃ seg lv,
      stack st' = seg ++ stack st
      ∧ low st' !! v = Some lv
      ∧ lv ≤ index st
      ∧ (∀ x, x ∈ seg → ¬ visited st x)
      ∧ ((seg = [] ∧ lv = index st)
         ∨ (v ∈ seg ∧ lv < index st
            ∧ ∃ u, u ∈ stack st ∧ num st' u = lv ∧ reach adj v u))
      ∧ (∀ p q, p ∈ seg → succ_rel adj p q → q ∈ stack st' → lv ≤ num st' q).

(** The state inside the loop of [strongconnect(v)], started in [st0], when
    the successors [done] have been handled. *)
Definition loop_inv (adj : odict (gset string)) (gray : gset string) (v : string)
    (st0 : tarjan) (done : list string) (cur : tarjan) : Prop :=
  tarjan_inv adj ({[v]} ∪ gray) cur
  ∧ grows st0 cur
  ∧ ¬ visited st0 v
  ∧ indices cur !! v = Some (index st0)
  ∧ ∃ seg lv,
      stack cur = seg ++ v :: stack st0
      ∧ low cur !! v = Some lv
      ∧ lv ≤ index st0
      ∧ (∀ x, x ∈ seg → ¬ visited st0 x)
      ∧ (∃ u, u ∈ stack cur ∧ num cur u = lv ∧ reach adj v u)
      ∧ (∀ w, w ∈ done → visited cur w ∧ (w ∈ stack cur → lv ≤ num cur w))
      ∧ (∀ p q, p ∈ seg → succ_rel adj p q → q ∈ stack cur → lv ≤ num cur q).

(** The vertices not yet numbered. *)
Definition unvisited (adj : odict (gset string)) (st : tarjan) : gset string :=
  list_to_set (od_keys adj) ∖ dom (indices st).

(** The key list of an ordered dictionary lists the keys of its mapping. *)
Definition od_wf {V} (d : odict V) : Prop :=
  ∀ k, k ∈ od_keys d ↔ is_Some (od_map d !! k).

(** *** Scenarios *)

(** No filter at all. *)
Definition no_filters : Filters := mkFilters [] [] [] [] ∅ ∅.

(** Scenario A: the targets [App] and [Core], the framework [LibA], and
    the edges [App → LibA], [Core → LibA] and [App → Core]. *)
Definition scenario_A : Graph :=
  add_edge "App" "Core" (add_edge "Core" "LibA" (add_edge "App" "LibA"
    (add_lib "LibA" None false (Some ".framework")
       (add_target "Core" (add_target "App" new_graph))))).

(** Scenario C: the target [Z] with the self-loop [Z → Z]. *)
Definition scenario_C : Graph := add_edge "Z" "Z" (add_target "Z" new_graph).

(** Scenario B: the targets [X] and [Y] with the edges [X → Y] and
    [Y → X]. *)
Definition scenario_B : Graph :=
  add_edge "Y" "X" (add_edge "X" "Y" (add_target "Y" (add_target "X" new_graph))).

(** A deep chain: the targets [t0], ..., [tn] with the edges
    [t0 → t1 → ... → tn], and the same chain closed by [tn → t0]. *)
Definition node_name (i : nat) : string := "t" +:+ pretty i.

Definition chain_graph (n : nat) : Graph :=
  fold_left (λ g i, add_edge (node_name i) (node_name (S i))
                      (add_target (node_name (S i)) (add_target (node_name i) g)))
            (seq 0 n) new_graph.

Definition ring_graph (n : nat) : Graph :=
  add_edge (node_name n) (node_name 0) (chain_graph n).

(** A path on which every vertex but the last has the next one as its only
    successor. *)
Fixpoint single_chain (R : relation string) (l : list string) : Prop :=
  match l with
  | x :: l' =>
      match l' with
      | y :: _ => (∀ b, R x b ↔ b = y) ∧ single_chain R l'
      | [] => True
      end
  | [] => True
  end.

(** The index that follows [i] on the ring of [n + 1] targets. *)
Definition ring_next (n i : nat) : nat := if decide (i = n) then 0 else S i.

(** Another admissible order: [elements] backwards. *)
#[global] Instance reversed_order : SetOrder | 100 := {|
  iter_names := λ X, reverse (elements X);
  iter_succ := λ _ X, reverse (elements X);
  iter_pairs := λ X, reverse (elements X);
  iter_names_perm := λ X, reverse_Permutation _;
  iter_succ_perm := λ _ X, reverse_Permutation _;
  iter_pairs_perm := λ X, reverse_Permutation _;
|}.



(** Two targets, each with a self-loop. *)
Definition two_loops_facts : list fact :=
  [ AddTarget "A"; AddTarget "B"; AddEdge "A" "A"; AddEdge "B" "B" ].







(** ** Vocabulary for the helpers *)

(** Every character of [s] belongs to the class [A-Za-z0-9._-]. *)
Fixpoint all_safe (s : string) : bool :=
  match s with
  | EmptyString => true
  | String c s' => is_safe c && all_safe s'
  end.

(** Every entry of a colour table is a colour of the form [#rrggbb]. *)
Definition all_hex_colors (c : Colors) : bool :=
  forallb (λ v, is_hex_color (Some v))
    [ target_fill c; target_stroke c; lib3p_fill c; lib3p_stroke c; libsys_fill c;
      libsys_stroke c; cycle_fill c; cycle_stroke c; focus_fill c; focus_stroke c;
      color_edge c; color_edge_cycle c; color_edge_tt c; color_edge_peer c ].

(** The strings of ASCII characters.  On them [lower] and [upper] are
    [str.lower] and [str.upper]. *)
Definition is_ascii (s : string) : bool :=
  forallb (λ c, (nat_of_ascii c <? 128)%nat) (list_ascii_of_string s).

(** The suffixes that the parser records for a library. *)
Definition known_exts : list string := [".framework"; ".a"; ".tbd"; ".dylib"; "spm"].

Section split_spec.
Context `{SetOrder}.
Variable str_lower : string → string.

(** The order in which the per-framework export takes the libraries: by
    decreasing in-degree, then by lower-cased name. *)
Definition split_before (g : Graph) (a b : string) : Prop :=
  lib_in_degree g b < lib_in_degree g a
  ∨ (lib_in_degree g a = lib_in_degree g b ∧ str_le (str_lower a) (str_lower b)).

(** A library passes [--split-min-degree]. *)
Definition split_eligible (g : Graph) (split_min_degree : Z) (l : string) : Prop :=
  (1 < split_min_degree)%Z → (split_min_degree ≤ Z.of_nat (lib_in_degree g l))%Z.
End split_spec.

(** ** Vocabulary for the parser *)

Section facts_spec.
Context `{SetOrder}.

(** The builder calls of [process_project] when [plutil] gave nothing. *)
Definition fallback_facts (project : Project) : list fact :=
  let proj := "[" +:+ stem project +:+ "]" in
  AddTarget proj
  :: (lib ← sorted (iter_names (list_to_set (map basename_without_ext (raw_paths project))));
      [AddLib lib None false None; AddEdge proj lib]).

(** The builder calls of [process_project]. *)
Definition project_facts (project : Project) : list fact :=
  if negb (pbxproj_exists project) then []
  else match plutil_to_json project with
       | None => fallback_facts project
       | Some pbx_json => parse_facts pbx_json
       end.
End facts_spec.

(** What the first loop of the parser keeps true of its tables: the names
    of the targets are listed under their keys, and every key of
    [target_to_frameworks_phases] and every source of a dependency is the
    identifier of a named target. *)
Definition scan_inv (tb : tables) : Prop :=
  od_wf (target_names tb)
  ∧ (∀ k, is_Some (od_map (target_to_frameworks_phases tb) !! k) →
          is_Some (od_map (target_names tb) !! k))
  ∧ (∀ d, d ∈ target_dependencies tb → is_Some (od_map (target_names tb) !! d.1)).

(** Every library with a subtitle has a recorded suffix. *)
Definition annotated_have_ext (g : Graph) : Prop :=
  ∀ l, is_Some (annotations g !! l) → lib_ext g l ≠ None.

(** A small project: the target [App] links [UIKit.framework] from the
    SDK and [libz.a], depends on the target [Core] and uses the package
    product [Alamofire]. *)
Definition sample_objects : list (string * Pbx.object) :=
  [ ("T1", Pbx.mkObject (Some "PBXNativeTarget") (Some "App") None None None None
             (Some ["S1"; "FP1"]) (Some ["D1"]) None (Some ["P1"]) None None None);
    ("S1", Pbx.mkObject (Some "PBXSourcesBuildPhase") None None None None
             (Some ["BF0"]) None None None None None None None);
    ("FP1", Pbx.mkObject (Some "PBXFrameworksBuildPhase") None None None None
              (Some ["BF1"; "BF2"]) None None None None None None None);
    ("BF1", Pbx.mkObject (Some "PBXBuildFile") None None None (Some "FR1") None None
              None None None None None None);
    ("BF2", Pbx.mkObject (Some "PBXBuildFile") None None None (Some "FR2") None None
              None None None None None None);
    ("FR1", Pbx.mkObject (Some "PBXFileReference") (Some "UIKit.framework")
              (Some "System/Library/Frameworks/UIKit.framework") (Some "SDKROOT")
              None None None None None None None None None);
    ("FR2", Pbx.mkObject (Some "PBXFileReference") None (Some "Vendor/lib/libz.a")
              (Some "<group>") None None None None None None None None None);
    ("D1", Pbx.mkObject (Some "PBXTargetDependency") None None None None None None
             None (Some "T2") None None None None);
    ("T2", Pbx.mkObject (Some "PBXNativeTarget") (Some "Core") None None None None
             (Some []) None None None None None None);
    ("P1", Pbx.mkObject (Some "XCSwiftPackageProductDependency") None None None None
             None None None None None (Some "Alamofire") (Some "PK1") None);
    ("PK1", Pbx.mkObject (Some "XCRemoteSwiftPackageReference") None None None None
              None None None None None None None
              (Some "https://github.com/Alamofire/Alamofire.git")) ].

Definition sample_project : Project :=
  mkProject "App" true (Some (Pbx.mkJson (Some sample_objects))) [].

(** The same project when [plutil] fails and two paths are found in the
    raw text. *)
Definition sample_project_raw : Project :=
  mkProject "App" true None ["Vendor/lib/libz.a"; "UIKit.framework"].

Section main_spec.
Context `{SetOrder}.

(** The graph on which [main] runs the cycle detection. *)
Definition filtered_graph (re_compile : string → option Pattern) (args : Cli.args)
    (projects : list Project) : Graph :=
  apply_filters (cli_filters re_compile args) true (read_projects projects).
End main_spec.

(** No option given. *)
Definition no_color_args : Args.colors :=
  Args.mkColors None None None None None None None None None None None None None None.

Definition default_args : Cli.args :=
  Cli.mkArgs false false false false false 0 1 None [] [] [] [] [] [] no_color_args.

(** ** Vocabulary for the order of the components *)

(** Every initial part of the list of components is closed under the
    successor relation: a component is listed after everything that can be
    reached from it. *)
Definition topo_closed (adj : odict (gset string)) (cs : list (list string)) : Prop :=
  ∀ front back, cs = front ++ back →
    ∀ x y, x ∈ concat front → succ_rel adj x y → y ∈ concat front.

(** No member of [c1] reaches a member of [c2]. *)
Definition unreachable_from (g : Graph) (c1 c2 : list string) : Prop :=
  ∀ x y, x ∈ c1 → y ∈ c2 → ¬ reaches g x y.

(** ** Vocabulary for the filters *)

(** [f] with further exclusion patterns and suffixes. *)
Definition with_excludes (f : Filters) (targets libs : list Pattern)
    (suffixes : gset string) : Filters :=
  mkFilters (include_targets f) (targets ++ exclude_targets f)
            (include_libs f) (libs ++ exclude_libs f)
            (include_suffixes f) (suffixes ∪ exclude_suffixes f).

(** ** What the parser reads from the objects *)

Section parser_spec.
Variable objects : list (string * Pbx.object).

(** [t] is the native target of identifier [t_id]. *)
Definition is_native_target (t_id : string) (t : Pbx.object) : Prop :=
  (t_id, t) ∈ objects ∧ Pbx.isa t = Some "PBXNativeTarget".

(** The name under which a target is registered: its ["name"], or its
    identifier when it has none. *)
Definition target_label (t_id : string) (t : Pbx.object) : string :=
  default t_id (Pbx.name t).

(** The path that the parser reads from a file reference. *)
Definition file_path (fr : Pbx.object) : string :=
  or_str (Pbx.path fr) (or_str (Pbx.name fr) "").

(** The target registered as [a] lists the file reference [fr] in one of
    its frameworks build phases. *)
Definition links_file (a : string) (fr : Pbx.object) : Prop :=
  ∃ t_id t fp_id fp bf_id bf fr_id,
    is_native_target t_id t ∧ a = target_label t_id t
    ∧ fp_id ∈ default [] (Pbx.buildPhases t)
    ∧ (fp_id, fp) ∈ objects ∧ Pbx.isa fp = Some "PBXFrameworksBuildPhase"
    ∧ bf_id ∈ default [] (Pbx.files fp)
    ∧ (bf_id, bf) ∈ objects ∧ Pbx.isa bf = Some "PBXBuildFile"
    ∧ Pbx.fileRef bf = Some fr_id ∧ fr_id ≠ ""
    ∧ (fr_id, fr) ∈ objects ∧ Pbx.isa fr = Some "PBXFileReference".

(** [a] links a library file whose name is [b]. *)
Definition file_edge (a b : string) : Prop :=
  ∃ fr, links_file a fr ∧ is_library_like (file_path fr) = true
        ∧ b = basename_without_ext (file_path fr).

(** [a] uses the package product named [b]. *)
Definition package_edge (a b : string) : Prop :=
  ∃ t_id t p_id prod,
    is_native_target t_id t ∧ a = target_label t_id t
    ∧ p_id ∈ default [] (Pbx.packageProductDependencies t)
    ∧ (p_id, prod) ∈ objects
    ∧ Pbx.isa prod = Some "XCSwiftPackageProductDependency"
    ∧ b = or_str (Pbx.productName prod) ("SPMProduct:" +:+ p_id).

(** [a] depends on the target of identifier [dst_id], registered as [b]
    when it is a native target and standing under its identifier
    otherwise. *)
Definition dependency_edge (a b : string) : Prop :=
  ∃ t_id t dep_id dep dst_id,
    is_native_target t_id t ∧ a = target_label t_id t
    ∧ dep_id ∈ default [] (Pbx.dependencies t)
    ∧ (dep_id, dep) ∈ objects ∧ Pbx.isa dep = Some "PBXTargetDependency"
    ∧ Pbx.target dep = Some dst_id ∧ dst_id ≠ ""
    ∧ ((∃ d, is_native_target dst_id d ∧ b = target_label dst_id d)
       ∨ ((∀ d, ¬ is_native_target dst_id d) ∧ b = dst_id)).

(** The tables of the parser hold what their names say. *)
Record tables_of (by_id : gmap string Pbx.object) (tb : tables) : Prop := mkTablesOf {
  t_file_refs : ∀ k o,
    file_refs tb !! k = Some o
    ↔ (k, o) ∈ objects ∧ Pbx.isa o = Some "PBXFileReference";
  t_build_files : ∀ k r,
    build_files_to_filerefs tb !! k = Some r
    ↔ ∃ o, (k, o) ∈ objects ∧ Pbx.isa o = Some "PBXBuildFile" ∧ Pbx.fileRef o = Some r;
  t_phases : ∀ k fs,
    frameworks_phase_to_files tb !! k = Some fs
    ↔ ∃ o, (k, o) ∈ objects ∧ Pbx.isa o = Some "PBXFrameworksBuildPhase"
           ∧ fs = default [] (Pbx.files o);
  t_target_phases : ∀ k fps,
    od_map (target_to_frameworks_phases tb) !! k = Some fps
    ↔ ∃ o, is_native_target k o
           ∧ fps = filter (λ ph_id, Pbx.isa (objects_get by_id ph_id)
                                    = Some "PBXFrameworksBuildPhase")
                          (default [] (Pbx.buildPhases o));
  t_target_phases_wf : od_wf (target_to_frameworks_phases tb);
  t_names : ∀ k n,
    od_map (target_names tb) !! k = Some n
    ↔ ∃ o, is_native_target k o ∧ n = target_label k o;
  t_names_wf : od_wf (target_names tb);
  t_deps : ∀ d,
    d ∈ target_dependencies tb
    ↔ ∃ k o, is_native_target k o
             ∧ d ∈ dependency_pairs by_id k (default [] (Pbx.dependencies o));
  t_products : ∀ k pn pk,
    spm_products tb !! k = Some (pn, pk)
    ↔ ∃ o, (k, o) ∈ objects ∧ Pbx.isa o = Some "XCSwiftPackageProductDependency"
           ∧ pn = Pbx.productName o ∧ pk = Pbx.package o;
  t_packages : ∀ k u,
    spm_packages tb !! k = Some u
    ↔ ∃ o, (k, o) ∈ objects ∧ Pbx.isa o = Some "XCRemoteSwiftPackageReference"
           ∧ u = Pbx.repositoryURL o;
}.

(** The subtitle of a package product: the repository URL of its package,
    or ["Swift Package"] when there is none. *)
Definition package_subtitle (prod : Pbx.object) : string :=
  let repo :=
    match Pbx.package prod with
    | Some pkg_id =>
        match (list_to_map objects : gmap string Pbx.object) !! pkg_id with
        | Some pkg =>
            if bool_decide (Pbx.isa pkg = Some "XCRemoteSwiftPackageReference")
            then Pbx.repositoryURL pkg else None
        | None => None
        end
    | None => None
    end in
  if opt_truthy repo then default "" repo else "Swift Package".
End parser_spec.
Section iteration.
Context `{SetOrder}.

Lemma elem_of_iter_names (X : gset string) x : x ∈ iter_names X ↔ x ∈ X.
Proof. rewrite iter_names_perm. apply elem_of_elements. Qed.

Lemma elem_of_iter_succ v (X : gset string) x : x ∈ iter_succ v X ↔ x ∈ X.
Proof. rewrite iter_succ_perm. apply elem_of_elements. Qed.

Lemma elem_of_iter_pairs (X : gset (string * string)) x : x ∈ iter_pairs X ↔ x ∈ X.
Proof. rewrite iter_pairs_perm. apply elem_of_elements. Qed.

Lemma NoDup_iter_names (X : gset string) : NoDup (iter_names X).
Proof. rewrite iter_names_perm. apply NoDup_elements. Qed.

Lemma NoDup_iter_succ v (X : gset string) : NoDup (iter_succ v X).
Proof. rewrite iter_succ_perm. apply NoDup_elements. Qed.

Lemma NoDup_iter_pairs (X : gset (string * string)) : NoDup (iter_pairs X).
Proof. rewrite iter_pairs_perm. apply NoDup_elements. Qed.
End iteration.


(** ** Registration *)

Lemma meta_register_idem sys ext m :
  meta_register sys ext (meta_register sys ext m) = meta_register sys ext m.
Proof.
  destruct m as [e [[]|]], ext as [x|], sys; reflexivity.
Qed.

Lemma meta_register_is_system sys ext m :
  meta_is_system (meta_register sys ext m)
  = Some (default false (meta_is_system m) || sys).
Proof. destruct m as [e [b|]], ext as [x|]; reflexivity. Qed.

Lemma meta_register_ext sys ext m :
  meta_ext (meta_register sys ext m)
  = match ext with Some e => Some e | None => meta_ext m end.
Proof. destruct m as [e [b|]], ext as [x|]; reflexivity. Qed.

Lemma add_target_idem name g :
  add_target name (add_target name g) = add_target name g.
Proof. unfold add_target; simpl. f_equal. set_solver. Qed.

Lemma add_edge_idem src dst g :
  add_edge src dst (add_edge src dst g) = add_edge src dst g.
Proof.
  unfold add_edge. destruct (str_truthy src && str_truthy dst) eqn:E; simpl.
  - f_equal. set_solver.
  - reflexivity.
Qed.

Lemma add_lib_idem name sub sys ext g :
  add_lib name sub sys ext (add_lib name sub sys ext g) = add_lib name sub sys ext g.
Proof.
  unfold add_lib; simpl. f_equal.
  - set_solver.
  - destruct sub as [s|]; [|reflexivity].
    destruct (str_truthy s); [|reflexivity].
    apply insert_insert_eq.
  - rewrite lookup_insert_eq. simpl.
    rewrite insert_insert_eq, meta_register_idem. reflexivity.
Qed.

Lemma add_lib_is_system name sub sys ext g :
  lib_is_system (add_lib name sub sys ext g) name = lib_is_system g name || sys.
Proof.
  unfold lib_is_system, add_lib; simpl. rewrite lookup_insert_eq.
  rewrite meta_register_is_system. simpl.
  destruct (lib_meta g !! name); reflexivity.
Qed.

Lemma add_lib_ext name sub sys ext g :
  lib_ext (add_lib name sub sys ext g) name
  = match ext with Some e => Some e | None => lib_ext g name end.
Proof.
  unfold lib_ext, add_lib; simpl. rewrite lookup_insert_eq.
  rewrite meta_register_ext. destruct ext; [reflexivity|].
  destruct (lib_meta g !! name); reflexivity.
Qed.

(** ** Allow predicates *)

Lemma name_allowed_unfold inc exc n :
  name_allowed inc exc n
  = negb (list_truthy exc && match_any exc n)
    && negb (list_truthy inc && negb (match_any inc n)).
Proof.
  unfold name_allowed.
  destruct exc as [|p ps]; [change (match_any [] n) with false|];
    cbn [list_truthy andb negb].
  - destruct inc as [|q qs]; [reflexivity|]. cbn [list_truthy andb].
    destruct (match_any (q :: qs) n); reflexivity.
  - destruct (match_any (p :: ps) n); [reflexivity|]. cbn [negb andb].
    destruct inc as [|q qs]; [reflexivity|]. cbn [list_truthy andb].
    destruct (match_any (q :: qs) n); reflexivity.
Qed.

Lemma target_allowed_spec f t :
  target_allowed f t = name_allowed (include_targets f) (exclude_targets f) t.
Proof.
  rewrite name_allowed_unfold. unfold target_allowed.
  destruct (list_truthy (exclude_targets f) && match_any (exclude_targets f) t);
    [reflexivity|].
  destruct (list_truthy (include_targets f)); [|reflexivity].
  destruct (match_any (include_targets f) t); reflexivity.
Qed.

Lemma lower_truthy e : (if str_truthy e then e else "") = e.
Proof. destruct e; reflexivity. Qed.

Lemma lib_allowed_spec f ann l lm :
  (lib_allowed f ann l lm).1
  = name_allowed (include_libs f) (exclude_libs f) l && suffix_allowed f (ext_key ann lm l).
Proof.
  rewrite name_allowed_unfold. unfold lib_allowed, ext_key.
  destruct (list_truthy (exclude_libs f) && match_any (exclude_libs f) l);
    [reflexivity|].
  destruct (list_truthy (include_libs f) && negb (match_any (include_libs f) l));
    [reflexivity|].
  cbn [negb andb].
  destruct (meta_ext (default empty_meta (lm !! l))) as [e|].
  - rewrite !lower_truthy.
    destruct (has_url_subtitle ann l); [reflexivity|].
    case_bool_decide as Hspm; [|reflexivity].
    injection Hspm as ->. reflexivity.
  - destruct (has_url_subtitle ann l); reflexivity.
Qed.

(** The state that [lib_allowed] leaves behind. *)
Lemma lib_allowed_state f ann l lm :
  (lib_allowed f ann l lm).2
  = if name_allowed (include_libs f) (exclude_libs f) l
       && has_url_subtitle ann l
       && bool_decide (meta_ext (default empty_meta (lm !! l)) = None)
    then <[l := mkMeta (Some "spm") (meta_is_system (default empty_meta (lm !! l)))]> lm
    else lm.
Proof.
  rewrite name_allowed_unfold. unfold lib_allowed.
  destruct (list_truthy (exclude_libs f) && match_any (exclude_libs f) l);
    [reflexivity|].
  destruct (list_truthy (include_libs f) && negb (match_any (include_libs f) l));
    [reflexivity|].
  cbn [negb andb].
  destruct (meta_ext (default empty_meta (lm !! l))) as [e|].
  - destruct (has_url_subtitle ann l); [reflexivity|].
    case_bool_decide; reflexivity.
  - destruct (has_url_subtitle ann l); reflexivity.
Qed.

Lemma suffix_allowed_spec f key :
  suffix_allowed f key = true
  ↔ (inc_suf f = ∅ ∨ key ∈ inc_suf f) ∧ key ∉ exc_suf f.
Proof.
  unfold suffix_allowed, set_truthy.
  repeat case_bool_decide; cbn [negb andb]; split; try congruence;
    try (intros _; split; [tauto|set_solver]); tauto.
Qed.

(** *** Repeated evaluation of [lib_allowed] *)

Lemma inferred_unfold f ann lm0 k :
  inferred f ann lm0 k
  = if name_allowed (include_libs f) (exclude_libs f) k
       && has_url_subtitle ann k
       && bool_decide (meta_ext (default empty_meta (lm0 !! k)) = None)
    then Some (mkMeta (Some "spm") (meta_is_system (default empty_meta (lm0 !! k))))
    else lm0 !! k.
Proof.
  unfold inferred. rewrite lib_allowed_state.
  destruct (_ && _ && _); [apply lookup_insert_eq|reflexivity].
Qed.

Lemma meta_inferred_refl f ann lm : meta_inferred f ann lm lm.
Proof. intros k. by left. Qed.

Lemma meta_inferred_cases f ann lm0 lm l :
  meta_inferred f ann lm0 lm →
  lm !! l = lm0 !! l
  ∨ (name_allowed (include_libs f) (exclude_libs f) l = true
     ∧ has_url_subtitle ann l = true
     ∧ meta_ext (default empty_meta (lm0 !! l)) = None
     ∧ lm !! l = Some (mkMeta (Some "spm")
                              (meta_is_system (default empty_meta (lm0 !! l))))).
Proof.
  intros Hinf. destruct (Hinf l) as [Heq|Heq]; [by left|].
  rewrite inferred_unfold in Heq.
  destruct (name_allowed _ _ l) eqn:Hn; [|by left].
  destruct (has_url_subtitle ann l) eqn:Hu; [|by left].
  cbn [andb] in Heq. case_bool_decide as He; [|by left].
  right. done.
Qed.

Lemma lib_allowed_inferred f ann l lm0 lm :
  meta_inferred f ann lm0 lm →
  (lib_allowed f ann l lm).1 = (lib_allowed f ann l lm0).1
  ∧ meta_inferred f ann lm0 (lib_allowed f ann l lm).2
  ∧ (lib_allowed f ann l lm).2 !! l = inferred f ann lm0 l
  ∧ (∀ k, k ≠ l → (lib_allowed f ann l lm).2 !! k = lm !! k).
Proof.
  intros Hinf.
  assert (Hother : ∀ k, k ≠ l → (lib_allowed f ann l lm).2 !! k = lm !! k).
  { intros k Hk. rewrite lib_allowed_state.
    destruct (_ && _ && _); [by rewrite lookup_insert_ne|done]. }
  assert (Hself : (lib_allowed f ann l lm).2 !! l = inferred f ann lm0 l).
  { rewrite inferred_unfold, lib_allowed_state.
    destruct (meta_inferred_cases _ _ _ _ l Hinf) as [Heq|(Hn & Hu & He & Heq)].
    - rewrite Heq.
      destruct (_ && _ && _); [by rewrite lookup_insert_eq|done].
    - rewrite Hn, Hu, He, Heq. cbn [default meta_ext andb].
      repeat case_bool_decide; done. }
  split; [|split; [|done]].
  - rewrite !lib_allowed_spec. f_equal. f_equal. unfold ext_key.
    destruct (meta_inferred_cases _ _ _ _ l Hinf) as [Heq|(Hn & Hu & He & Heq)].
    + by rewrite Heq.
    + rewrite Heq, He, Hu. reflexivity.
  - intros k. destruct (decide (k = l)) as [->|Hk].
    + right. done.
    + rewrite Hother by done. apply Hinf.
Qed.

(** ** The filter stage *)

Section filter_proofs.
Context `{SetOrder}.

Lemma prune_edge_spec f g e acc lm :
  meta_inferred f (annotations g) (lib_meta g) lm →
  (∀ e', e' ∈ acc → e'.2 ∈ lib_nodes g →
         lm !! e'.2 = inferred f (annotations g) (lib_meta g) e'.2) →
  (∀ e', e' ∈ (prune_edge f g e (acc, lm)).1 ↔ e' ∈ acc ∨ (e' = e ∧ edge_passes f g e))
  ∧ meta_inferred f (annotations g) (lib_meta g) (prune_edge f g e (acc, lm)).2
  ∧ (∀ e', e' ∈ (prune_edge f g e (acc, lm)).1 → e'.2 ∈ lib_nodes g →
           (prune_edge f g e (acc, lm)).2 !! e'.2
           = inferred f (annotations g) (lib_meta g) e'.2).
Proof.
  intros Hinf Hacc. destruct e as [a b]. unfold prune_edge, edge_passes. cbn [fst snd].
  destruct (bool_decide (a ∈ target_nodes g) && negb (target_allowed f a)) eqn:Ha.
  { apply andb_true_iff in Ha as [Ha1%bool_decide_eq_true Ha2%negb_true_iff].
    cbn [fst snd]. split; [|done].
    intros e'. split; [by left|]. intros [?|[_ [Hp _]]]; [done|].
    rewrite Hp in Ha2; done. }
  destruct (bool_decide (b ∈ target_nodes g) && negb (target_allowed f b)) eqn:Hb.
  { apply andb_true_iff in Hb as [Hb1%bool_decide_eq_true Hb2%negb_true_iff].
    cbn [fst snd]. split; [|done].
    intros e'. split; [by left|]. intros [?|[_ (_ & Hp & _)]]; [done|].
    rewrite Hp in Hb2; done. }
  assert (Hta : a ∈ target_nodes g → target_allowed f a = true).
  { intros Hin. apply andb_false_iff in Ha as [Ha|Ha].
    - apply bool_decide_eq_false in Ha. done.
    - by apply negb_false_iff in Ha. }
  assert (Htb : b ∈ target_nodes g → target_allowed f b = true).
  { intros Hin. apply andb_false_iff in Hb as [Hb|Hb].
    - apply bool_decide_eq_false in Hb. done.
    - by apply negb_false_iff in Hb. }
  destruct (decide (b ∈ lib_nodes g)) as [Hlib|Hlib];
    [rewrite (bool_decide_eq_true_2 _ Hlib)|rewrite (bool_decide_eq_false_2 _ Hlib)].
  - destruct (lib_allowed_inferred f (annotations g) b _ _ Hinf)
      as (Hv & Hinf' & Hself & Hother).
    destruct (lib_allowed f (annotations g) b lm) as [ok lm'] eqn:Hla.
    cbn [fst snd] in *.
    assert (Hacc' : ∀ e', e' ∈ acc → e'.2 ∈ lib_nodes g →
              lm' !! e'.2 = inferred f (annotations g) (lib_meta g) e'.2).
    { intros e' He' Hl'. destruct (decide (e'.2 = b)) as [->|Hne]; [done|].
      rewrite Hother by done. by apply Hacc. }
    destruct ok; cbn [fst snd].
    + split; [|split; [done|]].
      * intros e'. rewrite elem_of_union, elem_of_singleton. unfold lib_ok.
        split; [intros [->|?]; [right|by left]|intros [?|[-> _]]; [by right|by left]].
        split; [done|]. split; [done|]. split; [done|]. intros _. by rewrite <- Hv.
      * intros e'. rewrite elem_of_union, elem_of_singleton.
        intros [->|He'] Hl'; [done|by apply Hacc'].
    + split; [|split; [done|done]].
      intros e'. split; [by left|]. intros [?|[_ (_ & _ & Hp)]]; [done|].
      unfold lib_ok in Hp. rewrite <- Hv in Hp. specialize (Hp Hlib). done.
  - cbn [fst snd]. split; [|split; [done|]].
    + intros e'. rewrite elem_of_union, elem_of_singleton.
      split; [intros [->|?]; [right|by left]|intros [?|[-> _]]; [by right|by left]].
      split; [done|]. split; [done|]. split; [done|]. done.
    + intros e'. rewrite elem_of_union, elem_of_singleton.
      intros [->|He'] Hl'; [done|by apply Hacc].
Qed.

Lemma prune_fold_spec f g l : ∀ acc lm,
  meta_inferred f (annotations g) (lib_meta g) lm →
  (∀ e', e' ∈ acc → e'.2 ∈ lib_nodes g →
         lm !! e'.2 = inferred f (annotations g) (lib_meta g) e'.2) →
  let r := fold_left (λ acc e, prune_edge f g e acc) l (acc, lm) in
  (∀ e', e' ∈ r.1 ↔ e' ∈ acc ∨ (e' ∈ l ∧ edge_passes f g e'))
  ∧ meta_inferred f (annotations g) (lib_meta g) r.2
  ∧ (∀ e', e' ∈ r.1 → e'.2 ∈ lib_nodes g →
           r.2 !! e'.2 = inferred f (annotations g) (lib_meta g) e'.2).
Proof.
  induction l as [|e l IH]; intros acc lm Hinf Hacc; cbn [fold_left].
  - split; [|done]. intros e'. split; [by left|]. intros [?|[Hin _]]; [done|].
    by apply elem_of_nil in Hin.
  - destruct (prune_edge_spec f g e acc lm Hinf Hacc) as (H1 & H2 & H3).
    destruct (prune_edge f g e (acc, lm)) as [acc1 lm1]. cbn [fst snd] in *.
    destruct (IH acc1 lm1 H2 H3) as (I1 & I2 & I3).
    split; [|done]. intros e'. rewrite I1, H1, elem_of_cons.
    split.
    + intros [[?|[-> ?]]|[? ?]]; auto.
    + intros [?|[[->|?] ?]]; auto.
Qed.

Lemma keep_endpoints_fold g l : ∀ kt kl,
  let r := fold_left (keep_endpoints g) l (kt, kl) in
  (∀ x, x ∈ r.1 ↔ x ∈ kt ∨ (x ∈ target_nodes g ∧ ∃ e, e ∈ l ∧ (x = e.1 ∨ x = e.2)))
  ∧ (∀ x, x ∈ r.2 ↔ x ∈ kl ∨ (x ∈ lib_nodes g ∧ ∃ a, (a, x) ∈ l)).
Proof.
  induction l as [|[a b] l IH]; intros kt kl; cbn [fold_left].
  - split; intros x; (split; [by left|]); intros [?|[_ [? Hin]]]; try done.
    + destruct Hin as [Hin _]. by apply elem_of_nil in Hin.
    + by apply elem_of_nil in Hin.
  - unfold keep_endpoints at 2 3.
    match goal with |- context [fold_left _ l (?t, ?k)] =>
      destruct (IH t k) as [I1 I2] end.
    split; intros x.
    + rewrite I1. clear I1 I2.
      split.
      * intros [Hx|[Hx (e & He & Hxe)]].
        -- repeat case_bool_decide; set_solver.
        -- right. split; [done|]. exists e. split; [by right|done].
      * intros [Hx|[Hx (e & He & Hxe)]].
        -- left. repeat case_bool_decide; set_solver.
        -- apply elem_of_cons in He as [->|He].
           ++ left. cbn [fst snd] in Hxe.
              destruct Hxe as [-> | ->]; repeat case_bool_decide; set_solver.
           ++ right. split; [done|]. by exists e.
    + rewrite I2. clear I1 I2.
      split.
      * intros [Hx|[Hx (a' & He)]].
        -- case_bool_decide; [|by left].
           apply elem_of_union in Hx as [->%elem_of_singleton|?]; [|by left].
           right. split; [done|]. exists a. by left.
        -- right. split; [done|]. exists a'. by right.
      * intros [Hx|[Hx (a' & He)]].
        -- left. case_bool_decide; set_solver.
        -- apply elem_of_cons in He as [Heq|He].
           ++ simplify_eq. left.
              rewrite bool_decide_eq_true_2 by done. set_solver.
           ++ right. split; [done|]. by exists a'.
Qed.

Lemma keep_isolated_fold f l : ∀ kt,
  ∀ x, x ∈ fold_left (keep_isolated f) l kt
       ↔ x ∈ kt ∨ (x ∈ l ∧ target_allowed f x = true).
Proof.
  induction l as [|t l IH]; intros kt x; cbn [fold_left].
  - split; [by left|]. intros [?|[Hin _]]; [done|]. by apply elem_of_nil in Hin.
  - rewrite IH. unfold keep_isolated. rewrite elem_of_cons.
    destruct (target_allowed f t) eqn:Ht; cbn [andb].
    + case_bool_decide as Hin; cbn [negb].
      * split; [intros [?|[? ?]]; auto|].
        intros [?|[[->|?] ?]]; auto.
      * rewrite elem_of_union, elem_of_singleton.
        split; [intros [[->|?]|[? ?]]; auto|].
        intros [?|[[->|?] ?]]; auto.
    + split; [intros [?|[? ?]]; auto|].
      intros [?|[[->|?] ?]]; auto. congruence.
Qed.

Lemma apply_filters_unfold f keep g :
  let r := fold_left (λ acc e, prune_edge f g e acc) (iter_pairs (edges g)) (∅, lib_meta g) in
  let k := fold_left (keep_endpoints g) (iter_pairs r.1) (∅, ∅) in
  apply_filters f keep g
  = mkGraph (if keep then fold_left (keep_isolated f) (iter_names (target_nodes g)) k.1
             else k.1)
            k.2 r.1
            (filter (λ kv, kv.1 ∈ k.2) (annotations g))
            (filter (λ kv, kv.1 ∈ k.2) r.2)
            (cycle_nodes g) (cycle_edges g) (cycle_components g).
Proof.
  unfold apply_filters.
  destruct (fold_left (λ acc e, prune_edge f g e acc) _ _) as [ne lm]. cbn [fst snd].
  destruct (fold_left (keep_endpoints g) _ _) as [kt kl]. reflexivity.
Qed.

Lemma apply_filters_edges f keep g e :
  e ∈ edges (apply_filters f keep g) ↔ e ∈ edges g ∧ edge_passes f g e.
Proof.
  rewrite apply_filters_unfold. cbn [edges].
  destruct (prune_fold_spec f g (iter_pairs (edges g)) ∅ (lib_meta g)) as (H1 & _).
  { apply meta_inferred_refl. }
  { intros e' He'. by apply not_elem_of_empty in He'. }
  rewrite H1, elem_of_iter_pairs. split; [intros [?|?]; [set_solver|done]|by right].
Qed.

Lemma apply_filters_lib_nodes f keep g x :
  x ∈ lib_nodes (apply_filters f keep g)
  ↔ x ∈ lib_nodes g ∧ ∃ a, (a, x) ∈ edges (apply_filters f keep g).
Proof.
  rewrite apply_filters_unfold. cbn [lib_nodes edges].
  match goal with |- context [fold_left (keep_endpoints g) ?l (?t, ?k)] =>
    destruct (keep_endpoints_fold g l t k) as [_ I2] end.
  rewrite I2. setoid_rewrite elem_of_iter_pairs.
  split; [intros [?|?]; [set_solver|done]|by right].
Qed.

Lemma apply_filters_target_nodes f keep g x :
  x ∈ target_nodes (apply_filters f keep g)
  ↔ x ∈ target_nodes g
    ∧ ((∃ e, e ∈ edges (apply_filters f keep g) ∧ (x = e.1 ∨ x = e.2))
       ∨ (keep = true ∧ target_allowed f x = true)).
Proof.
  rewrite apply_filters_unfold. cbn [target_nodes edges].
  match goal with |- context [fold_left (keep_endpoints g) ?l (?t, ?k)] =>
    destruct (keep_endpoints_fold g l t k) as [I1 _] end.
  destruct keep.
  - rewrite keep_isolated_fold, I1, elem_of_iter_names.
    setoid_rewrite elem_of_iter_pairs.
    split.
    + intros [[?|[? ?]]|[? ?]]; [set_solver|split; auto|split; auto].
    + intros [? [?|[_ ?]]]; [left; right; done|right; done].
  - rewrite I1. setoid_rewrite elem_of_iter_pairs.
    split.
    + intros [?|[? ?]]; [set_solver|split; auto].
    + intros [? [?|[? _]]]; [right; done|done].
Qed.

Lemma apply_filters_lib_meta f keep g l :
  lib_meta (apply_filters f keep g) !! l
  = if bool_decide (l ∈ lib_nodes (apply_filters f keep g))
    then inferred f (annotations g) (lib_meta g) l else None.
Proof.
  case_bool_decide as Hl.
  - apply apply_filters_lib_nodes in Hl as Hl'. destruct Hl' as [Hl0 [a Ha]].
    revert Hl Ha. rewrite apply_filters_unfold. cbn [lib_nodes edges lib_meta].
    intros Hl Ha.
    destruct (prune_fold_spec f g (iter_pairs (edges g)) ∅ (lib_meta g)) as (_ & _ & H3).
    { apply meta_inferred_refl. }
    { intros e' He'. by apply not_elem_of_empty in He'. }
    specialize (H3 (a, l) Ha Hl0). cbn [snd] in H3.
    rewrite <- H3.
    match goal with |- filter ?P ?m !! l = _ =>
      destruct (m !! l) as [x|] eqn:Hm end.
    + apply map_lookup_filter_Some. done.
    + apply map_lookup_filter_None. left. done.
  - revert Hl. rewrite apply_filters_unfold. cbn [lib_nodes lib_meta]. intros Hl.
    apply map_lookup_filter_None. right. intros x _. done.
Qed.

Lemma apply_filters_annotations f keep g l :
  annotations (apply_filters f keep g) !! l
  = if bool_decide (l ∈ lib_nodes (apply_filters f keep g))
    then annotations g !! l else None.
Proof.
  rewrite apply_filters_unfold. cbn [lib_nodes annotations].
  case_bool_decide as Hl.
  - destruct (annotations g !! l) as [x|] eqn:Hm.
    + apply map_lookup_filter_Some. done.
    + apply map_lookup_filter_None. left. done.
  - apply map_lookup_filter_None. right. intros x _. done.
Qed.
End filter_proofs.

(** ** Properties of the allow predicates and of the filter stage *)

Lemma contains_nonempty needle s :
  str_truthy needle = true → contains needle s = true → str_truthy s = true.
Proof. destruct needle, s; done. Qed.

Lemma has_url_subtitle_intro (ann : gmap string string) l sub :
  ann !! l = Some sub → contains "http" (lower sub) = true →
  has_url_subtitle ann l = true.
Proof.
  intros Hl Hc. unfold has_url_subtitle. rewrite Hl, Hc.
  apply (contains_nonempty "http") in Hc; [|done].
  destruct sub; done.
Qed.

(** Counterexample to C4 as stated: with an include-suffix filter [".a"]
    and no name pattern at all, the library [Foo] whose ["ext"] is
    [".framework"] matches no exclude pattern and the include list is
    empty, yet [lib_allowed] refuses it. *)
Lemma lib_allowed_refuses_on_suffix :
  let f := mkFilters [] [] [] [] {[".a"]} ∅ in
  let lm : gmap string Meta := {["Foo" := mkMeta (Some ".framework") (Some false)]} in
  match_any (exclude_libs f) "Foo" = false
  ∧ include_libs f = []
  ∧ (lib_allowed f ∅ "Foo" lm).1 = false.
Proof. vm_compute. done. Qed.

(** C4 (amended).  [target_allowed] is exclusion before inclusion with
    exclusion winning: a name that matches an exclude pattern is refused
    whatever the include patterns, and any other name is allowed iff the
    include list is empty or one include pattern matches.  [lib_allowed]
    applies the same test to the library patterns and, in addition, the
    suffix test on the library's ext key: the key must belong to the
    include suffixes when there are any, and must not belong to the
    exclude suffixes. *)
Theorem allow_predicates_exclude_then_include :
  ∀ (f : Filters),
    (∀ t, match_any (exclude_targets f) t = true → target_allowed f t = false)
    ∧ (∀ t, match_any (exclude_targets f) t = false →
         (target_allowed f t = true
          ↔ include_targets f = [] ∨ match_any (include_targets f) t = true))
    ∧ (∀ ann lm l, match_any (exclude_libs f) l = true →
         (lib_allowed f ann l lm).1 = false)
    ∧ (∀ ann lm l, match_any (exclude_libs f) l = false →
         ((lib_allowed f ann l lm).1 = true
          ↔ (include_libs f = [] ∨ match_any (include_libs f) l = true)
            ∧ (inc_suf f = ∅ ∨ ext_key ann lm l ∈ inc_suf f)
            ∧ ext_key ann lm l ∉ exc_suf f)).
Proof.
  intros f. split; [|split; [|split]].
  - intros t Ht. rewrite target_allowed_spec. unfold name_allowed. by rewrite Ht.
  - intros t Ht. rewrite target_allowed_spec. unfold name_allowed. rewrite Ht.
    destruct (include_targets f); [by split; [left|]|].
    split; [by right|]. by intros [?|?].
  - intros ann lm l Hl. rewrite lib_allowed_spec. unfold name_allowed. by rewrite Hl.
  - intros ann lm l Hl. rewrite lib_allowed_spec, andb_true_iff, suffix_allowed_spec.
    unfold name_allowed. rewrite Hl.
    destruct (include_libs f).
    + split; [intros [_ ?]; split; [by left|done]|intros [_ ?]; done].
    + split; [intros [? ?]; split; [by right|done]|].
      intros [[?|?] ?]; done.
Qed.

(** C7.  When [lib_allowed] reaches its suffix tests for a library (the
    name passes the library patterns) whose stored subtitle contains
    ["http"] and whose ["ext"] is unset, the suffix tests are run on the
    key ["spm"], ["ext"] is set to ["spm"] in the library's metadata (its
    [is_system] entry and every other library are left as they were), and
    evaluating [lib_allowed] again on the resulting metadata gives the same
    verdict and changes nothing more.  After [apply_filters] a surviving
    library of this kind carries ["ext"] = ["spm"]. *)
Theorem url_subtitle_infers_spm :
  ∀ (f : Filters) (ann : gmap string string) (lm : gmap string Meta) (l sub : string),
    ann !! l = Some sub →
    contains "http" (lower sub) = true →
    meta_ext (default empty_meta (lm !! l)) = None →
    name_allowed (include_libs f) (exclude_libs f) l = true →
    (lib_allowed f ann l lm).1 = suffix_allowed f "spm"
    ∧ (lib_allowed f ann l lm).2 !! l
      = Some (mkMeta (Some "spm") (meta_is_system (default empty_meta (lm !! l))))
    ∧ (∀ k, k ≠ l → (lib_allowed f ann l lm).2 !! k = lm !! k)
    ∧ lib_allowed f ann l (lib_allowed f ann l lm).2 = lib_allowed f ann l lm
    ∧ (∀ (O : SetOrder) keep g,
         annotations g = ann → lib_meta g = lm →
         l ∈ lib_nodes (apply_filters f keep g) →
         lib_ext (apply_filters f keep g) l = Some "spm").
Proof.
  intros f ann lm l sub Hsub Hhttp Hext Hname.
  pose proof (has_url_subtitle_intro ann l sub Hsub Hhttp) as Hurl.
  assert (Hst : (lib_allowed f ann l lm).2
                = <[l := mkMeta (Some "spm")
                                (meta_is_system (default empty_meta (lm !! l)))]> lm).
  { rewrite lib_allowed_state, Hname, Hurl, Hext. reflexivity. }
  assert (Hv : (lib_allowed f ann l lm).1 = suffix_allowed f "spm").
  { rewrite lib_allowed_spec, Hname. unfold ext_key. by rewrite Hext, Hurl. }
  split; [done|]. split; [by rewrite Hst, lookup_insert_eq|].
  split; [by intros k Hk; rewrite Hst, lookup_insert_ne|].
  split.
  - apply injective_projections.
    + rewrite lib_allowed_spec, Hname, Hv. unfold ext_key.
      by rewrite Hst, lookup_insert_eq.
    + rewrite lib_allowed_state, Hname, Hurl, Hst, lookup_insert_eq. reflexivity.
  - intros O keep g <- <- Hl. unfold lib_ext.
    rewrite apply_filters_lib_meta, bool_decide_eq_true_2 by done.
    rewrite inferred_unfold, Hname, Hurl, Hext. reflexivity.
Qed.

Lemma url_subtitle_infers_spm_witness :
  let f := mkFilters [] [] [] [] ∅ {["spm"]} in
  let ann : gmap string string := {["Alamofire" := "https://github.com/Alamofire/Alamofire.git"]} in
  let lm : gmap string Meta := {["Alamofire" := mkMeta None (Some false)]} in
  (lib_allowed f ann "Alamofire" lm).1 = suffix_allowed f "spm"
  ∧ suffix_allowed f "spm" = false
  ∧ (lib_allowed f ann "Alamofire" lm).2 !! "Alamofire"
    = Some (mkMeta (Some "spm") (Some false)).
Proof.
  intros f ann lm.
  destruct (url_subtitle_infers_spm f ann lm "Alamofire"
              "https://github.com/Alamofire/Alamofire.git")
    as (H1 & H2 & _); [reflexivity|reflexivity|reflexivity|reflexivity|].
  split; [exact H1|]. split; [reflexivity|exact H2].
Defined.

(** Counterexample to C2 as stated: every endpoint of every edge is a
    registered node, but the source of the edge [L → T] is a library.  With
    no filter at all the edge survives while [L] is dropped from both node
    sets, so the surviving edge dangles. *)
Lemma apply_filters_library_source_dangles :
  let g := add_edge "L" "T" (add_lib "L" None false None (add_target "T" new_graph)) in
  let g' := @apply_filters elements_order no_filters true g in
  (∀ a b, (a, b) ∈ edges g →
     (a ∈ target_nodes g ∨ a ∈ lib_nodes g) ∧ (b ∈ target_nodes g ∨ b ∈ lib_nodes g))
  ∧ ("L", "T") ∈ edges g'
  ∧ ("L" ∉ target_nodes g')
  ∧ ("L" ∉ lib_nodes g').
Proof.
  cbv zeta. split; [|split; [|split]].
  - intros a b Hab. cbn in Hab.
    assert (a = "L" ∧ b = "T") as [-> ->] by set_solver.
    split; [right|left]; cbn; set_solver.
  - apply (bool_decide_unpack _). vm_compute. exact I.
  - apply (bool_decide_unpack _). vm_compute. exact I.
  - apply (bool_decide_unpack _). vm_compute. exact I.
Qed.

Section filter_claims.
Context `{SetOrder}.

(** C2 (amended).  For a graph in which every edge goes from a registered
    target to a registered target or library, and for all filters:
    after [apply_filters] the edge set is exactly the set of original edges
    whose target endpoints pass [target_allowed] and whose library
    destination passes [lib_allowed]; the surviving targets are exactly the
    registered targets that are an endpoint of a surviving edge, plus,
    when the option is on, the allowed targets; the surviving libraries
    are exactly the registered libraries that a surviving edge points to;
    and both endpoints of every surviving edge are surviving nodes.  A
    name registered both as a target and as a library is kept in each set
    on that set's own condition. *)
Theorem apply_filters_sound :
  ∀ (f : Filters) (keep : bool) (g : Graph),
    (∀ a b, (a, b) ∈ edges g →
       a ∈ target_nodes g ∧ (b ∈ target_nodes g ∨ b ∈ lib_nodes g)) →
    (∀ a b, (a, b) ∈ edges (apply_filters f keep g)
       ↔ (a, b) ∈ edges g
         ∧ target_allowed f a = true
         ∧ (b ∈ target_nodes g → target_allowed f b = true)
         ∧ (b ∈ lib_nodes g → lib_ok f g b = true))
    ∧ (∀ x, x ∈ target_nodes (apply_filters f keep g)
       ↔ x ∈ target_nodes g
         ∧ ((∃ a b, (a, b) ∈ edges (apply_filters f keep g) ∧ (x = a ∨ x = b))
            ∨ (keep = true ∧ target_allowed f x = true)))
    ∧ (∀ x, x ∈ lib_nodes (apply_filters f keep g)
       ↔ x ∈ lib_nodes g ∧ ∃ a, (a, x) ∈ edges (apply_filters f keep g))
    ∧ (∀ x, (x ∈ target_nodes (apply_filters f keep g)
               ∨ x ∈ lib_nodes (apply_filters f keep g))
       ↔ (∃ a b, (a, b) ∈ edges (apply_filters f keep g) ∧ (x = a ∨ x = b))
         ∨ (keep = true ∧ x ∈ target_nodes g ∧ target_allowed f x = true))
    ∧ (∀ a b, (a, b) ∈ edges (apply_filters f keep g) →
         (a ∈ target_nodes (apply_filters f keep g)
          ∨ a ∈ lib_nodes (apply_filters f keep g))
         ∧ (b ∈ target_nodes (apply_filters f keep g)
            ∨ b ∈ lib_nodes (apply_filters f keep g))).
Proof.
  intros f keep g Hwf.
  assert (Hedge : ∀ a b, (a, b) ∈ edges (apply_filters f keep g)
       ↔ (a, b) ∈ edges g
         ∧ target_allowed f a = true
         ∧ (b ∈ target_nodes g → target_allowed f b = true)
         ∧ (b ∈ lib_nodes g → lib_ok f g b = true)).
  { intros a b. rewrite apply_filters_edges. unfold edge_passes. cbn [fst snd].
    split.
    - intros (Hin & Ha & Hb & Hl). destruct (Hwf a b Hin) as [Hat _]. auto.
    - intros (Hin & Ha & Hb & Hl). auto. }
  assert (Hends : ∀ a b, (a, b) ∈ edges (apply_filters f keep g) →
         a ∈ target_nodes (apply_filters f keep g)
         ∧ (b ∈ target_nodes (apply_filters f keep g)
            ∨ b ∈ lib_nodes (apply_filters f keep g))).
  { intros a b Hab. pose proof Hab as Hab'. apply Hedge in Hab' as (Hin & _).
    destruct (Hwf a b Hin) as [Hat Hbt]. split.
    - apply apply_filters_target_nodes. split; [done|]. left. exists (a, b). auto.
    - destruct Hbt as [Hbt|Hbl].
      + left. apply apply_filters_target_nodes. split; [done|].
        left. exists (a, b). auto.
      + right. apply apply_filters_lib_nodes. split; [done|]. by exists a. }
  assert (Htargets : ∀ x, x ∈ target_nodes (apply_filters f keep g)
       ↔ x ∈ target_nodes g
         ∧ ((∃ a b, (a, b) ∈ edges (apply_filters f keep g) ∧ (x = a ∨ x = b))
            ∨ (keep = true ∧ target_allowed f x = true))).
  { intros x. rewrite apply_filters_target_nodes. split.
    - intros [Hx [([a b] & He & Hxe)|Hk]]; (split; [done|]); [left|by right].
      by exists a, b.
    - intros [Hx [(a & b & He & Hxe)|Hk]]; (split; [done|]); [left|by right].
      by exists (a, b). }
  split; [done|]. split; [done|]. split; [apply apply_filters_lib_nodes|]. split.
  - intros x. split.
    + intros [Hx|Hx].
      * apply Htargets in Hx as [Hxt [?|[-> Hta]]]; [by left|by right].
      * apply apply_filters_lib_nodes in Hx as [Hxl [a Ha]].
        left. exists a, x. auto.
    + intros [(a & b & Hab & [->| ->])|(-> & Hxt & Hta)].
      * left. by apply (Hends a b).
      * by apply (Hends a b).
      * left. apply Htargets. split; [done|]. by right.
  - intros a b Hab. destruct (Hends a b Hab) as [? ?]. split; [by left|done].
Qed.

(** C3.  With [keep_isolated_included_targets] on, every target that
    passes [target_allowed] is still a target after [apply_filters],
    whatever happened to its edges; a library that no surviving edge
    points to is dropped, whatever the option; and in the scenario of the
    library [UnitTestKit] linked by the target [App] and excluded by the
    pattern [.*Test.*] (under [search]: the name contains ["Test"]), the
    library and the edge are gone and [App] remains, isolated. *)
Theorem isolated_targets_kept_libraries_dropped :
  ∀ (f : Filters) (g : Graph),
    (∀ t, t ∈ target_nodes g → target_allowed f t = true →
          t ∈ target_nodes (apply_filters f true g))
    ∧ (∀ keep l, (∀ a, (a, l) ∉ edges (apply_filters f keep g)) →
          l ∉ lib_nodes (apply_filters f keep g))
    ∧ (let g0 := add_edge "App" "UnitTestKit"
                   (add_lib "UnitTestKit" None false (Some ".framework")
                      (add_target "App" new_graph)) in
       let f0 := mkFilters [] [] [] [contains "Test"] ∅ ∅ in
       target_nodes (apply_filters f0 true g0) = {["App"]}
       ∧ lib_nodes (apply_filters f0 true g0) = ∅
       ∧ edges (apply_filters f0 true g0) = ∅).
Proof.
  intros f g. split; [|split].
  - intros t Ht Hta. apply apply_filters_target_nodes. split; [done|]. by right.
  - intros keep l Hno Hl. apply apply_filters_lib_nodes in Hl as [_ [a Ha]].
    by apply (Hno a).
  - cbv zeta.
    set (g0 := add_edge _ _ _). set (f0 := mkFilters _ _ _ _ _ _).
    assert (He : edges (apply_filters f0 true g0) = ∅).
    { apply set_eq. intros [a b]. rewrite apply_filters_edges.
      split; [|by intros ?%not_elem_of_empty].
      intros [Hin (_ & _ & Hl)]. exfalso.
      assert (a = "App" ∧ b = "UnitTestKit") as [-> ->] by (cbn in Hin; set_solver).
      cbn [snd] in Hl. assert (Hb : "UnitTestKit" ∈ lib_nodes g0) by (cbn; set_solver).
      specialize (Hl Hb). vm_compute in Hl. done. }
    split; [|split; [|done]].
    + apply set_eq. intros x. rewrite apply_filters_target_nodes, He.
      split.
      * intros [Hx _]. cbn in Hx. set_solver.
      * intros ->%elem_of_singleton. split; [cbn; set_solver|]. right. done.
    + apply set_eq. intros x. rewrite apply_filters_lib_nodes, He. set_solver.
Qed.
End filter_claims.

Lemma apply_filters_sound_witness :
  let g := add_edge "Foo" "Foo" (add_edge "App" "Core"
             (add_lib "Foo" None false (Some ".framework")
                (add_target "Foo" (add_target "Core" (add_target "App" new_graph))))) in
  let f := mkFilters [] [contains "Core"] [] [] ∅ ∅ in
  (∀ a b, (a, b) ∈ edges g →
     a ∈ target_nodes g ∧ (b ∈ target_nodes g ∨ b ∈ lib_nodes g))
  ∧ (∀ a b, (a, b) ∈ edges (@apply_filters elements_order f true g)
       ↔ (a, b) ∈ edges g
         ∧ target_allowed f a = true
         ∧ (b ∈ target_nodes g → target_allowed f b = true)
         ∧ (b ∈ lib_nodes g → lib_ok f g b = true))
  ∧ (∀ x, x ∈ target_nodes (@apply_filters elements_order f true g)
       ↔ x ∈ target_nodes g
         ∧ ((∃ a b, (a, b) ∈ edges (@apply_filters elements_order f true g)
                    ∧ (x = a ∨ x = b))
            ∨ (true = true ∧ target_allowed f x = true)))
  ∧ (∀ x, x ∈ lib_nodes (@apply_filters elements_order f true g)
       ↔ x ∈ lib_nodes g ∧ ∃ a, (a, x) ∈ edges (@apply_filters elements_order f true g))
  ∧ edges (@apply_filters elements_order f true g) = {[("Foo", "Foo")]}
  ∧ target_nodes (@apply_filters elements_order f true g) = {["App"; "Foo"]}
  ∧ lib_nodes (@apply_filters elements_order f true g) = {["Foo"]}.
Proof.
  intros g f.
  assert (Hwf : ∀ a b, (a, b) ∈ edges g →
     a ∈ target_nodes g ∧ (b ∈ target_nodes g ∨ b ∈ lib_nodes g)).
  { intros a b Hab. cbn in Hab.
    assert ((a = "Foo" ∧ b = "Foo") ∨ (a = "App" ∧ b = "Core")) as [[-> ->]|[-> ->]]
      by set_solver;
      (split; [cbn; set_solver|]); left; cbn; set_solver. }
  destruct (@apply_filters_sound elements_order f true g Hwf) as (He & Ht & Hl & _).
  split; [exact Hwf|]. split; [exact He|]. split; [exact Ht|]. split; [exact Hl|].
  split; [|split]; apply (bool_decide_unpack _); vm_compute; exact I.
Defined.

(** ** The traversal *)

Lemma visited_dom st x : visited st x ↔ x ∈ dom (indices st).
Proof. unfold visited. by rewrite elem_of_dom. Qed.

Lemma num_lookup st x i : indices st !! x = Some i → num st x = i.
Proof. unfold num. by intros ->. Qed.

Lemma visited_lookup st x : visited st x → indices st !! x = Some (num st x).
Proof. unfold visited, num. by intros [i ->]. Qed.

Lemma grows_refl st : grows st st.
Proof.
  split; [done|]. split; [done|]. split; [done|]. exists []. by rewrite app_nil_r.
Qed.

Lemma grows_index st st' : grows st st' → index st ≤ index st'.
Proof. by intros (? & _). Qed.

Lemma grows_visited st st' x : grows st st' → visited st x → visited st' x.
Proof.
  intros (_ & Hp & _) Hx. unfold visited in *. destruct (Hp x Hx) as [-> _]. done.
Qed.

Lemma grows_num st st' x : grows st st' → visited st x → num st' x = num st x.
Proof.
  intros (_ & Hp & _) Hx. unfold num. destruct (Hp x Hx) as [-> _]. done.
Qed.

Lemma grows_low st st' x : grows st st' → visited st x → low st' !! x = low st !! x.
Proof. intros (_ & Hp & _) Hx. by destruct (Hp x Hx) as [_ ->]. Qed.

Lemma grows_new st st' x :
  grows st st' → visited st' x → ¬ visited st x → index st ≤ num st' x.
Proof. intros (_ & _ & Hn & _). apply Hn. Qed.

Lemma grows_sccs st st' : grows st st' → ∃ new, sccs st' = sccs st ++ new.
Proof. by intros (_ & _ & _ & ?). Qed.

Lemma grows_trans st1 st2 st3 : grows st1 st2 → grows st2 st3 → grows st1 st3.
Proof.
  intros H12 H23. split; [|split; [|split]].
  - pose proof (grows_index _ _ H12). pose proof (grows_index _ _ H23). lia.
  - intros x Hx. pose proof (grows_visited _ _ _ H12 Hx) as Hx2.
    destruct H12 as (_ & Hp12 & _), H23 as (_ & Hp23 & _).
    destruct (Hp12 x Hx) as [<- <-]. by apply Hp23.
  - intros x Hx3 Hx1. destruct (decide (visited st2 x)) as [Hx2|Hx2].
    + rewrite (grows_num _ _ _ H23 Hx2). by apply (grows_new _ _ _ H12).
    + pose proof (grows_new _ _ _ H23 Hx3 Hx2). pose proof (grows_index _ _ H12). lia.
  - destruct (grows_sccs _ _ H12) as [n1 E1], (grows_sccs _ _ H23) as [n2 E2].
    exists (n1 ++ n2). by rewrite E2, E1, app_assoc.
Qed.

Lemma set_low_grows st0 st v n :
  ¬ visited st0 v → grows st0 st → grows st0 (set_low v n st).
Proof.
  intros Hv (Hi & Hp & Hn & Hs). split; [done|]. split; [|split; [done|done]].
  intros x Hx. destruct (Hp x Hx) as [Hi' Hl]. split; [done|].
  cbn. rewrite lookup_insert_ne; [done|]. intros ->. done.
Qed.

Lemma set_low_inv adj gray st v n :
  tarjan_inv adj gray st → tarjan_inv adj gray (set_low v n st).
Proof. intros []. by constructor. Qed.

(** The pop loop takes the stack down to and including [v]. *)
Lemma pop_component_spec v seg : ∀ rest os comp,
  NoDup (seg ++ v :: rest) →
  (∀ x, x ∈ seg ++ [v] → x ∈ os) →
  pop_component v (seg ++ v :: rest) os comp
  = Ok (rest, os ∖ list_to_set (seg ++ [v]), comp ++ seg ++ [v]).
Proof.
  induction seg as [|w seg IH]; intros rest os comp Hnd Hos; cbn [app pop_component].
  - rewrite bool_decide_eq_true_2 by (apply Hos; set_solver).
    rewrite bool_decide_eq_true_2 by done.
    do 2 f_equal. f_equal. set_solver.
  - rewrite bool_decide_eq_true_2 by (apply Hos; set_solver).
    apply NoDup_cons in Hnd as [Hw Hnd].
    rewrite bool_decide_eq_false_2 by set_solver.
    rewrite IH; [|done|].
    + do 2 f_equal; [f_equal; set_solver|by rewrite <- app_assoc].
    + intros x Hx. apply elem_of_difference. split; [apply Hos; set_solver|].
      assert (x ≠ w) by set_solver. set_solver.
Qed.

Section traversal.
Context `{SetOrder} (adj : odict (gset string)).
Hypothesis adj_closed : ∀ v w, succ_rel adj v w → w ∈ od_keys adj.

Lemma in_succ_list v w : w ∈ iter_succ v (adj_get adj v) ↔ succ_rel adj v w.
Proof. apply elem_of_iter_succ. Qed.

Lemma inv_stack_visited gray st x :
  tarjan_inv adj gray st → x ∈ stack st → visited st x.
Proof. intros Hinv Hx. apply (inv_visited _ _ _ Hinv). by left. Qed.

Lemma inv_num_lt gray st x :
  tarjan_inv adj gray st → visited st x → num st x < index st.
Proof.
  intros Hinv Hx. apply (inv_lt _ _ _ Hinv x). by apply visited_lookup.
Qed.

Lemma enter_visited v st x : visited (enter v st) x ↔ x = v ∨ visited st x.
Proof.
  unfold visited. cbn. destruct (decide (x = v)) as [->|Hne].
  - rewrite lookup_insert_eq. split; [by left|by eauto].
  - rewrite lookup_insert_ne by done. split; [by right|]. by intros [?|?].
Qed.

Lemma enter_num_old v st x : x ≠ v → num (enter v st) x = num st x.
Proof. intros Hne. unfold num. cbn. by rewrite lookup_insert_ne. Qed.

Lemma enter_num_new v st : num (enter v st) v = index st.
Proof. unfold num. cbn. by rewrite lookup_insert_eq. Qed.

Lemma enter_grows v st : ¬ visited st v → grows st (enter v st).
Proof.
  intros Hv. split; [cbn; lia|]. split; [|split].
  - intros x Hx. cbn. assert (x ≠ v) by (intros ->; done).
    by rewrite !lookup_insert_ne.
  - intros x Hx Hnx. apply enter_visited in Hx as [->|?]; [|done].
    by rewrite enter_num_new.
  - exists []. cbn. by rewrite app_nil_r.
Qed.

Lemma enter_loop_inv gray v st0 :
  tarjan_inv adj gray st0 →
  ¬ visited st0 v →
  v ∈ od_keys adj →
  (∀ g, g ∈ gray → reach adj g v) →
  loop_inv adj gray v st0 [] (enter v st0).
Proof.
  intros Hinv Hv Hkey Hreach.
  assert (Hvs : v ∉ stack st0 ++ concat (sccs st0)).
  { intros Hin. apply Hv. apply (inv_visited _ _ _ Hinv).
    by apply elem_of_app in Hin. }
  split; [|split; [by apply enter_grows|split; [done|split]]].
  - constructor.
    + intros x i. cbn. destruct (decide (x = v)) as [->|Hne].
      * rewrite lookup_insert_eq. intros [= <-]. lia.
      * rewrite lookup_insert_ne by done. intros Hx.
        pose proof (inv_lt _ _ _ Hinv x i Hx). lia.
    + intros x. cbn. rewrite elem_of_union, elem_of_singleton, elem_of_cons.
      by rewrite (inv_onstack _ _ _ Hinv).
    + cbn. apply NoDup_cons. split; [done|]. apply (inv_nodup _ _ _ Hinv).
    + intros x. rewrite enter_visited. cbn. rewrite elem_of_cons.
      rewrite (inv_visited _ _ _ Hinv). tauto.
    + apply (inv_scc _ _ _ Hinv).
    + apply (inv_closed _ _ _ Hinv).
    + intros g. rewrite elem_of_union, elem_of_singleton. cbn.
      intros [->|Hg]; [by left|]. right. by apply (inv_gray_stack _ _ _ Hinv).
    + intros y. cbn. intros [->|Hy]%elem_of_cons.
      * exists v. split; [set_solver|]. split; [done|]. apply rtc_refl.
      * destruct (inv_stack_gray _ _ _ Hinv y Hy) as (g & Hg & Hle & Hr).
        exists g. split; [set_solver|]. split; [|done].
        assert (y ≠ v) by (intros ->; apply Hvs; set_solver).
        assert (g ≠ v).
        { intros ->. apply Hvs. apply elem_of_app. left.
          by apply (inv_gray_stack _ _ _ Hinv). }
        by rewrite !enter_num_old.
    + intros g y. rewrite elem_of_union, elem_of_singleton. cbn.
      intros [->|Hg] [->|Hy]%elem_of_cons Hle.
      * apply rtc_refl.
      * exfalso. rewrite enter_num_new in Hle.
        assert (y ≠ v) by (intros ->; apply Hvs; set_solver).
        rewrite enter_num_old in Hle by done.
        pose proof (inv_num_lt _ _ _ Hinv (inv_stack_visited _ _ _ Hinv Hy)). lia.
      * by apply Hreach.
      * assert (y ≠ v) by (intros ->; apply Hvs; set_solver).
        assert (g ≠ v).
        { intros ->. apply Hvs. apply elem_of_app. left.
          by apply (inv_gray_stack _ _ _ Hinv). }
        rewrite !enter_num_old in Hle by done.
        by apply (inv_gray_reach _ _ _ Hinv).
    + intros x y Hx Hg Hxy. apply enter_visited. right.
      apply enter_visited in Hx as [->|Hx]; [set_solver|].
      apply (inv_black _ _ _ Hinv x y); [done|set_solver|done].
    + intros x [->|Hx]%enter_visited; [done|]. by apply (inv_keys _ _ _ Hinv).
  - cbn. by rewrite lookup_insert_eq.
  - exists [], (index st0). cbn. split; [done|]. split; [by rewrite lookup_insert_eq|].
    split; [done|]. split; [by intros x ?%elem_of_nil|].
    split; [|split].
    + exists v. split; [by left|]. split; [apply enter_num_new|apply rtc_refl].
    + by intros w ?%elem_of_nil.
    + by intros p q ?%elem_of_nil.
Qed.

Lemma sccs_closed_reach gray st x y :
  tarjan_inv adj gray st → x ∈ concat (sccs st) → reach adj x y → y ∈ concat (sccs st).
Proof.
  intros Hinv Hx Hr. induction Hr as [|x y z Hxy _ IH]; [done|].
  apply IH. by apply (inv_closed _ _ _ Hinv x y).
Qed.

Lemma close_component_post gray v st0 cur :
  tarjan_inv adj gray st0 →
  (∀ g, g ∈ gray → reach adj g v) →
  loop_inv adj gray v st0 (iter_succ v (adj_get adj v)) cur →
  ∃ st', close_component v cur = Ok st' ∧ sc_post adj gray v st0 st'.
Proof.
  intros Hinv0 Hreach
    (Hcur & Hgrow & Hv0 & Hiv & seg & lv & Hstack & Hlow & Hlv & Hseg
     & (u & Hu & Hnu & Hru) & Hdone & Hedges).
  pose proof (num_lookup _ _ _ Hiv) as Hnv.
  pose proof (inv_nodup _ _ _ Hcur) as Hnd. rewrite Hstack in Hnd.
  assert (Hnd1 : NoDup (seg ++ v :: stack st0)) by (by apply NoDup_app in Hnd as [? _]).
  assert (Hvseg : v ∉ seg).
  { apply NoDup_app in Hnd1 as (_ & Hd & _). intros Hin. apply (Hd v Hin). by left. }
  assert (Hseg_new : ∀ x, x ∈ seg → index st0 ≤ num cur x).
  { intros x Hx. apply (grows_new st0); [done| |by apply Hseg].
    apply (inv_stack_visited gray' cur) || apply (inv_visited _ _ _ Hcur).
    left. rewrite Hstack. apply elem_of_app. by left. }
  assert (Hold : ∀ y, y ∈ stack st0 → num cur y < index st0).
  { intros y Hy. pose proof (inv_stack_visited _ _ _ Hinv0 Hy) as Hvy.
    rewrite (grows_num _ _ _ Hgrow Hvy). by apply (inv_num_lt gray). }
  assert (Hsucc : ∀ y, succ_rel adj v y →
            visited cur y ∧ (y ∈ stack cur → lv ≤ num cur y)).
  { intros y Hy. apply Hdone. by apply in_succ_list. }
  assert (Hgray0 : ∀ g, g ∈ gray → g ∈ stack st0)
    by apply (inv_gray_stack _ _ _ Hinv0).
  assert (Hseg_black : ∀ x y, x ∈ seg → succ_rel adj x y → visited cur y).
  { intros x y Hx Hxy. apply (inv_black _ _ _ Hcur x y); [| |done].
    - apply (inv_visited _ _ _ Hcur). left. rewrite Hstack. apply elem_of_app. by left.
    - intros [->%elem_of_singleton|Hg]%elem_of_union; [done|].
      apply (Hseg x Hx). by apply (inv_stack_visited gray), Hgray0. }
  unfold close_component, dict_get. rewrite Hlow, Hiv. cbn [mbind result_bind].
  case_bool_decide as Hroot.
  - (* the component of [v] is complete *)
    revert Hnu. subst lv. intros Hnu. rewrite Hstack.
    rewrite (pop_component_spec v seg (stack st0) (onstack cur) []);
      [|done|].
    2:{ intros x Hx. apply (inv_onstack _ _ _ Hcur). rewrite Hstack.
        apply elem_of_app in Hx as [Hx| ->%list_elem_of_singleton];
          apply elem_of_app; [by left|right; by left]. }
    cbn [app]. eexists. split; [reflexivity|].
    set (C := seg ++ [v]).
    assert (HC : ∀ x, x ∈ C ↔ x ∈ seg ∨ x = v).
    { intros x. unfold C. rewrite elem_of_app, list_elem_of_singleton. done. }
    assert (HCstack : ∀ x, x ∈ C → x ∈ stack cur).
    { intros x [Hx| ->]%HC; rewrite Hstack; apply elem_of_app; [by left|right; by left]. }
    assert (HCnum : ∀ x, x ∈ C → index st0 ≤ num cur x).
    { intros x [Hx| ->]%HC; [by apply Hseg_new|lia]. }
    assert (A1 : ∀ x, x ∈ C → reach adj v x ∧ reach adj x v).
    { intros x Hx. split.
      - apply (inv_gray_reach _ _ _ Hcur); [set_solver|by apply HCstack|].
        rewrite Hnv. by apply HCnum.
      - destruct (inv_stack_gray _ _ _ Hcur x (HCstack x Hx)) as (g & Hg & _ & Hr).
        apply elem_of_union in Hg as [->%elem_of_singleton|Hg]; [done|].
        etrans; [exact Hr|]. by apply Hreach. }
    assert (A2 : ∀ x y, x ∈ C → succ_rel adj x y → y ∈ C ∨ y ∈ concat (sccs cur)).
    { intros x y Hx Hxy.
      assert (Hy : visited cur y ∧ (y ∈ stack cur → index st0 ≤ num cur y)).
      { apply HC in Hx as [Hx| ->].
        - split; [by apply (Hseg_black x)|]. by apply (Hedges x).
        - by apply Hsucc. }
      destruct Hy as [Hyv Hyn].
      apply (inv_visited _ _ _ Hcur) in Hyv as [Hys|?]; [|by right].
      left. specialize (Hyn Hys). rewrite Hstack in Hys.
      apply elem_of_app in Hys as [?|[->|Hys]%elem_of_cons]; apply HC; [by left|by right|].
      pose proof (Hold y Hys). lia. }
    assert (A3 : ∀ y, reach adj v y → y ∈ C ∨ y ∈ concat (sccs cur)).
    { apply (rtc_ind_r (λ y, y ∈ C ∨ y ∈ concat (sccs cur))).
      - left. apply HC. by right.
      - intros z y Hvz Hzy [Hz|Hz]; [by apply (A2 z)|].
        right. by apply (inv_closed _ _ _ Hcur z). }
    assert (A4 : ∀ y, reach adj v y → reach adj y v → y ∈ C).
    { intros y Hvy Hyv. destruct (A3 y Hvy) as [?|Hy]; [done|]. exfalso.
      pose proof (sccs_closed_reach _ _ _ _ Hcur Hy Hyv) as Hvs.
      pose proof (inv_nodup _ _ _ Hcur) as Hnd'.
      apply NoDup_app in Hnd' as (_ & Hd & _). apply (Hd v); [|done].
      apply HCstack, HC. by right. }
    assert (A5 : is_scc_list adj C).
    { split; [unfold C; by destruct seg|].
      intros x Hx y. destruct (A1 x Hx) as [Hvx Hxv]. split.
      - intros Hy. destruct (A1 y Hy) as [Hvy Hyv].
        split; etrans; eauto.
      - intros [Hxy Hyx]. apply A4; etrans; eauto. }
    assert (Hconcat : concat (sccs cur ++ [C]) = concat (sccs cur) ++ C).
    { rewrite concat_app. cbn. by rewrite app_nil_r. }
    assert (Hperm : (seg ++ v :: stack st0) ++ concat (sccs cur)
                    ≡ₚ stack st0 ++ concat (sccs cur) ++ C).
    { unfold C. rewrite (cons_middle v seg), (assoc_L (++) seg [v]).
      rewrite (Permutation_app_comm (seg ++ [v]) (stack st0)).
      rewrite <- (assoc_L (++)). apply Permutation_app_head, Permutation_app_comm. }
    split; [|split; [|split]].
    + constructor; cbn [index indices low stack onstack sccs].
      * apply (inv_lt _ _ _ Hcur).
      * intros x. rewrite elem_of_difference, elem_of_list_to_set.
        rewrite (inv_onstack _ _ _ Hcur), Hstack. fold C.
        split.
        -- intros [[?|[->|?]%elem_of_cons]%elem_of_app Hn]; [| |done].
           ++ exfalso. apply Hn, HC. by left.
           ++ exfalso. apply Hn, HC. by right.
        -- intros Hx. split; [apply elem_of_app; right; by right|].
           intros HxC. apply NoDup_app in Hnd1 as (_ & Hd & Hnd1).
           apply HC in HxC as [HxC| ->].
           ++ apply (Hd x HxC). by right.
           ++ by apply NoDup_cons in Hnd1 as [? _].
      * rewrite Hconcat, <- Hperm. done.
      * intros x. change (visited _ x) with (visited cur x).
        rewrite (inv_visited _ _ _ Hcur), Hstack, Hconcat.
        rewrite !elem_of_app, elem_of_cons, HC. tauto.
      * intros c [Hc| ->%list_elem_of_singleton]%elem_of_app; [|done].
        by apply (inv_scc _ _ _ Hcur).
      * intros x y. rewrite Hconcat, !elem_of_app. intros [Hx|Hx] Hxy.
        -- left. by apply (inv_closed _ _ _ Hcur x).
        -- destruct (A2 x y Hx Hxy); auto.
      * done.
      * intros y Hy. change (num _ ?x) with (num cur x).
        destruct (inv_stack_gray _ _ _ Hcur y) as (g & Hg & Hle & Hr).
        { rewrite Hstack. apply elem_of_app. right. by right. }
        apply elem_of_union in Hg as [->%elem_of_singleton|Hg]; [|by eauto].
        pose proof (Hold y Hy). lia.
      * intros g y Hg Hy. change (num _ ?x) with (num cur x).
        apply (inv_gray_reach _ _ _ Hcur); [set_solver|].
        rewrite Hstack. apply elem_of_app. right. by right.
      * intros x y. change (visited _ ?z) with (visited cur z). intros Hx Hg Hxy.
        destruct (decide (x = v)) as [->|Hne]; [by apply Hsucc|].
        apply (inv_black _ _ _ Hcur x y); [done|set_solver|done].
      * apply (inv_keys _ _ _ Hcur).
    + destruct Hgrow as (Hi & Hp & Hn & [new Hs]).
      split; [done|]. split; [done|]. split; [done|].
      exists (new ++ [C]). cbn. by rewrite Hs, (assoc_L (++)).
    + done.
    + exists [], (index st0). cbn [stack low app].
      split; [done|]. split; [done|]. split; [done|].
      split; [by intros x ?%elem_of_nil|]. split; [by left|].
      by intros p q ?%elem_of_nil.
  - (* [v] stays on the stack *)
    assert (Hlt : lv < index st0) by lia.
    assert (Hu0 : u ∈ stack st0).
    { rewrite Hstack in Hu.
      apply elem_of_app in Hu as [Hu|[->|Hu]%elem_of_cons]; [| |done].
      - pose proof (Hseg_new u Hu). lia.
      - lia. }
    eexists. split; [reflexivity|].
    split; [|split; [done|split; [done|]]].
    + destruct Hcur. constructor; try done.
      * intros g Hg. apply inv_gray_stack0. set_solver.
      * intros y Hy. destruct (inv_stack_gray0 y Hy) as (g & Hg & Hle & Hr).
        apply elem_of_union in Hg as [->%elem_of_singleton|Hg]; [|by eauto].
        destruct (inv_stack_gray0 u) as (g' & Hg' & Hle' & Hr').
        { rewrite Hstack. apply elem_of_app. right. by right. }
        apply elem_of_union in Hg' as [->%elem_of_singleton|Hg']; [lia|].
        exists g'. split; [done|]. split; [lia|].
        etrans; [exact Hr|]. etrans; [exact Hru|done].
      * intros g y Hg. apply inv_gray_reach0. set_solver.
      * intros x y Hx Hg Hxy.
        destruct (decide (x = v)) as [->|Hne]; [by apply Hsucc|].
        apply (inv_black0 x y); [done|set_solver|done].
    + exists (seg ++ [v]), lv.
      split; [by rewrite Hstack, <- (assoc_L (++))|].
      split; [done|]. split; [done|].
      split.
      { intros x [Hx| ->%list_elem_of_singleton]%elem_of_app; [by apply Hseg|done]. }
      split.
      { right. split; [apply elem_of_app; right; by left|].
        split; [done|]. exists u. done. }
      intros p q [Hp| ->%list_elem_of_singleton]%elem_of_app Hpq Hq.
      * by apply (Hedges p).
      * by apply Hsucc.
Qed.

Lemma unvisited_mono st st' :
  (∀ x, visited st x → visited st' x) →
  size (unvisited adj st') ≤ size (unvisited adj st).
Proof.
  intros Hsub. apply subseteq_size. unfold unvisited.
  intros x [Hx Hn]%elem_of_difference. apply elem_of_difference. split; [done|].
  intros Hd. apply Hn. apply visited_dom, Hsub, visited_dom. done.
Qed.

Lemma unvisited_enter v st :
  v ∈ od_keys adj → ¬ visited st v →
  size (unvisited adj (enter v st)) < size (unvisited adj st).
Proof.
  intros Hkey Hv. apply subset_size. unfold unvisited. cbn. split.
  - intros x [Hx Hn]%elem_of_difference. apply elem_of_difference. split; [done|].
    intros Hd. apply Hn. rewrite dom_insert. set_solver.
  - intros Hsub. specialize (Hsub v).
    rewrite !elem_of_difference, elem_of_list_to_set in Hsub.
    destruct Hsub as [_ Hn].
    + split; [done|]. by rewrite <- visited_dom.
    + apply Hn. rewrite dom_insert. set_solver.
Qed.

(** One iteration of the loop of [strongconnect(v)], given that the
    recursive calls meet their specification. *)
Lemma visit_successor_step (self : string → tarjan → result tarjan) d gray v st0 done cur w :
  (∀ gray' v' st,
     tarjan_inv adj gray' st → ¬ visited st v' → v' ∈ od_keys adj →
     (∀ g, g ∈ gray' → reach adj g v') →
     size (unvisited adj st) ≤ d →
     ∃ st', self v' st = Ok st' ∧ sc_post adj gray' v' st st') →
  (∀ g, g ∈ gray → reach adj g v) →
  loop_inv adj gray v st0 done cur →
  succ_rel adj v w →
  size (unvisited adj cur) ≤ d →
  ∃ cur', visit_successor self v w cur = Ok cur'
          ∧ loop_inv adj gray v st0 (done ++ [w]) cur'
          ∧ size (unvisited adj cur') ≤ d.
Proof.
  intros IH Hreach
    (Hcur & Hgrow & Hv0 & Hiv & seg & lv & Hstack & Hlow & Hlv & Hseg
     & (u & Hu & Hnu & Hru) & Hdone & Hedges) Hvw Hsize.
  pose proof (num_lookup _ _ _ Hiv) as Hnv.
  assert (Hvcur : visited cur v) by (unfold visited; rewrite Hiv; eauto).
  pose proof (inv_num_lt _ _ _ Hcur Hvcur) as Hidx. rewrite Hnv in Hidx.
  unfold visit_successor.
  case_bool_decide as Hw.
  - (* [w] is new: the recursive call *)
    rewrite <- visited_dom in Hw.
    destruct (IH ({[v]} ∪ gray) w cur Hcur Hw (adj_closed _ _ Hvw)) as (st2 & -> & Hpost);
      [|done|].
    { intros g [->%elem_of_singleton|Hg]%elem_of_union.
      - by apply rtc_once.
      - etrans; [by apply Hreach|by apply rtc_once]. }
    destruct Hpost as (Hinv2 & Hgrow2 & Hiw & segw & lw & Hstack2 & Hloww & Hlw
                       & Hsegw & Hcase & Hedgesw).
    cbn [mbind result_bind]. unfold dict_get.
    rewrite (grows_low _ _ _ Hgrow2 Hvcur), Hlow, Hloww. cbn [mbind result_bind].
    eexists. split; [reflexivity|].
    pose proof (num_lookup _ _ _ Hiw) as Hnw.
    assert (Hnum2 : ∀ x, visited cur x → num st2 x = num cur x)
      by (intros x; apply grows_num; done).
    split; [|apply (Nat.le_trans _ (size (unvisited adj cur))); [|done];
             apply unvisited_mono; intros x; apply (grows_visited _ _ _ Hgrow2)].
    split; [by apply set_low_inv|].
    split; [apply set_low_grows; [done|]; by apply (grows_trans _ cur)|].
    split; [done|].
    split.
    { cbn. destruct Hgrow2 as (_ & Hp & _). destruct (Hp v Hvcur) as [-> _]. done. }
    exists (segw ++ seg), (lv `min` lw). cbn [stack low set_low].
    split; [by rewrite Hstack2, Hstack, (assoc_L (++))|].
    split; [by rewrite lookup_insert_eq|].
    split; [lia|].
    split.
    { intros x [Hx|Hx]%elem_of_app; [|by apply Hseg].
      intros Hx0. apply (Hsegw x Hx). by apply (grows_visited _ _ _ Hgrow). }
    assert (Hstack_old : ∀ x, x ∈ stack cur → x ∈ stack st2).
    { intros x Hx. rewrite Hstack2. apply elem_of_app. by right. }
    assert (Hsegw_new : ∀ x, x ∈ segw → index cur ≤ num st2 x).
    { intros x Hx. apply (grows_new cur); [done| |by apply Hsegw].
      apply (inv_visited _ _ _ Hinv2). left. rewrite Hstack2. apply elem_of_app. by left. }
    split; [|split].
    + destruct (decide (lv ≤ lw)) as [Hle|Hgt].
      * exists u. split; [by apply Hstack_old|]. split; [|done].
        change (num (set_low _ _ st2) u) with (num st2 u).
        rewrite Hnum2; [lia|]. eapply inv_stack_visited; [exact Hcur|done].
      * destruct Hcase as [[_ ->]|(_ & _ & u' & Hu' & Hnu' & Hru')]; [lia|].
        exists u'. split; [by apply Hstack_old|].
        split; [change (num (set_low _ _ st2) u') with (num st2 u'); lia|].
        etrans; [by apply rtc_once|done].
    + intros w0 [Hw0| ->%list_elem_of_singleton]%elem_of_app.
      * destruct (Hdone w0 Hw0) as [Hvis Hbound].
        split; [by apply (grows_visited _ _ _ Hgrow2)|].
        change (num (set_low _ _ st2) w0) with (num st2 w0).
        rewrite Hstack2. intros [Hin|Hin]%elem_of_app.
        -- exfalso. by apply (Hsegw w0).
        -- rewrite Hnum2 by done. specialize (Hbound Hin). lia.
      * split; [unfold visited; cbn; rewrite Hiw; eauto|].
        change (num (set_low _ _ st2) w) with (num st2 w). intros _. lia.
    + intros p q Hp Hpq. change (num (set_low _ _ st2) q) with (num st2 q).
      rewrite Hstack2. intros Hq.
      apply elem_of_app in Hp as [Hp|Hp].
      * assert (lw ≤ num st2 q); [|lia]. apply (Hedgesw p q Hp Hpq).
        by rewrite Hstack2.
      * apply elem_of_app in Hq as [Hq|Hq].
        -- pose proof (Hsegw_new q Hq). lia.
        -- rewrite Hnum2 by (eapply inv_stack_visited; [exact Hcur|done]).
           pose proof (Hedges p q Hp Hpq Hq). lia.
  - assert (Hwv : visited cur w).
    { apply visited_dom. destruct (decide (w ∈ dom (indices cur))); [done|].
      exfalso. by apply Hw || done. }
    case_bool_decide as Hon.
    + (* [w] is on the stack *)
      unfold dict_get. rewrite Hlow, (visited_lookup _ _ Hwv). cbn [mbind result_bind].
      eexists. split; [reflexivity|]. split; [|done].
      apply (inv_onstack _ _ _ Hcur) in Hon.
      split; [by apply set_low_inv|].
      split; [by apply set_low_grows|]. split; [done|]. split; [done|].
      exists seg, (lv `min` num cur w). cbn [stack low set_low].
      split; [done|]. split; [by rewrite lookup_insert_eq|]. split; [lia|].
      split; [done|]. split; [|split].
      * destruct (decide (lv ≤ num cur w)) as [Hle|Hgt].
        -- exists u. split; [done|]. split; [|done].
           change (num (set_low _ _ cur) u) with (num cur u). lia.
        -- exists w. split; [done|]. split; [|by apply rtc_once].
           change (num (set_low _ _ cur) w) with (num cur w). lia.
      * intros w0 [Hw0| ->%list_elem_of_singleton]%elem_of_app.
        -- destruct (Hdone w0 Hw0) as [Hvis Hbound]. split; [done|].
           change (num (set_low _ _ cur) w0) with (num cur w0).
           intros Hin. specialize (Hbound Hin). lia.
        -- split; [done|]. change (num (set_low _ _ cur) w) with (num cur w). lia.
      * intros p q Hp Hpq Hq. change (num (set_low _ _ cur) q) with (num cur q).
        pose proof (Hedges p q Hp Hpq Hq). lia.
    + (* [w] belongs to a finished component *)
      eexists. split; [reflexivity|]. split; [|done].
      split; [done|]. split; [done|]. split; [done|]. split; [done|].
      exists seg, lv. split; [done|]. split; [done|]. split; [done|].
      split; [done|]. split; [by exists u|]. split; [|done].
      intros w0 [Hw0| ->%list_elem_of_singleton]%elem_of_app; [by apply Hdone|].
      split; [done|]. intros Hin. exfalso. apply Hon.
      by apply (inv_onstack _ _ _ Hcur).
Qed.

Lemma successor_loop (self : string → tarjan → result tarjan) d gray v st0 :
  (∀ gray' v' st,
     tarjan_inv adj gray' st → ¬ visited st v' → v' ∈ od_keys adj →
     (∀ g, g ∈ gray' → reach adj g v') →
     size (unvisited adj st) ≤ d →
     ∃ st', self v' st = Ok st' ∧ sc_post adj gray' v' st st') →
  (∀ g, g ∈ gray → reach adj g v) →
  ∀ todo done cur,
    (∀ w, w ∈ todo → succ_rel adj v w) →
    loop_inv adj gray v st0 done cur →
    size (unvisited adj cur) ≤ d →
    ∃ cur', for_each (visit_successor self v) todo cur = Ok cur'
            ∧ loop_inv adj gray v st0 (done ++ todo) cur'.
Proof.
  intros IH Hreach todo.
  induction todo as [|w todo IHtodo]; intros done cur Hsucc Hloop Hsize.
  - exists cur. rewrite app_nil_r. done.
  - destruct (visit_successor_step self d gray v st0 done cur w IH Hreach Hloop)
      as (cur1 & Hstep & Hloop1 & Hsize1); [apply Hsucc; by left|done|].
    cbn [for_each]. rewrite Hstep. cbn [mbind result_bind].
    destruct (IHtodo (done ++ [w]) cur1) as (cur' & Hrest & Hloop');
      [intros w' Hw'; apply Hsucc; by right|done|done|].
    exists cur'. split; [done|]. by rewrite <- (assoc_L (++)) in Hloop'.
Qed.

(** [strongconnect] returns, and meets its specification, whenever the
    depth left covers the vertices that are not numbered yet. *)
Lemma strongconnect_spec d : ∀ gray v st,
  tarjan_inv adj gray st →
  ¬ visited st v →
  v ∈ od_keys adj →
  (∀ g, g ∈ gray → reach adj g v) →
  size (unvisited adj st) ≤ d →
  ∃ st', strongconnect adj d v st = Ok st' ∧ sc_post adj gray v st st'.
Proof.
  induction d as [|d IH]; intros gray v st Hinv Hv Hkey Hreach Hsize.
  - exfalso. pose proof (unvisited_enter v st Hkey Hv). lia.
  - cbn [strongconnect].
    destruct (successor_loop (strongconnect adj d) d gray v st IH Hreach
                (iter_succ v (adj_get adj v)) [] (enter v st))
      as (cur & Hloop & Hinvl).
    + intros w Hw. by apply in_succ_list.
    + by apply enter_loop_inv.
    + pose proof (unvisited_enter v st Hkey Hv). lia.
    + rewrite Hloop. cbn [mbind result_bind app] in *.
      by apply close_component_post.
Qed.
End traversal.

(** ** The adjacency dictionary *)

Lemma od_empty_wf {V} : od_wf (@od_empty V).
Proof.
  intros k. cbn. rewrite lookup_empty. split; [by intros ?%elem_of_nil|by intros [? ?]].
Qed.

Lemma od_setdefault_spec (k : string) (d : odict (gset string)) :
  od_wf d →
  od_wf (od_setdefault k ∅ d)
  ∧ (∀ x, x ∈ od_keys (od_setdefault k ∅ d) ↔ x ∈ od_keys d ∨ x = k)
  ∧ (∀ a, adj_get (od_setdefault k ∅ d) a = adj_get d a).
Proof.
  intros Hwf. unfold od_setdefault.
  destruct (od_map d !! k) as [s|] eqn:Hk.
  - split; [done|]. split; [|done].
    intros x. split; [by left|]. intros [?| ->]; [done|]. apply Hwf. by rewrite Hk.
  - split; [|split].
    + intros x. cbn. rewrite elem_of_app, list_elem_of_singleton.
      destruct (decide (x = k)) as [->|Hne].
      * rewrite lookup_insert_eq. split; [by eauto|by right].
      * rewrite lookup_insert_ne by done. rewrite (Hwf x). split; [by intros [?|?]|by left].
    + intros x. cbn. by rewrite elem_of_app, list_elem_of_singleton.
    + intros a. unfold adj_get. cbn. destruct (decide (a = k)) as [->|Hne].
      * by rewrite lookup_insert_eq, Hk.
      * by rewrite lookup_insert_ne.
Qed.

Lemma adj_add_spec (a b : string) (d : odict (gset string)) :
  od_wf d →
  od_wf (adj_add a b d)
  ∧ (∀ x, x ∈ od_keys (adj_add a b d) ↔ x ∈ od_keys d ∨ x = a)
  ∧ (∀ x y, y ∈ adj_get (adj_add a b d) x ↔ y ∈ adj_get d x ∨ (x = a ∧ y = b)).
Proof.
  intros Hwf. destruct (od_setdefault_spec a d Hwf) as (Hwf1 & Hk1 & Hg1).
  unfold adj_add. split; [|split].
  - intros k. cbn [od_keys od_map]. rewrite (Hwf1 k).
    destruct (decide (k = a)) as [->|Hne].
    + rewrite lookup_alter_eq. by rewrite fmap_is_Some.
    + by rewrite lookup_alter_ne.
  - done.
  - intros x y. rewrite <- Hg1. unfold adj_get. cbn [od_map].
    destruct (decide (x = a)) as [->|Hne].
    + rewrite lookup_alter_eq.
      assert (Ha : is_Some (od_map (od_setdefault a ∅ d) !! a)).
      { apply Hwf1, Hk1. by right. }
      destruct Ha as [s ->]. cbn. rewrite elem_of_union, elem_of_singleton. tauto.
    + rewrite lookup_alter_ne by done. split; [by left|]. by intros [?|[? _]].
Qed.

Section adjacency.
Context `{SetOrder}.

Lemma build_edges_spec (l : list (string * string)) : ∀ d,
  od_wf d →
  let r := fold_left (λ adj e, od_setdefault e.2 ∅ (adj_add e.1 e.2 adj)) l d in
  od_wf r
  ∧ (∀ x, x ∈ od_keys r ↔ x ∈ od_keys d ∨ ∃ e, e ∈ l ∧ (x = e.1 ∨ x = e.2))
  ∧ (∀ x y, y ∈ adj_get r x ↔ y ∈ adj_get d x ∨ (x, y) ∈ l).
Proof.
  induction l as [|[a b] l IH]; intros d Hwf; cbn [fold_left fst snd].
  - split; [done|]. split.
    + intros x. split; [by left|]. intros [?|(e & ?%elem_of_nil & _)]; done.
    + intros x y. split; [by left|]. intros [?|?%elem_of_nil]; done.
  - destruct (adj_add_spec a b d Hwf) as (Hwf1 & Hk1 & Hg1).
    destruct (od_setdefault_spec b _ Hwf1) as (Hwf2 & Hk2 & Hg2).
    destruct (IH _ Hwf2) as (Hwf3 & Hk3 & Hg3).
    split; [done|]. split.
    + intros x. rewrite Hk3, Hk2, Hk1. split.
      * intros [[[?| ->]| ->]|(e & He & Hx)]; [by left| | |].
        -- right. exists (a, b). split; [by left|by left].
        -- right. exists (a, b). split; [by left|by right].
        -- right. exists e. split; [by right|done].
      * intros [?|(e & [->|He]%elem_of_cons & Hx)]; [by left; left; left| |].
        -- cbn in Hx. destruct Hx as [-> | ->]; left; [left; by right|by right].
        -- right. by exists e.
    + intros x y. rewrite Hg3, Hg2, Hg1, elem_of_cons. split.
      * intros [[?|[-> ->]]|?]; [by left|right; by left|right; by right].
      * intros [?|[[= -> ->]|?]]; [left; by left|left; right; done|by right].
Qed.

Lemma build_nodes_spec (l : list string) : ∀ d,
  od_wf d →
  let r := fold_left (λ adj n, od_setdefault n ∅ adj) l d in
  od_wf r
  ∧ (∀ x, x ∈ od_keys r ↔ x ∈ od_keys d ∨ x ∈ l)
  ∧ (∀ x, adj_get r x = adj_get d x).
Proof.
  induction l as [|n l IH]; intros d Hwf; cbn [fold_left].
  - split; [done|]. split; [|done].
    intros x. split; [by left|]. intros [?|?%elem_of_nil]; done.
  - destruct (od_setdefault_spec n d Hwf) as (Hwf1 & Hk1 & Hg1).
    destruct (IH _ Hwf1) as (Hwf2 & Hk2 & Hg2).
    split; [done|]. split.
    + intros x. rewrite Hk2, Hk1, elem_of_cons. tauto.
    + intros x. by rewrite Hg2, Hg1.
Qed.

Lemma build_adjacency_succ g a b :
  succ_rel (build_adjacency g) a b ↔ edge g a b.
Proof.
  unfold succ_rel, build_adjacency, edge.
  destruct (build_edges_spec (iter_pairs (edges g)) od_empty od_empty_wf)
    as (Hwf1 & _ & Hg1).
  destruct (build_nodes_spec (iter_names (target_nodes g ∪ lib_nodes g)) _ Hwf1)
    as (_ & _ & Hg2).
  rewrite Hg2, Hg1, elem_of_iter_pairs.
  split; [intros [Hin|?]; [|done]|by right].
  unfold adj_get in Hin. cbn in Hin. rewrite lookup_empty in Hin. set_solver.
Qed.

Lemma build_adjacency_keys g x :
  x ∈ od_keys (build_adjacency g) ↔ x ∈ vertices g.
Proof.
  unfold build_adjacency, vertices.
  destruct (build_edges_spec (iter_pairs (edges g)) od_empty od_empty_wf)
    as (Hwf1 & Hk1 & _).
  destruct (build_nodes_spec (iter_names (target_nodes g ∪ lib_nodes g)) _ Hwf1)
    as (_ & Hk2 & _).
  rewrite Hk2, Hk1, elem_of_iter_names.
  setoid_rewrite elem_of_iter_pairs.
  rewrite !elem_of_union, !elem_of_map. split.
  - intros [[?%elem_of_nil|(e & He & [-> | ->])]|[?|?]]; [done| | | |].
    + left. right. by exists e.
    + right. by exists e.
    + left. left. by left.
    + left. left. by right.
  - intros [[[?|?]|(e & -> & He)]|(e & -> & He)].
    + right. by left.
    + right. by right.
    + left. right. exists e. split; [done|by left].
    + left. right. exists e. split; [done|by right].
Qed.

Lemma build_adjacency_closed g v w :
  succ_rel (build_adjacency g) v w → w ∈ od_keys (build_adjacency g).
Proof.
  rewrite build_adjacency_succ, build_adjacency_keys. unfold edge, vertices.
  intros Hvw. apply elem_of_union. right. apply elem_of_map. by exists (v, w).
Qed.

Lemma build_adjacency_reach g x y :
  reach (build_adjacency g) x y ↔ reaches g x y.
Proof.
  unfold reach, reaches. split; apply rtc_subrel; intros a b; apply build_adjacency_succ.
Qed.

Lemma build_adjacency_size g :
  size (list_to_set (od_keys (build_adjacency g)) : gset string) = size (vertices g).
Proof.
  f_equal. apply set_eq. intros x.
  by rewrite elem_of_list_to_set, build_adjacency_keys.
Qed.
End adjacency.

(** ** The loop over the roots *)

Lemma bind_Ok {A B} (m : result A) (k : A → result B) b :
  m ≫= k = Ok b ↔ ∃ a, m = Ok a ∧ k a = Ok b.
Proof.
  destruct m as [a|e]; cbn.
  - split; [by exists a|]. by intros (a' & [= ->] & ?).
  - split; [done|]. by intros (a' & [=] & _).
Qed.

Lemma for_each_mono {A S} (body body' : A → S → result S) l :
  (∀ a s s', body a s = Ok s' → body' a s = Ok s') →
  ∀ s s', for_each body l s = Ok s' → for_each body' l s = Ok s'.
Proof.
  intros Hb. induction l as [|a l IH]; intros s s'; cbn [for_each]; [done|].
  intros (s1 & H1 & H2)%bind_Ok. rewrite (Hb _ _ _ H1). cbn. by apply IH.
Qed.

Lemma visit_successor_mono (self self' : string → tarjan → result tarjan) v w st st' :
  (∀ x s s', self x s = Ok s' → self' x s = Ok s') →
  visit_successor self v w st = Ok st' → visit_successor self' v w st = Ok st'.
Proof.
  intros Hs. unfold visit_successor. case_bool_decide; [|done].
  intros (s1 & H1 & H2)%bind_Ok. by rewrite (Hs _ _ _ H1).
Qed.

Section roots.
Context `{SetOrder} (adj : odict (gset string)).
Hypothesis adj_closed : ∀ v w, succ_rel adj v w → w ∈ od_keys adj.

(** More depth never changes a result that was reached. *)
Lemma strongconnect_mono d : ∀ d' v st st',
  d ≤ d' → strongconnect adj d v st = Ok st' → strongconnect adj d' v st = Ok st'.
Proof.
  induction d as [|d IH]; intros d' v st st' Hle; [done|].
  destruct d' as [|d']; [lia|]. cbn [strongconnect].
  intros (s1 & H1 & H2)%bind_Ok.
  assert (Hb : ∀ w s s', visit_successor (strongconnect adj d) v w s = Ok s' →
                         visit_successor (strongconnect adj d') v w s = Ok s').
  { intros w s s'. apply visit_successor_mono. intros x t t'. apply IH. lia. }
  by rewrite (for_each_mono _ _ _ Hb _ _ H1).
Qed.

Lemma find_sccs_mono limit limit' st :
  limit ≤ limit' → find_sccs adj limit = Ok st → find_sccs adj limit' = Ok st.
Proof.
  intros Hle. unfold find_sccs. apply for_each_mono.
  intros v s s'. case_bool_decide; [|done]. by apply strongconnect_mono.
Qed.

Lemma tarjan_init_inv : tarjan_inv adj ∅ tarjan_init.
Proof.
  constructor; cbn; try done.
  - intros x. split; [by intros ?%not_elem_of_empty|by intros ?%elem_of_nil].
  - apply NoDup_nil_2.
  - intros x. unfold visited. cbn. rewrite lookup_empty. split; [by intros [? ?]|].
    by intros [?%elem_of_nil|?%elem_of_nil].
  - by intros c ?%elem_of_nil.
  - by intros x y ?%elem_of_nil.
  - by intros y ?%elem_of_nil.
  - intros x [? Hx]. cbn in Hx. by rewrite lookup_empty in Hx.
Qed.

Lemma inv_no_gray_stack st : tarjan_inv adj ∅ st → stack st = [].
Proof.
  intros Hinv. destruct (stack st) as [|y s] eqn:Hs; [done|].
  destruct (inv_stack_gray _ _ _ Hinv y) as (g & Hg & _); [rewrite Hs; by left|].
  by apply not_elem_of_empty in Hg.
Qed.

Lemma roots_loop limit : ∀ l st,
  (∀ k, k ∈ l → k ∈ od_keys adj) →
  tarjan_inv adj ∅ st →
  size (unvisited adj st) ≤ limit →
  ∃ st', for_each (λ v st, if bool_decide (v ∉ dom (indices st))
                           then strongconnect adj limit v st else Ok st) l st = Ok st'
         ∧ tarjan_inv adj ∅ st'
         ∧ (∀ x, visited st x → visited st' x)
         ∧ (∀ k, k ∈ l → visited st' k).
Proof.
  induction l as [|v l IH]; intros st Hkeys Hinv Hsize; cbn [for_each].
  - exists st. split; [done|]. split; [done|]. split; [done|]. by intros k ?%elem_of_nil.
  - assert (Hstep : ∃ st1, (if bool_decide (v ∉ dom (indices st))
                            then strongconnect adj limit v st else Ok st) = Ok st1
                           ∧ tarjan_inv adj ∅ st1
                           ∧ (∀ x, visited st x → visited st1 x)
                           ∧ visited st1 v).
    { case_bool_decide as Hv.
      - rewrite <- visited_dom in Hv.
        destruct (strongconnect_spec adj adj_closed limit ∅ v st Hinv Hv)
          as (st1 & Hsc & Hinv1 & Hgrow & Hiv & _); [apply Hkeys; by left| |done|].
        { by intros g ?%not_elem_of_empty. }
        exists st1. split; [done|]. split; [done|].
        split; [intros x; by apply grows_visited|].
        unfold visited. rewrite Hiv. eauto.
      - exists st. split; [done|]. split; [done|]. split; [done|].
        apply visited_dom. destruct (decide (v ∈ dom (indices st))); [done|].
        exfalso. by apply Hv || done. }
    destruct Hstep as (st1 & -> & Hinv1 & Hsub1 & Hv1). cbn [mbind result_bind].
    destruct (IH st1) as (st' & Hrest & Hinv' & Hsub' & Hall); [|done| |].
    + intros k Hk. apply Hkeys. by right.
    + pose proof (unvisited_mono adj st st1 Hsub1). lia.
    + exists st'. split; [done|]. split; [done|].
      split; [by intros x Hx; apply Hsub', Hsub1|].
      intros k [->|Hk]%elem_of_cons; [by apply Hsub'|by apply Hall].
Qed.

(** The loop over the roots returns when the limit covers the vertices, and
    its components then partition the keys of [adj] into classes of
    mutual reachability. *)
Lemma find_sccs_total limit :
  size (list_to_set (od_keys adj) : gset string) ≤ limit →
  ∃ st, find_sccs adj limit = Ok st
        ∧ NoDup (concat (sccs st))
        ∧ (∀ x, x ∈ concat (sccs st) ↔ x ∈ od_keys adj)
        ∧ (∀ c, c ∈ sccs st → is_scc_list adj c).
Proof.
  intros Hsize.
  destruct (roots_loop limit (od_keys adj) tarjan_init) as (st & Hrun & Hinv & _ & Hall).
  - done.
  - apply tarjan_init_inv.
  - etrans; [|exact Hsize]. apply subseteq_size. unfold unvisited. set_solver.
  - exists st. split; [done|].
    pose proof (inv_no_gray_stack st Hinv) as Hstack.
    pose proof (inv_nodup _ _ _ Hinv) as Hnd. rewrite Hstack in Hnd.
    split; [done|]. split; [|apply (inv_scc _ _ _ Hinv)].
    intros x. split.
    + intros Hx. apply (inv_keys _ _ _ Hinv), (inv_visited _ _ _ Hinv). by right.
    + intros Hx. apply Hall, (inv_visited _ _ _ Hinv) in Hx as [Hx|Hx]; [|done].
      rewrite Hstack in Hx. by apply elem_of_nil in Hx.
Qed.

Lemma find_sccs_correct limit st :
  find_sccs adj limit = Ok st →
  NoDup (concat (sccs st))
  ∧ (∀ x, x ∈ concat (sccs st) ↔ x ∈ od_keys adj)
  ∧ (∀ c, c ∈ sccs st → is_scc_list adj c).
Proof.
  intros Hrun.
  set (big := limit `max` size (list_to_set (od_keys adj) : gset string)).
  destruct (find_sccs_total big) as (st' & Hrun' & Hres); [lia|].
  apply (find_sccs_mono limit big) in Hrun; [|lia].
  rewrite Hrun in Hrun'. by injection Hrun' as <-.
Qed.
End roots.

(** ** Recording the cycles *)

Lemma elem_of_sorted x l : x ∈ sorted l ↔ x ∈ l.
Proof. unfold sorted. by rewrite merge_sort_Permutation. Qed.

Lemma is_cycle_spec adj c :
  is_cycle adj c = true ↔ 1 < length c ∨ ∃ v, c = [v] ∧ succ_rel adj v v.
Proof.
  unfold is_cycle, succ_rel. destruct c as [|v [|w c]]; cbn.
  - split; [done|]. intros [?|(v & ? & _)]; [lia|done].
  - rewrite bool_decide_eq_true. split; [right; by exists v|].
    intros [?|(v' & [= <-] & ?)]; [lia|done].
  - split; [left; lia|done].
Qed.

Section recording.
Context `{SetOrder}.

Lemma cycle_edges_fold (S : gset string) (l : list (string * string)) :
  ∀ (ce : gset (string * string)) e,
  e ∈ fold_left (λ ce e, if bool_decide (e.1 ∈ S) && bool_decide (e.2 ∈ S)
                         then {[e]} ∪ ce else ce) l ce
  ↔ e ∈ ce ∨ (e ∈ l ∧ e.1 ∈ S ∧ e.2 ∈ S).
Proof.
  induction l as [|e0 l IH]; intros ce e; cbn [fold_left].
  - split; [by left|]. by intros [?|[?%elem_of_nil _]].
  - rewrite IH, elem_of_cons.
    destruct (bool_decide (e0.1 ∈ S) && bool_decide (e0.2 ∈ S)) eqn:Hb.
    + apply andb_true_iff in Hb as [H1%bool_decide_eq_true H2%bool_decide_eq_true].
      rewrite elem_of_union, elem_of_singleton. split.
      * intros [[->|?]|(? & ? & ?)]; [right|by left|right]; split; auto.
      * intros [?|([->|?] & ? & ?)]; [left; by right|left; by left|right; done].
    + split; [intros [?|(? & ? & ?)]; [by left|right; split; auto]|].
      intros [?|([->|?] & H1 & H2)]; [by left| |right; done].
      rewrite !bool_decide_eq_true_2 in Hb by done. done.
Qed.

Lemma record_component_unfold g adj nodes cedges comps c :
  record_component g adj (nodes, cedges, comps) c
  = if is_cycle adj c
    then (list_to_set (sorted c) ∪ nodes,
          fold_left (λ ce e, if bool_decide (e.1 ∈ (list_to_set c : gset string))
                                && bool_decide (e.2 ∈ (list_to_set c : gset string))
                             then {[e]} ∪ ce else ce)
                    (iter_pairs (edges g)) cedges,
          comps ++ [sorted c])
    else (nodes, cedges, comps).
Proof. reflexivity. Qed.

Lemma record_fold_spec g adj (l : list (list string)) : ∀ nodes cedges comps,
  let r := fold_left (record_component g adj) l (nodes, cedges, comps) in
  r.2 = comps ++ map sorted (filter (λ c, is_cycle adj c = true) l)
  ∧ (∀ x, x ∈ r.1.1 ↔ x ∈ nodes ∨ ∃ c, c ∈ l ∧ is_cycle adj c = true ∧ x ∈ c)
  ∧ (∀ e, e ∈ r.1.2
          ↔ e ∈ cedges
            ∨ (e ∈ edges g ∧ ∃ c, c ∈ l ∧ is_cycle adj c = true ∧ e.1 ∈ c ∧ e.2 ∈ c)).
Proof.
  induction l as [|c l IH]; intros nodes cedges comps; cbn [fold_left].
  - cbn. split; [by rewrite app_nil_r|]. split.
    + intros x. split; [by left|]. by intros [?|(c & ?%elem_of_nil & _)].
    + intros e. split; [by left|]. by intros [?|(_ & c & ?%elem_of_nil & _)].
  - rewrite record_component_unfold. destruct (is_cycle adj c) eqn:Hc.
    + match goal with |- context [fold_left _ l (?n, ?ce, ?cs)] =>
        destruct (IH n ce cs) as (I1 & I2 & I3) end.
      split; [|split].
      * rewrite I1, filter_cons_True by done. cbn. by rewrite <- (assoc_L (++)).
      * intros x. rewrite I2, elem_of_union, elem_of_list_to_set, elem_of_sorted.
        split.
        -- intros [[?|?]|(c' & ? & ? & ?)]; [right; exists c|by left|right; exists c'];
             (split; [try (by left); by right|done]).
        -- intros [?|(c' & [->|?]%elem_of_cons & ? & ?)];
             [left; by right|left; by left|right; by exists c'].
      * intros e. rewrite I3, cycle_edges_fold, elem_of_iter_pairs.
        setoid_rewrite elem_of_list_to_set. split.
        -- intros [[?|(? & ? & ?)]|(? & c' & ? & ? & ?)];
             [by left|right|right]; (split; [done|]);
             [exists c|exists c']; (split; [try (by left); by right|done]).
        -- intros [?|(? & c' & [->|?]%elem_of_cons & ? & ? & ?)];
             [left; by left|left; right; done|right; split; [done|by exists c']].
    + destruct (IH nodes cedges comps) as (I1 & I2 & I3).
      split; [|split].
      * rewrite I1, filter_cons_False; [done|]. by rewrite Hc.
      * intros x. rewrite I2. split.
        -- intros [?|(c' & ? & ? & ?)]; [by left|right; exists c'].
           split; [by right|done].
        -- intros [?|(c' & [->|?]%elem_of_cons & Hc' & ?)];
             [by left|congruence|right; by exists c'].
      * intros e. rewrite I3. split.
        -- intros [?|(? & c' & ? & ? & ?)]; [by left|right]. split; [done|].
           exists c'. split; [by right|done].
        -- intros [?|(? & c' & [->|?]%elem_of_cons & Hc' & ?)];
             [by left|congruence|right; split; [done|by exists c']].
Qed.

(** What [mark_cycles] returns, in terms of the components found. *)
Lemma mark_cycles_inv limit g g' :
  mark_cycles limit g = Ok g' →
  ∃ st, find_sccs (build_adjacency g) limit = Ok st
    ∧ target_nodes g' = target_nodes g ∧ lib_nodes g' = lib_nodes g
    ∧ edges g' = edges g ∧ annotations g' = annotations g ∧ lib_meta g' = lib_meta g
    ∧ cycle_components g'
      = map sorted (filter (λ c, is_cycle (build_adjacency g) c = true) (sccs st))
    ∧ (∀ x, x ∈ cycle_nodes g'
            ↔ ∃ c, c ∈ sccs st ∧ is_cycle (build_adjacency g) c = true ∧ x ∈ c)
    ∧ (∀ e, e ∈ cycle_edges g'
            ↔ e ∈ edges g
              ∧ ∃ c, c ∈ sccs st ∧ is_cycle (build_adjacency g) c = true
                     ∧ e.1 ∈ c ∧ e.2 ∈ c).
Proof.
  unfold mark_cycles. intros (st & Hst & Hg')%bind_Ok. exists st. split; [done|].
  destruct (record_fold_spec g (build_adjacency g) (sccs st) ∅ ∅ []) as (I1 & I2 & I3).
  destruct (fold_left _ _ _) as [[nodes cedges] comps]. cbn [fst snd] in *.
  injection Hg' as <-. cbn.
  split; [done|]. split; [done|]. split; [done|]. split; [done|]. split; [done|].
  split; [done|]. split.
  - intros x. rewrite I2. split; [intros [?%not_elem_of_empty|?]; done|by right].
  - intros e. rewrite I3. split; [intros [?%not_elem_of_empty|?]; done|by right].
Qed.

Lemma mark_cycles_total limit g :
  size (vertices g) ≤ limit → ∃ g', mark_cycles limit g = Ok g'.
Proof.
  intros Hsize.
  destruct (find_sccs_total (build_adjacency g) (build_adjacency_closed g) limit)
    as (st & Hst & _).
  { by rewrite build_adjacency_size. }
  unfold mark_cycles. rewrite Hst. cbn [mbind result_bind].
  destruct (fold_left _ _ _) as [[nodes cedges] comps]. eauto.
Qed.

Lemma elem_of_cycle_components limit g g' comp :
  mark_cycles limit g = Ok g' →
  comp ∈ cycle_components g' →
  ∃ st c, find_sccs (build_adjacency g) limit = Ok st
          ∧ c ∈ sccs st ∧ is_cycle (build_adjacency g) c = true ∧ comp = sorted c.
Proof.
  intros (st & Hst & _ & _ & _ & _ & _ & Hcc & _)%mark_cycles_inv. rewrite Hcc.
  intros (c & -> & [Hc Hin]%list_elem_of_filter)%list_elem_of_fmap.
  by exists st, c.
Qed.

Lemma cycle_component_intro limit g g' st c :
  mark_cycles limit g = Ok g' →
  find_sccs (build_adjacency g) limit = Ok st →
  c ∈ sccs st → is_cycle (build_adjacency g) c = true →
  sorted c ∈ cycle_components g'.
Proof.
  intros (st' & Hst' & _ & _ & _ & _ & _ & Hcc & _)%mark_cycles_inv Hst Hc Hcyc.
  rewrite Hst in Hst'. injection Hst' as <-. rewrite Hcc.
  apply list_elem_of_fmap. exists c. split; [done|].
  apply list_elem_of_filter. done.
Qed.
End recording.

(** ** Components and reachability in the graph *)

Lemma elem_of_concat {A} (x : A) (ls : list (list A)) :
  x ∈ concat ls ↔ ∃ l, l ∈ ls ∧ x ∈ l.
Proof.
  induction ls as [|l ls IH]; cbn.
  - split; [by intros ?%elem_of_nil|by intros (l & ?%elem_of_nil & _)].
  - rewrite elem_of_app, IH. split.
    + intros [?|(l' & ? & ?)]; [exists l; split; [by left|done]|].
      exists l'. split; [by right|done].
    + intros (l' & [->|?]%elem_of_cons & ?); [by left|right; by exists l'].
Qed.

Lemma NoDup_concat_elem {A} (ls : list (list A)) c :
  NoDup (concat ls) → c ∈ ls → NoDup c.
Proof.
  induction ls as [|l ls IH]; cbn; [by intros _ ?%elem_of_nil|].
  intros (Hl & _ & Hls)%NoDup_app [->|Hc]%elem_of_cons; [done|by apply IH].
Qed.

Lemma NoDup_concat_unique {A} (ls : list (list A)) c1 c2 x :
  NoDup (concat ls) →
  c1 ∈ ls → c2 ∈ ls → x ∈ c1 → x ∈ c2 → c1 = c2.
Proof.
  intros Hnd. induction ls as [|l ls IH]; [by intros ?%elem_of_nil|].
  cbn in Hnd. apply NoDup_app in Hnd as (Hl & Hdis & Hls).
  intros [->|H1]%elem_of_cons [->|H2]%elem_of_cons Hx1 Hx2; [done| | |by apply IH].
  - exfalso. apply (Hdis x Hx1), elem_of_concat. by exists c2.
  - exfalso. apply (Hdis x Hx2), elem_of_concat. by exists c1.
Qed.


Lemma length_gt_1 {A} (a b : A) (c : list A) :
  a ∈ c → b ∈ c → a ≠ b → 1 < length c.
Proof.
  destruct c as [|x [|y c]]; cbn; [by intros ?%elem_of_nil| |lia].
  intros ->%list_elem_of_singleton ->%list_elem_of_singleton. done.
Qed.

Lemma other_element (a : string) (c : list string) :
  1 < length c → NoDup c → ∃ y, y ∈ c ∧ y ≠ a.
Proof.
  destruct c as [|x [|y c]]; cbn; [lia|lia|]. intros _ Hnd.
  apply NoDup_cons in Hnd as [Hx _].
  destruct (decide (x = a)) as [->|Hne].
  - exists y. split; [right; by left|]. intros ->. apply Hx. by left.
  - exists x. split; [by left|done].
Qed.

Lemma tc_first_step {A} (R : relation A) x z :
  tc R x z → ∃ y, R x y ∧ rtc R y z.
Proof.
  intros Htc. destruct Htc as [x z Hxz|x y z Hxy Hyz].
  - exists z. split; [done|apply rtc_refl].
  - exists y. split; [done|by apply tc_rtc].
Qed.

Section components.
Context `{SetOrder}.

Lemma edge_vertices g a b : edge g a b → a ∈ vertices g ∧ b ∈ vertices g.
Proof.
  unfold edge, vertices. intros Hab. split.
  - apply elem_of_union. left. apply elem_of_union. right.
    apply elem_of_map. by exists (a, b).
  - apply elem_of_union. right. apply elem_of_map. by exists (a, b).
Qed.

(** The components found are the classes of mutual reachability of the
    graph: disjoint, covering the vertices, each without repetition. *)
Lemma sccs_of_graph limit g st :
  find_sccs (build_adjacency g) limit = Ok st →
  NoDup (concat (sccs st))
  ∧ (∀ x, x ∈ concat (sccs st) ↔ x ∈ vertices g)
  ∧ (∀ c, c ∈ sccs st →
       c ≠ [] ∧ NoDup c ∧ ∀ x, x ∈ c → ∀ y, y ∈ c ↔ reaches g x y ∧ reaches g y x).
Proof.
  intros Hst.
  destruct (find_sccs_correct (build_adjacency g) (build_adjacency_closed g) limit st Hst)
    as (Hnd & Hkeys & Hscc).
  split; [done|]. split.
  - intros x. by rewrite Hkeys, build_adjacency_keys.
  - intros c Hc. destruct (Hscc c Hc) as [Hne Hclass].
    split; [done|]. split; [by apply (NoDup_concat_elem (sccs st))|].
    intros x Hx y. rewrite (Hclass x Hx y), !build_adjacency_reach. done.
Qed.

Lemma is_cycle_graph g c :
  is_cycle (build_adjacency g) c = true ↔ 1 < length c ∨ ∃ v, c = [v] ∧ edge g v v.
Proof.
  rewrite is_cycle_spec. by setoid_rewrite build_adjacency_succ.
Qed.

(** A component is classified as a cycle exactly when its members lie on
    a closed walk with at least one edge. *)
Lemma is_cycle_iff_plus g c a b :
  NoDup c →
  (∀ x, x ∈ c → ∀ y, y ∈ c ↔ reaches g x y ∧ reaches g y x) →
  a ∈ c → b ∈ c →
  is_cycle (build_adjacency g) c = true ↔ reaches_plus g a b ∧ reaches_plus g b a.
Proof.
  intros Hnd Hclass Ha Hb. rewrite is_cycle_graph.
  assert (Hplus : ∀ x y, x ∈ c → y ∈ c → x ≠ y → reaches_plus g x y).
  { intros x y Hx Hy Hne. apply (Hclass x Hx y) in Hy as [Hxy _].
    apply rtc_tc in Hxy as [?|?]; done. }
  split.
  - intros [Hlen|(v & -> & Hvv)].
    + destruct (decide (a = b)) as [->|Hne].
      * destruct (other_element b c Hlen Hnd) as (y & Hy & Hyb).
        assert (reaches_plus g b b); [|done].
        unfold reaches_plus. etrans; [apply (Hplus b y)|apply (Hplus y b)]; done.
      * split; apply Hplus; done.
    + apply list_elem_of_singleton in Ha as ->. apply list_elem_of_singleton in Hb as ->.
      split; by apply tc_once.
  - intros [Hab Hba]. destruct (decide (a = b)) as [->|Hne].
    + destruct (tc_first_step _ _ _ Hab) as (y & Hby & Hyb).
      assert (Hy : y ∈ c).
      { apply (Hclass b Hb y). split; [by apply rtc_once|done]. }
      destruct (decide (y = b)) as [->|Hne].
      * destruct c as [|x [|x' c]]; [by apply elem_of_nil in Hb| |left; cbn; lia].
        apply list_elem_of_singleton in Hb as ->. right. by exists x.
      * left. by apply (length_gt_1 y b).
    + left. by apply (length_gt_1 a b).
Qed.
End components.

(** ** The orders used by [sorted] *)

Lemma ascii_compare_refl a : Ascii.compare a a = Eq.
Proof. unfold Ascii.compare. apply N.compare_refl. Qed.

Lemma ascii_compare_lt_trans a b c :
  Ascii.compare a b = Lt → Ascii.compare b c = Lt → Ascii.compare a c = Lt.
Proof. unfold Ascii.compare. rewrite !N.compare_lt_iff. lia. Qed.

Lemma str_compare_refl s : String.compare s s = Eq.
Proof. induction s as [|a s IH]; cbn; [done|]. by rewrite ascii_compare_refl. Qed.

Lemma str_compare_lt_trans s1 : ∀ s2 s3,
  String.compare s1 s2 = Lt → String.compare s2 s3 = Lt → String.compare s1 s3 = Lt.
Proof.
  induction s1 as [|a s1 IH]; intros [|b s2] [|c s3]; cbn; try done.
  destruct (Ascii.compare a b) eqn:Hab; [|intros _|done].
  - apply Ascii.compare_eq_iff in Hab as ->.
    destruct (Ascii.compare b c) eqn:Hbc; [|done|done]. apply IH.
  - destruct (Ascii.compare b c) eqn:Hbc; [|intros _|done].
    + apply Ascii.compare_eq_iff in Hbc as <-. by rewrite Hab.
    + by rewrite (ascii_compare_lt_trans a b c).
Qed.

Lemma str_ltb_lt s1 s2 : String.ltb s1 s2 = true ↔ String.compare s1 s2 = Lt.
Proof. unfold String.ltb. destruct (String.compare s1 s2); split; done. Qed.

Lemma str_leb_le s1 s2 :
  String.leb s1 s2 = true ↔ String.compare s1 s2 = Lt ∨ s1 = s2.
Proof.
  unfold String.leb. destruct (String.compare s1 s2) eqn:Hc.
  - apply String.compare_eq_iff in Hc. split; [by right|done].
  - split; [by left|done].
  - split; [done|]. intros [?| ->]; [done|]. by rewrite str_compare_refl in Hc.
Qed.

Lemma str_lt_irrefl s : String.compare s s ≠ Lt.
Proof. by rewrite str_compare_refl. Qed.

#[global] Instance str_le_refl : Reflexive str_le.
Proof. intros s. apply str_leb_le. by right. Qed.

#[global] Instance str_le_trans : Transitive str_le.
Proof.
  intros s1 s2 s3. unfold str_le. rewrite !str_leb_le.
  intros [H12| ->] [H23| ->]; auto. left. by apply (str_compare_lt_trans s1 s2).
Qed.

#[global] Instance str_le_antisym : AntiSymm (=) str_le.
Proof. intros s1 s2. apply String.leb_antisym. Qed.

#[global] Instance str_le_total : Total str_le.
Proof. intros s1 s2. apply String.leb_total. Qed.

Lemma pair_leb_le p q :
  pair_leb p q = true
  ↔ String.compare p.1 q.1 = Lt ∨ (p.1 = q.1 ∧ String.leb p.2 q.2 = true).
Proof.
  unfold pair_leb. destruct (String.eqb p.1 q.1) eqn:He.
  - apply String.eqb_eq in He. split; [by right|]. intros [Hlt|[_ ?]]; [|done].
    rewrite He in Hlt. by apply str_lt_irrefl in Hlt.
  - apply String.eqb_neq in He. rewrite str_ltb_lt. split; [by left|].
    by intros [?|[? _]].
Qed.

#[global] Instance pair_le_refl : Reflexive pair_le.
Proof. intros p. apply pair_leb_le. right. split; [done|]. apply (reflexivity (R:=str_le)). Qed.

#[global] Instance pair_le_trans : Transitive pair_le.
Proof.
  intros p q r. unfold pair_le. rewrite !pair_leb_le.
  intros [H1|[E1 L1]] [H2|[E2 L2]].
  - left. by apply (str_compare_lt_trans _ q.1).
  - left. by rewrite <- E2.
  - left. by rewrite E1.
  - right. split; [congruence|]. by apply (transitivity (R:=str_le) (y:=q.2)).
Qed.

#[global] Instance pair_le_antisym : AntiSymm (=) pair_le.
Proof.
  intros [a b] [c d]. unfold pair_le. rewrite !pair_leb_le. cbn.
  intros [H1|[E1 L1]] [H2|[E2 L2]].
  - exfalso. apply (str_lt_irrefl a). by apply (str_compare_lt_trans a c).
  - exfalso. subst. by apply (str_lt_irrefl a).
  - exfalso. subst. by apply (str_lt_irrefl c).
  - subst. f_equal. by apply String.leb_antisym.
Qed.

#[global] Instance pair_le_total : Total pair_le.
Proof.
  intros [a b] [c d]. unfold pair_le. rewrite !pair_leb_le. cbn.
  destruct (String.compare a c) eqn:Hc.
  - apply String.compare_eq_iff in Hc as ->.
    destruct (String.leb_total b d); [left|right]; right; done.
  - left. by left.
  - right. left. rewrite String.compare_antisym, Hc. done.
Qed.

(** [sorted] returns the sorted arrangement of its argument, which does not
    depend on the order in which the argument lists its elements. *)
Lemma sorted_Sorted l : Sorted str_le (sorted l).
Proof. apply Sorted_merge_sort. apply _. Qed.

Lemma sorted_Permutation l : sorted l ≡ₚ l.
Proof. apply merge_sort_Permutation. Qed.



Lemma sorted_pairs_Permutation l : sorted_pairs l ≡ₚ l.
Proof. apply merge_sort_Permutation. Qed.




(** ** Independence from the iteration order *)

Lemma graph_eq g1 g2 :
  target_nodes g1 = target_nodes g2 → lib_nodes g1 = lib_nodes g2 →
  edges g1 = edges g2 → annotations g1 = annotations g2 → lib_meta g1 = lib_meta g2 →
  cycle_nodes g1 = cycle_nodes g2 → cycle_edges g1 = cycle_edges g2 →
  cycle_components g1 = cycle_components g2 → g1 = g2.
Proof. destruct g1, g2. cbn. by intros -> -> -> -> -> -> -> ->. Qed.


Section marking.
Context `{SetOrder}.

(** Two nodes lie in one recorded component iff each reaches the other by
    at least one edge. *)
Lemma same_component_iff limit g g' a b :
  mark_cycles limit g = Ok g' →
  (∃ comp, comp ∈ cycle_components g' ∧ a ∈ comp ∧ b ∈ comp)
  ↔ reaches_plus g a b ∧ reaches_plus g b a.
Proof.
  intros Hrun.
  pose proof (mark_cycles_inv _ _ _ Hrun) as (st & Hst & _).
  destruct (sccs_of_graph limit g st Hst) as (Hnd & Hcover & Hcls).
  split.
  - intros (comp & Hcomp & Ha & Hb).
    destruct (elem_of_cycle_components _ _ _ _ Hrun Hcomp)
      as (st' & c & Hst' & Hc & Hcyc & ->).
    rewrite Hst in Hst'. injection Hst' as <-.
    rewrite elem_of_sorted in Ha, Hb.
    destruct (Hcls c Hc) as (_ & Hndc & Hclass).
    by apply (is_cycle_iff_plus g c a b Hndc Hclass Ha Hb).
  - intros [Hab Hba].
    destruct (tc_first_step _ _ _ Hab) as (y & Hay & _).
    apply edge_vertices in Hay as [Hav _].
    apply Hcover, elem_of_concat in Hav as (c & Hc & Ha).
    destruct (Hcls c Hc) as (_ & Hndc & Hclass).
    assert (Hb : b ∈ c).
    { apply (Hclass a Ha b). split; by apply tc_rtc. }
    exists (sorted c). rewrite !elem_of_sorted. split; [|done].
    apply (cycle_component_intro limit g g' st c Hrun Hst Hc).
    by apply (is_cycle_iff_plus g c a b Hndc Hclass Ha Hb).
Qed.


Lemma cycle_edges_iff limit g g' e :
  mark_cycles limit g = Ok g' →
  e ∈ cycle_edges g'
  ↔ e ∈ edges g ∧ reaches_plus g e.1 e.2 ∧ reaches_plus g e.2 e.1.
Proof.
  intros Hrun.
  pose proof (mark_cycles_inv _ _ _ Hrun)
    as (st & Hst & _ & _ & _ & _ & _ & _ & _ & Hce).
  rewrite Hce, <- (same_component_iff limit g g' e.1 e.2 Hrun). split.
  - intros [Hin (c & Hc & Hcyc & Ha & Hb)]. split; [done|].
    exists (sorted c). rewrite !elem_of_sorted. split; [|done].
    by apply (cycle_component_intro limit g g' st c).
  - intros [Hin (comp & Hcomp & Ha & Hb)]. split; [done|].
    destruct (elem_of_cycle_components _ _ _ _ Hrun Hcomp)
      as (st' & c & Hst' & Hc & Hcyc & ->).
    rewrite Hst in Hst'. injection Hst' as <-.
    rewrite elem_of_sorted in Ha, Hb. by exists c.
Qed.


Lemma cycle_components_spec limit g g' comp :
  mark_cycles limit g = Ok g' →
  comp ∈ cycle_components g'
  ↔ Sorted str_le comp ∧ NoDup comp
    ∧ ∃ x, reaches_plus g x x
           ∧ ∀ y, y ∈ comp ↔ reaches g x y ∧ reaches g y x.
Proof.
  intros Hrun.
  pose proof (mark_cycles_inv _ _ _ Hrun) as (st & Hst & _).
  destruct (sccs_of_graph limit g st Hst) as (Hnd & Hcover & Hcls).
  split.
  - intros Hcomp.
    destruct (elem_of_cycle_components _ _ _ _ Hrun Hcomp)
      as (st' & c & Hst' & Hc & Hcyc & ->).
    rewrite Hst in Hst'. injection Hst' as <-.
    destruct (Hcls c Hc) as (Hne & Hndc & Hclass).
    split; [apply sorted_Sorted|]. split; [by rewrite sorted_Permutation|].
    destruct c as [|x c]; [done|]. exists x.
    assert (Hx : x ∈ x :: c) by (by left). split.
    + by apply (proj1 (is_cycle_iff_plus g _ x x Hndc Hclass Hx Hx) Hcyc).
    + intros y. rewrite elem_of_sorted. by apply Hclass.
  - intros (Hs & Hndc & x & Hxx & Hclass).
    destruct (proj2 (same_component_iff limit g g' x x Hrun) (conj Hxx Hxx))
      as (comp' & Hcomp' & Hx & _).
    assert (comp = comp') as ->; [|done].
    destruct (elem_of_cycle_components _ _ _ _ Hrun Hcomp')
      as (st' & c & Hst' & Hc & Hcyc & ->).
    rewrite Hst in Hst'. injection Hst' as <-.
    rewrite elem_of_sorted in Hx.
    destruct (Hcls c Hc) as (_ & Hndc' & Hclass').
    apply (Sorted_unique str_le); [done|apply sorted_Sorted|].
    rewrite sorted_Permutation. apply NoDup_Permutation; [done|done|].
    intros y. by rewrite Hclass, (Hclass' x Hx y).
Qed.
End marking.


(** ** Properties of cycle marking *)

Section cycle_claims.
Context `{SetOrder}.

(** C1.  [mark_cycles] returns whenever the limit on nested calls covers
    the vertices, and whenever it returns: two nodes lie in one recorded
    cycle component iff each reaches the other by at least one edge (for
    two distinct nodes: iff each reaches the other); every recorded
    component is a strongly connected component of the graph whose vertices
    are the targets, the libraries and the endpoints of edges; and a
    strongly connected component is recorded iff it has more than one
    member or its single member has a self-loop edge. *)
Theorem mark_cycles_mutual_reachability :
  ∀ (g : Graph) (limit : nat),
    (size (vertices g) ≤ limit → ∃ g', mark_cycles limit g = Ok g')
    ∧ (∀ g', mark_cycles limit g = Ok g' →
         (∀ a b, (∃ comp, comp ∈ cycle_components g' ∧ a ∈ comp ∧ b ∈ comp)
                 ↔ reaches_plus g a b ∧ reaches_plus g b a)
         ∧ (∀ a b, a ≠ b →
              ((∃ comp, comp ∈ cycle_components g' ∧ a ∈ comp ∧ b ∈ comp)
               ↔ reaches g a b ∧ reaches g b a))
         ∧ (∀ comp, comp ∈ cycle_components g' → is_scc g (list_to_set comp))
         ∧ (∀ S, is_scc g S →
              ((∃ comp, comp ∈ cycle_components g' ∧ ∀ x, x ∈ comp ↔ x ∈ S)
               ↔ 1 < size S ∨ ∃ v, S = {[v]} ∧ edge g v v))).
Proof.
  intros g limit. split; [apply mark_cycles_total|].
  intros g' Hrun.
  pose proof (mark_cycles_inv _ _ _ Hrun) as (st & Hst & _).
  destruct (sccs_of_graph limit g st Hst) as (Hnd & Hcover & Hcls).
  assert (Hpairs : ∀ a b, (∃ comp, comp ∈ cycle_components g' ∧ a ∈ comp ∧ b ∈ comp)
                 ↔ reaches_plus g a b ∧ reaches_plus g b a).
  { intros a b. by apply (same_component_iff limit). }
  split; [done|]. split; [|split].
  - intros a b Hne. rewrite Hpairs. unfold reaches, reaches_plus.
    rewrite !rtc_tc. split; [intros [? ?]; split; by right|].
    intros [[?|?] [?|?]]; done.
  - intros comp Hcomp.
    destruct (elem_of_cycle_components _ _ _ _ Hrun Hcomp) as (st' & c & Hst' & Hc & _ & ->).
    rewrite Hst in Hst'. injection Hst' as <-.
    destruct (Hcls c Hc) as (Hne & _ & Hclass).
    destruct c as [|x c]; [done|]. exists x. split.
    + apply Hcover, elem_of_concat. exists (x :: c). split; [done|by left].
    + intros y. rewrite elem_of_list_to_set, elem_of_sorted.
      apply Hclass. by left.
  - intros S (x & Hx & HS).
    apply Hcover, elem_of_concat in Hx as (c & Hc & Hxc).
    destruct (Hcls c Hc) as (_ & Hndc & Hclass).
    assert (HcS : ∀ y, y ∈ c ↔ y ∈ S).
    { intros y. by rewrite (Hclass x Hxc y), HS. }
    assert (HSc : S = list_to_set c).
    { apply set_eq. intros y. by rewrite elem_of_list_to_set, HcS. }
    assert (Hsize : size S = length c).
    { rewrite HSc. by apply size_list_to_set. }
    assert (Hrec : (∃ comp, comp ∈ cycle_components g' ∧ ∀ y, y ∈ comp ↔ y ∈ S)
                   ↔ is_cycle (build_adjacency g) c = true).
    { split.
      - intros (comp & Hcomp & Helem).
        destruct (elem_of_cycle_components _ _ _ _ Hrun Hcomp)
          as (st' & c' & Hst' & Hc' & Hcyc & ->).
        rewrite Hst in Hst'. injection Hst' as <-.
        assert (c' = c) as ->; [|done].
        apply (NoDup_concat_unique (sccs st) c' c x Hnd Hc' Hc); [|done].
        apply elem_of_sorted, Helem, HcS. done.
      - intros Hcyc. exists (sorted c).
        split; [by apply (cycle_component_intro limit g g' st c)|].
        intros y. by rewrite elem_of_sorted. }
    rewrite Hrec, is_cycle_graph, <- Hsize. split.
    + intros [?|(v & -> & Hvv)]; [by left|right]. exists v. split; [|done].
      rewrite HSc. apply set_eq. intros y.
      by rewrite elem_of_list_to_set, list_elem_of_singleton, elem_of_singleton.
    + intros [?|(v & HSv & Hvv)]; [by left|right]. exists v. split; [|done].
      assert (Hcv : ∀ y, y ∈ c → y = v).
      { intros y Hy. apply HcS in Hy. rewrite HSv in Hy. by apply elem_of_singleton in Hy. }
      destruct c as [|z1 [|z2 c]]; [by apply elem_of_nil in Hxc| |].
      * f_equal. apply Hcv. by left.
      * exfalso. apply NoDup_cons in Hndc as [Hz1 _]. apply Hz1.
        rewrite (Hcv z1) by (by left). rewrite (Hcv z2) by (right; by left). by left.
Qed.

Lemma scenario_B_vertices x : x ∈ vertices scenario_B ↔ x = "X" ∨ x = "Y".
Proof.
  assert (Hv : vertices scenario_B = {["X"; "Y"]})
    by (apply (bool_decide_unpack _); vm_compute; exact I).
  rewrite Hv. set_solver.
Qed.

Lemma scenario_B_edges e :
  e ∈ edges scenario_B ↔ e = ("X", "Y") ∨ e = ("Y", "X").
Proof. cbn. set_solver. Qed.

Lemma scenario_B_marked limit :
  2 ≤ limit →
  ∃ g', mark_cycles limit scenario_B = Ok g'
        ∧ cycle_components g' = [["X"; "Y"]]
        ∧ cycle_edges g' = {[("X", "Y"); ("Y", "X")]}.
Proof.
  intros Hlimit.
  destruct (mark_cycles_total limit scenario_B) as [g' Hrun].
  { assert (Hs : size (vertices scenario_B) = 2) by (vm_compute; reflexivity). lia. }
  exists g'. split; [done|].
  pose proof (mark_cycles_inv _ _ _ Hrun)
    as (st & Hst & _ & _ & _ & _ & _ & Hcc & _ & Hce).
  destruct (sccs_of_graph limit scenario_B st Hst) as (Hnd & Hcover & Hcls).
  assert (Hxy : reaches scenario_B "X" "Y").
  { apply rtc_once. apply scenario_B_edges. by left. }
  assert (Hyx : reaches scenario_B "Y" "X").
  { apply rtc_once. apply scenario_B_edges. by right. }
  assert (Hmem : ∀ c, c ∈ sccs st → ∀ z, z ∈ c ↔ z = "X" ∨ z = "Y").
  { intros c Hc z. destruct (Hcls c Hc) as (Hne & _ & Hclass). split.
    - intros Hz. apply scenario_B_vertices, Hcover, elem_of_concat. by exists c.
    - destruct c as [|x c]; [done|].
      assert (Hx : x = "X" ∨ x = "Y").
      { apply scenario_B_vertices, Hcover, elem_of_concat.
        exists (x :: c). split; [done|by left]. }
      intros Hz. apply (Hclass x); [by left|].
      destruct Hx as [-> | ->], Hz as [-> | ->]; split; done || apply rtc_refl. }
  assert (Hone : ∃ c, sccs st = [c]).
  { destruct (sccs st) as [|c1 [|c2 l]].
    - exfalso. assert (Hin : "X" ∈ concat (@nil (list string))).
      { apply Hcover, scenario_B_vertices. by left. }
      by apply elem_of_nil in Hin.
    - by exists c1.
    - exfalso. cbn in Hnd. apply NoDup_app in Hnd as (_ & Hdis & _).
      apply (Hdis "X").
      + apply (Hmem c1); [by left|by left].
      + apply elem_of_app. left. apply (Hmem c2); [right; by left|by left]. }
  destruct Hone as [c Hs]. rewrite Hs in *.
  assert (Hc : c ∈ [c]) by (by left).
  destruct (Hcls c Hc) as (_ & Hndc & _).
  assert (Hperm : ["X"; "Y"] ≡ₚ c).
  { apply NoDup_Permutation; [|done|].
    - apply NoDup_cons. split; [|apply NoDup_singleton].
      by intros [=]%list_elem_of_singleton.
    - intros z. rewrite (Hmem c Hc z), elem_of_cons, list_elem_of_singleton. done. }
  apply Permutation_length_2_inv in Hperm.
  assert (Hcyc : is_cycle (build_adjacency scenario_B) c = true).
  { apply is_cycle_spec. left. destruct Hperm as [-> | ->]; cbn; lia. }
  assert (Hsorted : sorted c = ["X"; "Y"]).
  { destruct Hperm as [-> | ->]; vm_compute; reflexivity. }
  split.
  - rewrite Hcc. rewrite filter_cons_True by done. cbn. by rewrite Hsorted.
  - apply set_eq. intros e. rewrite (Hce e), scenario_B_edges.
    rewrite elem_of_union, !elem_of_singleton. split; [tauto|].
    intros He. split; [done|]. exists c. split; [done|]. split; [done|].
    rewrite !(Hmem c Hc). destruct He as [-> | ->]; cbn; auto.
Qed.

(** C5.  [mark_cycles] returns whenever the limit on nested calls covers
    the vertices, and whenever it returns it leaves the edge set as it was
    and records as cycle edges exactly the edges whose two endpoints lie in
    one recorded cycle component.  For the targets [X] and [Y] with the
    edges [X → Y] and [Y → X] there is one component, [[X; Y]], and both
    edges are cycle edges. *)
Theorem cycle_edges_within_components :
  ∀ (g : Graph) (limit : nat),
    (size (vertices g) ≤ limit → ∃ g', mark_cycles limit g = Ok g')
    ∧ (∀ g', mark_cycles limit g = Ok g' →
         edges g' = edges g
         ∧ ∀ a b, (a, b) ∈ cycle_edges g'
                  ↔ (a, b) ∈ edges g'
                    ∧ ∃ comp, comp ∈ cycle_components g' ∧ a ∈ comp ∧ b ∈ comp)
    ∧ (2 ≤ limit →
       ∃ g', mark_cycles limit scenario_B = Ok g'
             ∧ cycle_components g' = [["X"; "Y"]]
             ∧ cycle_edges g' = {[("X", "Y"); ("Y", "X")]}).
Proof.
  intros g limit. split; [apply mark_cycles_total|]. split; [|apply scenario_B_marked].
  intros g' Hrun.
  pose proof (mark_cycles_inv _ _ _ Hrun)
    as (st & Hst & _ & _ & Hedges & _ & _ & Hcc & _ & Hce).
  split; [done|]. intros a b. rewrite (Hce (a, b)), Hedges. cbn [fst snd].
  split.
  - intros [Hin (c & Hc & Hcyc & Ha & Hb)]. split; [done|].
    exists (sorted c). rewrite !elem_of_sorted. split; [|done].
    by apply (cycle_component_intro limit g g' st c).
  - intros [Hin (comp & Hcomp & Ha & Hb)]. split; [done|].
    destruct (elem_of_cycle_components _ _ _ _ Hrun Hcomp)
      as (st' & c & Hst' & Hc & Hcyc & ->).
    rewrite Hst in Hst'. injection Hst' as <-.
    rewrite elem_of_sorted in Ha, Hb. by exists c.
Qed.
End cycle_claims.

(** ** Recursion depth *)

Section depth.
Context `{SetOrder}.

Lemma iter_succ_singleton v y : iter_succ v {[y]} = [y].
Proof.
  apply Permutation_singleton_r. rewrite iter_succ_perm. by rewrite elements_singleton.
Qed.

(** A chain of fresh single-successor vertices that is longer than the
    depth left makes [strongconnect] overflow. *)
Lemma strongconnect_overflow adj d : ∀ v l st,
  d < length (v :: l) →
  NoDup (v :: l) →
  single_chain (succ_rel adj) (v :: l) →
  (∀ x, x ∈ v :: l → ¬ visited st x) →
  strongconnect adj d v st = Raise RecursionError.
Proof.
  induction d as [|d IH]; intros v l st Hlen Hnd Hchain Hfresh; [done|].
  destruct l as [|w l]; [cbn in Hlen; lia|].
  destruct Hchain as [Hsucc Hchain].
  assert (Hadj : adj_get adj v = {[w]}).
  { apply set_eq. intros b. rewrite elem_of_singleton. apply Hsucc. }
  apply NoDup_cons in Hnd as [Hv Hnd].
  cbn [strongconnect]. rewrite Hadj, iter_succ_singleton. cbn [for_each].
  unfold visit_successor.
  rewrite bool_decide_eq_true_2.
  - rewrite (IH w l (enter v st)); [done|cbn in *; lia|done|done|].
    intros x Hx [->|Hvis]%enter_visited; [done|].
    apply (Hfresh x); [by right|done].
  - rewrite <- visited_dom. intros [->|Hvis]%enter_visited.
    + apply Hv. by left.
    + apply (Hfresh w); [right; by left|done].
Qed.

Lemma mark_cycles_overflow g limit r ks l :
  od_keys (build_adjacency g) = r :: ks →
  limit < length (r :: l) →
  NoDup (r :: l) →
  single_chain (edge g) (r :: l) →
  mark_cycles limit g = Raise RecursionError.
Proof.
  intros Hkeys Hlen Hnd Hchain.
  unfold mark_cycles, find_sccs. rewrite Hkeys. cbn [for_each].
  rewrite bool_decide_eq_true_2 by (cbn; set_solver).
  rewrite (strongconnect_overflow _ limit r l); [done|done|done| |].
  - clear Hlen Hnd Hkeys. revert r Hchain.
    induction l as [|y l IH]; intros r Hchain; [done|].
    destruct Hchain as [Hsucc Hchain]. split; [|by apply IH].
    intros b. rewrite build_adjacency_succ. apply Hsucc.
  - intros x _ [i Hi]. cbn in Hi. by rewrite lookup_empty in Hi.
Qed.

Lemma mark_cycles_limit_irrelevant g limit limit' g' :
  limit ≤ limit' → mark_cycles limit g = Ok g' → mark_cycles limit' g = Ok g'.
Proof.
  intros Hle. unfold mark_cycles. intros (st & Hst & Hg')%bind_Ok.
  by rewrite (find_sccs_mono _ limit limit' st Hle Hst).
Qed.
End depth.

(** *** The ring of [n + 1] targets *)

Lemma node_name_truthy i : str_truthy (node_name i) = true.
Proof. reflexivity. Qed.

Lemma node_name_inj i j : node_name i = node_name j → i = j.
Proof. unfold node_name. cbn. intros [= Hp]. by apply (inj pretty). Qed.

Lemma chain_graph_S n :
  chain_graph (S n)
  = add_edge (node_name n) (node_name (S n))
      (add_target (node_name (S n)) (add_target (node_name n) (chain_graph n))).
Proof. unfold chain_graph. by rewrite seq_S, fold_left_app. Qed.

Lemma chain_graph_edges n e :
  e ∈ edges (chain_graph n) ↔ ∃ i, i < n ∧ e = (node_name i, node_name (S i)).
Proof.
  induction n as [|n IH].
  - cbn. split; [by intros ?%not_elem_of_empty|intros (i & ? & _); lia].
  - rewrite chain_graph_S. unfold add_edge. rewrite !node_name_truthy.
    cbn [andb edges add_target]. rewrite elem_of_union, elem_of_singleton, IH.
    split.
    + intros [->|(i & Hi & ->)]; [exists n|exists i]; split; [lia|done|lia|done].
    + intros (i & Hi & ->). destruct (decide (i = n)) as [->|Hne]; [by left|].
      right. exists i. split; [lia|done].
Qed.

Lemma chain_graph_nodes n x :
  x ∈ target_nodes (chain_graph n) ∪ lib_nodes (chain_graph n) →
  ∃ i, i ≤ n ∧ x = node_name i.
Proof.
  induction n as [|n IH].
  - cbn. set_solver.
  - rewrite chain_graph_S. unfold add_edge. rewrite !node_name_truthy.
    cbn [andb target_nodes lib_nodes add_target].
    rewrite !elem_of_union, !elem_of_singleton.
    intros [[->|[->|Hx]]|Hx].
    + exists (S n). split; [lia|done].
    + exists n. split; [lia|done].
    + destruct IH as (i & Hi & ->); [set_solver|]. exists i. split; [lia|done].
    + destruct IH as (i & Hi & ->); [set_solver|]. exists i. split; [lia|done].
Qed.

Lemma ring_graph_edge n a b :
  edge (ring_graph n) a b
  ↔ ∃ i, i ≤ n ∧ a = node_name i ∧ b = node_name (ring_next n i).
Proof.
  unfold edge, ring_graph, add_edge, ring_next. rewrite !node_name_truthy.
  cbn [andb edges]. rewrite elem_of_union, elem_of_singleton, chain_graph_edges.
  split.
  - intros [[= -> ->]|(i & Hi & [= -> ->])].
    + exists n. split; [lia|]. by rewrite decide_True.
    + exists i. split; [lia|]. by rewrite decide_False by lia.
  - intros (i & Hi & -> & ->). destruct (decide (i = n)) as [->|Hne]; [by left|].
    right. exists i. split; [lia|done].
Qed.

Lemma ring_graph_successor n i b :
  i ≤ n → edge (ring_graph n) (node_name i) b ↔ b = node_name (ring_next n i).
Proof.
  intros Hi. rewrite ring_graph_edge. split.
  - by intros (j & Hj & <-%node_name_inj & ->).
  - intros ->. by exists i.
Qed.

Lemma ring_graph_vertices n x :
  x ∈ vertices (ring_graph n) → ∃ i, i ≤ n ∧ x = node_name i.
Proof.
  unfold vertices. rewrite !elem_of_union, !elem_of_map.
  intros [[Hx|([a b] & -> & He)]|([a b] & -> & He)].
  - apply (chain_graph_nodes n). unfold ring_graph, add_edge in Hx.
    rewrite !node_name_truthy in Hx. cbn in Hx. set_solver.
  - apply (ring_graph_edge n a b) in He as (i & Hi & -> & _). by exists i.
  - apply (ring_graph_edge n a b) in He as (i & Hi & _ & ->).
    exists (ring_next n i). split; [|done]. unfold ring_next. case_decide; lia.
Qed.

Lemma single_chain_seq n a len :
  a + len ≤ S n →
  single_chain (edge (ring_graph n)) (node_name <$> seq a len).
Proof.
  revert a. induction len as [|len IH]; intros a Hle; [done|].
  destruct len as [|len]; [done|]. cbn [seq fmap list_fmap single_chain].
  split; [|apply (IH (S a)); lia].
  intros b. rewrite ring_graph_successor by lia. unfold ring_next.
  by rewrite decide_False by lia.
Qed.

Lemma single_chain_app R l1 x y l2 :
  single_chain R (l1 ++ [x]) →
  (∀ b, R x b ↔ b = y) →
  single_chain R (y :: l2) →
  single_chain R (l1 ++ x :: y :: l2).
Proof.
  intros H1 Hxy H2. induction l1 as [|z l1 IH]; [by split|].
  cbn [app] in *. destruct l1 as [|z' l1]; cbn [app] in *.
  - destruct H1 as [Hz _]. split; [done|]. by split.
  - destruct H1 as [Hz H1]. split; [done|]. by apply IH.
Qed.

(** From any vertex of the ring, going round once is a chain of [n + 1]
    distinct single-successor vertices. *)
Lemma ring_graph_round n k :
  k ≤ n →
  ∃ l, length (node_name k :: l) = S n
       ∧ NoDup (node_name k :: l)
       ∧ single_chain (edge (ring_graph n)) (node_name k :: l).
Proof.
  intros Hk.
  set (idx := seq k (S n - k) ++ seq 0 k).
  assert (Hidx : node_name <$> idx = node_name k :: (node_name <$> tail idx)).
  { unfold idx. replace (S n - k) with (S (n - k)) by lia. done. }
  exists (node_name <$> tail idx). rewrite <- Hidx. split; [|split].
  - rewrite length_fmap. unfold idx. rewrite length_app, !length_seq. lia.
  - apply NoDup_fmap_2; [intros i j; apply node_name_inj|].
    unfold idx. apply NoDup_app. split; [apply NoDup_seq|]. split; [|apply NoDup_seq].
    intros x Hx1 Hx2. apply elem_of_seq in Hx1, Hx2. lia.
  - unfold idx. destruct k as [|k].
    + rewrite app_nil_r. apply single_chain_seq. lia.
    + replace (S n - S k) with (S (n - S k)) by lia.
      rewrite seq_S, !fmap_app, <- (assoc_L (++)).
      replace (S k + (n - S k)) with n by lia.
      change (node_name <$> [n]) with [node_name n].
      change (node_name <$> seq 0 (S k))
        with (node_name 0 :: (node_name <$> seq 1 k)).
      cbn [app]. apply single_chain_app.
      * change [node_name n] with (node_name <$> [n]).
        rewrite <- fmap_app.
        replace [n] with (seq (S k + (n - S k)) 1) by (cbn; f_equal; lia).
        rewrite <- seq_app. apply single_chain_seq. lia.
      * intros b. rewrite ring_graph_successor by lia. unfold ring_next.
        by rewrite decide_True.
      * apply (single_chain_seq n 0 (S k)). lia.
Qed.

(** On the ring every order of iteration leads to the same outcome. *)
Lemma mark_cycles_ring `{SetOrder} n limit :
  limit ≤ n → mark_cycles limit (ring_graph n) = Raise RecursionError.
Proof.
  intros Hle.
  destruct (od_keys (build_adjacency (ring_graph n))) as [|r ks] eqn:Hkeys.
  - exfalso. assert (Hin : node_name 0 ∈ od_keys (build_adjacency (ring_graph n))).
    { apply build_adjacency_keys.
      apply (edge_vertices (ring_graph n) (node_name n) (node_name 0)).
      apply ring_graph_successor; [done|]. unfold ring_next. by rewrite decide_True. }
    rewrite Hkeys in Hin. by apply elem_of_nil in Hin.
  - assert (Hr : r ∈ od_keys (build_adjacency (ring_graph n))) by (rewrite Hkeys; by left).
    apply build_adjacency_keys, ring_graph_vertices in Hr as (k & Hk & ->).
    destruct (ring_graph_round n k Hk) as (l & Hlen & Hnd & Hchain).
    apply (mark_cycles_overflow _ _ _ ks l Hkeys); [lia|done|done].
Qed.

(** Counterexample to C9 as stated: a ring of 1001 targets,
    [t0 → t1 → ... → t1000 → t0].  Even if all of the interpreter's default
    bound of 1000 nested calls were left for [strongconnect], [mark_cycles]
    raises [RecursionError]; fewer nested calls cannot do better. *)
Lemma mark_cycles_ring_overflows :
  @mark_cycles elements_order 1000 (ring_graph 1000) = Raise RecursionError.
Proof. apply mark_cycles_ring. lia. Qed.

(** C9 (amended).  [strongconnect] is a recursive depth-first traversal
    with Tarjan's low-link bookkeeping, not an explicit-stack one.
    [mark_cycles] returns whenever the number of nested calls allowed is at
    least the number of vertices, and a result that was reached is the
    same under any larger allowance; but when the first root starts a path
    of distinct vertices, each with the next as its only successor, that is
    longer than the allowance, [mark_cycles] raises [RecursionError], as it
    does on every ring with more targets than the allowance. *)
Theorem mark_cycles_recursion_depth :
  ∀ (O : SetOrder) (g : Graph) (limit : nat),
    (size (vertices g) ≤ limit → ∃ g', mark_cycles limit g = Ok g')
    ∧ (∀ limit' g', limit ≤ limit' → mark_cycles limit g = Ok g' →
                    mark_cycles limit' g = Ok g')
    ∧ (∀ r ks l,
         od_keys (build_adjacency g) = r :: ks →
         limit < length (r :: l) →
         NoDup (r :: l) →
         single_chain (edge g) (r :: l) →
         mark_cycles limit g = Raise RecursionError)
    ∧ (∀ n, limit ≤ n → mark_cycles limit (ring_graph n) = Raise RecursionError).
Proof.
  intros O g limit. split; [apply mark_cycles_total|]. split; [|split].
  - intros limit' g'. apply mark_cycles_limit_irrelevant.
  - apply mark_cycles_overflow.
  - intros n. apply mark_cycles_ring.
Qed.

(** ** The construction phase *)

Lemma lib_is_system_add_lib_ne name sub sys ext g x :
  x ≠ name → lib_is_system (add_lib name sub sys ext g) x = lib_is_system g x.
Proof. intros Hne. unfold lib_is_system, add_lib. cbn. by rewrite lookup_insert_ne. Qed.

Lemma build_fold_targets fs : ∀ g x,
  x ∈ target_nodes (fold_left apply_fact fs g) ↔ x ∈ target_nodes g ∨ AddTarget x ∈ fs.
Proof.
  induction fs as [|f fs IH]; intros g x; cbn [fold_left].
  - split; [by left|]. by intros [?|?%elem_of_nil].
  - rewrite IH, elem_of_cons. destruct f as [n|n s sy e|a b]; cbn.
    + rewrite elem_of_union, elem_of_singleton. split.
      * intros [[->|?]|?]; [right; by left|by left|right; by right].
      * intros [?|[[= ->]|?]]; [left; by right|left; by left|by right].
    + split; [intros [?|?]; [by left|right; by right]|].
      intros [?|[[=]|?]]; [by left|by right].
    + unfold add_edge. destruct (str_truthy a && str_truthy b); cbn;
        (split; [intros [?|?]; [by left|right; by right]|]);
        intros [?|[[=]|?]]; [by left|by right|by left|by right].
Qed.

Lemma build_fold_libs fs : ∀ g x,
  x ∈ lib_nodes (fold_left apply_fact fs g)
  ↔ x ∈ lib_nodes g ∨ ∃ s sy e, AddLib x s sy e ∈ fs.
Proof.
  induction fs as [|f fs IH]; intros g x; cbn [fold_left].
  - split; [by left|]. by intros [?|(? & ? & ? & ?%elem_of_nil)].
  - rewrite IH. setoid_rewrite elem_of_cons. destruct f as [n|n s sy e|a b]; cbn.
    + split; [intros [?|(s' & sy' & e' & ?)]; [by left|right; exists s', sy', e'; by right]|].
      intros [?|(s' & sy' & e' & [[=]|?])]; [by left|right; by exists s', sy', e'].
    + rewrite elem_of_union, elem_of_singleton. split.
      * intros [[->|?]|(s' & sy' & e' & ?)];
          [right; exists s, sy, e; by left|by left|right; exists s', sy', e'; by right].
      * intros [?|(s' & sy' & e' & [[= -> -> -> ->]|?])];
          [left; by right|left; by left|right; by exists s', sy', e'].
    + unfold add_edge. destruct (str_truthy a && str_truthy b); cbn;
        (split; [intros [?|(s' & sy' & e' & ?)];
                   [by left|right; exists s', sy', e'; by right]|]);
        intros [?|(s' & sy' & e' & [[=]|?])]; [by left|right; by exists s', sy', e'
                                              |by left|right; by exists s', sy', e'].
Qed.

Lemma build_fold_edges fs : ∀ g e,
  e ∈ edges (fold_left apply_fact fs g)
  ↔ e ∈ edges g
    ∨ (AddEdge e.1 e.2 ∈ fs ∧ str_truthy e.1 = true ∧ str_truthy e.2 = true).
Proof.
  induction fs as [|f fs IH]; intros g e; cbn [fold_left].
  - split; [by left|]. by intros [?|[?%elem_of_nil _]].
  - rewrite IH, elem_of_cons. destruct f as [n|n s sy ex|a b]; cbn.
    + split; [intros [?|[? ?]]; [by left|right; split; [by right|done]]|].
      intros [?|[[[=]|?] ?]]; [by left|by right].
    + split; [intros [?|[? ?]]; [by left|right; split; [by right|done]]|].
      intros [?|[[[=]|?] ?]]; [by left|by right].
    + unfold add_edge. destruct (str_truthy a) eqn:Ha, (str_truthy b) eqn:Hb; cbn.
      * rewrite elem_of_union, elem_of_singleton. split.
        -- intros [[->|?]|[? ?]]; [right|by left|right; split; [by right|done]].
           cbn. split; [by left|done].
        -- intros [?|[[[= Ha' Hb']|?] ?]]; [left; by right| |by right].
           left. left. destruct e; cbn in *. by subst.
      * split; [intros [?|[? ?]]; [by left|right; split; [by right|done]]|].
        intros [?|[[[= Ha' Hb']|?] [H1 H2]]]; [by left| |by right]. congruence.
      * split; [intros [?|[? ?]]; [by left|right; split; [by right|done]]|].
        intros [?|[[[= Ha' Hb']|?] [H1 H2]]]; [by left| |by right]. congruence.
      * split; [intros [?|[? ?]]; [by left|right; split; [by right|done]]|].
        intros [?|[[[= Ha' Hb']|?] [H1 H2]]]; [by left| |by right]. congruence.
Qed.

Lemma build_fold_is_system fs : ∀ g x,
  lib_is_system (fold_left apply_fact fs g) x = true
  ↔ lib_is_system g x = true ∨ ∃ s e, AddLib x s true e ∈ fs.
Proof.
  induction fs as [|f fs IH]; intros g x; cbn [fold_left].
  - split; [by left|]. by intros [?|(? & ? & ?%elem_of_nil)].
  - rewrite IH. setoid_rewrite elem_of_cons. destruct f as [n|n s sy e|a b]; cbn.
    + split; [intros [?|(s' & e' & ?)]; [by left|right; exists s', e'; by right]|].
      intros [?|(s' & e' & [[=]|?])]; [by left|right; by exists s', e'].
    + destruct (decide (x = n)) as [->|Hne].
      * rewrite add_lib_is_system, orb_true_iff. split.
        -- intros [[?| ->]|(s' & e' & ?)];
             [by left|right; exists s, e; by left|right; exists s', e'; by right].
        -- intros [?|(s' & e' & [[= -> <- ->]|?])];
             [left; by left|left; by right|right; by exists s', e'].
      * rewrite lib_is_system_add_lib_ne by done. split.
        -- intros [?|(s' & e' & ?)]; [by left|right; exists s', e'; by right].
        -- intros [?|(s' & e' & [[= -> _ _ _]|?])]; [by left|done|right; by exists s', e'].
    + assert (Hs : lib_is_system (add_edge a b g) x = lib_is_system g x).
      { unfold add_edge. by destruct (str_truthy a && str_truthy b). }
      rewrite Hs. split.
      * intros [?|(s' & e' & ?)]; [by left|right; exists s', e'; by right].
      * intros [?|(s' & e' & [[=]|?])]; [by left|right; by exists s', e'].
Qed.

Lemma apply_fact_cycle_components g f :
  cycle_components (apply_fact g f) = cycle_components g.
Proof.
  destruct f as [n|n s sy e|a b]; cbn; [done|done|].
  unfold add_edge. by destruct (_ && _).
Qed.

Lemma build_fold_cycle_components fs : ∀ g,
  cycle_components (fold_left apply_fact fs g) = cycle_components g.
Proof.
  induction fs as [|f fs IH]; intros g; cbn [fold_left]; [done|].
  by rewrite IH, apply_fact_cycle_components.
Qed.

Lemma lib_ext_default g l : lib_ext g l = meta_ext (default empty_meta (lib_meta g !! l)).
Proof. unfold lib_ext. by destruct (lib_meta g !! l). Qed.

Lemma add_lib_ext_ne name sub sys ext g l :
  l ≠ name → lib_ext (add_lib name sub sys ext g) l = lib_ext g l.
Proof. intros Hne. unfold lib_ext, add_lib. cbn. by rewrite lookup_insert_ne. Qed.

Lemma add_lib_annotations_ne name sub sys ext g l :
  l ≠ name → annotations (add_lib name sub sys ext g) !! l = annotations g !! l.
Proof.
  intros Hne. unfold add_lib. cbn. destruct sub as [s|]; [|done].
  destruct (str_truthy s); [by rewrite lookup_insert_ne|done].
Qed.

Lemma add_lib_annotations_eq name sub sys ext g :
  is_Some (annotations (add_lib name sub sys ext g) !! name) →
  opt_truthy sub = true ∨ is_Some (annotations g !! name).
Proof.
  unfold add_lib. cbn. destruct sub as [s|]; [|by right].
  cbn. destruct (str_truthy s); [by left|by right].
Qed.



(** *** The last registration decides the subtitle and the ext *)















(** ** Properties of the exports *)



Section export_claims.
Context `{SetOrder}.

End export_claims.



(** The same facts in the same order, under two iteration orders of the
    sets: the JSON payload lists the cycle components in different orders. *)
Lemma json_components_depend_on_iteration_order :
  ∃ g1 g2,
    @analyse elements_order 1000 no_filters two_loops_facts = Ok g1
    ∧ @analyse reversed_order 1000 no_filters two_loops_facts = Ok g2
    ∧ cycles_components
        (@export_json elements_order unit g1 "2026-01-01T00:00:00" "/repo" tt default_colors)
      = [["A"]; ["B"]]
    ∧ cycles_components
        (@export_json reversed_order unit g2 "2026-01-01T00:00:00" "/repo" tt default_colors)
      = [["B"]; ["A"]].
Proof.
  eexists _, _. split; [vm_compute; reflexivity|]. split; [vm_compute; reflexivity|].
  split; vm_compute; reflexivity.
Qed.


(** ** Properties of registration *)

(** C6.  Registering the same target, library or edge twice gives the same
    graph as registering it once.  Across registrations of one library
    name the metadata accumulates: [is_system] is the disjunction of the
    stored flag and the new one, so that after any sequence of builder
    calls the library is system iff it was before or one of the
    registrations of its name marked it system; and an [ext] that is set
    survives a later registration whose [ext] is absent. *)
Theorem registration_idempotent_and_monotone :
  ∀ (g : Graph),
    (∀ name, add_target name (add_target name g) = add_target name g)
    ∧ (∀ name sub sys ext,
         add_lib name sub sys ext (add_lib name sub sys ext g)
         = add_lib name sub sys ext g)
    ∧ (∀ src dst, add_edge src dst (add_edge src dst g) = add_edge src dst g)
    ∧ (∀ name sub sys ext,
         lib_is_system (add_lib name sub sys ext g) name
         = lib_is_system g name || sys)
    ∧ (∀ name sub1 sys1 ext1 sub2 sys2 ext2,
         lib_is_system
           (add_lib name sub2 sys2 ext2 (add_lib name sub1 sys1 ext1 g)) name
         = lib_is_system g name || sys1 || sys2)
    ∧ (∀ name sub1 sys1 e sub2 sys2,
         lib_ext (add_lib name sub2 sys2 None (add_lib name sub1 sys1 (Some e) g)) name
         = Some e)
    ∧ (∀ name sub sys e,
         lib_ext g name = Some e →
         lib_ext (add_lib name sub sys None g) name = Some e)
    ∧ (∀ (facts : list fact) name,
         lib_is_system (fold_left apply_fact facts g) name = true
         ↔ lib_is_system g name = true
           ∨ ∃ sub ext, AddLib name sub true ext ∈ facts).
Proof.
  intros g. split; [|split; [|split; [|split; [|split; [|split; [|split]]]]]].
  - intros. apply add_target_idem.
  - intros. apply add_lib_idem.
  - intros. apply add_edge_idem.
  - intros. apply add_lib_is_system.
  - intros. rewrite !add_lib_is_system. reflexivity.
  - intros. rewrite !add_lib_ext. reflexivity.
  - intros name sub sys e He. rewrite add_lib_ext. exact He.
  - intros facts name. apply build_fold_is_system.
Qed.

(** C10.  The subtitle of a library follows the last non-empty writer: a
    later [add_lib] with an absent or empty subtitle keeps the stored
    annotation, a later one with a non-empty subtitle replaces it. *)
Theorem add_lib_subtitle_last_nonempty_wins :
  ∀ (g : Graph) (name old : string),
    annotations g !! name = Some old →
    (∀ sys ext, annotations (add_lib name None sys ext g) !! name = Some old)
    ∧ (∀ sys ext, annotations (add_lib name (Some "") sys ext g) !! name = Some old)
    ∧ (∀ new sys ext,
         str_truthy new = true →
         annotations (add_lib name (Some new) sys ext g) !! name = Some new).
Proof.
  intros g name old Hold. repeat split.
  - intros. exact Hold.
  - intros. exact Hold.
  - intros new sys ext Hnew. unfold add_lib; simpl. rewrite Hnew.
    apply lookup_insert_eq.
Qed.

Lemma add_lib_subtitle_last_nonempty_wins_witness :
  let g := add_lib "Alamofire" (Some "https://a.example/x.git") false (Some "spm") new_graph in
  annotations g !! "Alamofire" = Some "https://a.example/x.git"
  ∧ annotations (add_lib "Alamofire" None false None g) !! "Alamofire"
    = Some "https://a.example/x.git"
  ∧ annotations (add_lib "Alamofire" (Some "Swift Package") false None g) !! "Alamofire"
    = Some "Swift Package".
Proof.
  intros g.
  assert (H : annotations g !! "Alamofire" = Some "https://a.example/x.git")
    by (apply lookup_insert_eq).
  destruct (add_lib_subtitle_last_nonempty_wins g "Alamofire" _ H) as (H1 & _ & H3).
  split; [exact H|]. split; [apply H1|apply H3; reflexivity].
Defined.


(** ** The scenarios, evaluated *)

Example scenario_A_no_cycle :
  @lib_in_degree elements_order scenario_A "LibA" = 2
  ∧ (cycle_components <$> @mark_cycles elements_order 1000 scenario_A) = Ok []
  ∧ (cycle_edges <$> @mark_cycles elements_order 1000 scenario_A) = Ok ∅.
Proof. repeat split; vm_compute; reflexivity. Qed.

Example scenario_C_self_loop :
  (cycle_components <$> @mark_cycles elements_order 1000 scenario_C) = Ok [["Z"]]
  ∧ (elements ∘ cycle_edges <$> @mark_cycles elements_order 1000 scenario_C)
    = Ok [("Z", "Z")].
Proof. repeat split; vm_compute; reflexivity. Qed.

Example scenario_B_evaluated :
  (cycle_components <$> @mark_cycles elements_order 1000 scenario_B) = Ok [["X"; "Y"]]
  ∧ (cycle_components <$> @mark_cycles reversed_order 1000 scenario_B) = Ok [["X"; "Y"]].
Proof. repeat split; vm_compute; reflexivity. Qed.

(** ** Paths and names *)

Lemma append_String c s t : String c s +:+ t = String c (s +:+ t).
Proof. reflexivity. Qed.

Lemma append_Empty t : "" +:+ t = t.
Proof. reflexivity. Qed.

Lemma endswith_empty s : endswith s "" = true.
Proof.
  induction s as [|c s IH]; [reflexivity|].
  cbn [endswith]. rewrite IH. apply orb_true_r.
Qed.

Lemma endswith_refl s : endswith s s = true.
Proof. destruct s; cbn [endswith]; rewrite String.eqb_refl; reflexivity. Qed.

Lemma endswith_app s suffix : endswith (s +:+ suffix) suffix = true.
Proof.
  induction s as [|c s IH]; [apply endswith_refl|].
  rewrite append_String. cbn [endswith]. rewrite IH. apply orb_true_r.
Qed.

Lemma endswith_inv s suffix :
  endswith s suffix = true → ∃ front, s = front +:+ suffix.
Proof.
  induction s as [|c s IH]; cbn [endswith]; intros Hs.
  - apply orb_true_iff in Hs as [Hs|?]; [|done].
    apply String.eqb_eq in Hs as <-. by exists "".
  - apply orb_true_iff in Hs as [Hs|Hs].
    + apply String.eqb_eq in Hs as <-. by exists "".
    + destruct (IH Hs) as [front ->]. by exists (String c front).
Qed.

(** The last character of a string. *)
Lemma app_last_char_inj s1 s2 c1 c2 :
  s1 +:+ String c1 "" = s2 +:+ String c2 "" → c1 = c2.
Proof.
  revert s2. induction s1 as [|a s1 IH]; intros [|b s2];
    rewrite ?append_String, ?append_Empty; intros Heq.
  - by injection Heq.
  - injection Heq as _ Heq. destruct s2; discriminate.
  - injection Heq as _ Heq. destruct s1; discriminate.
  - injection Heq as _ Heq. by apply IH in Heq.
Qed.

Lemma append_assoc s1 s2 s3 : (s1 +:+ s2) +:+ s3 = s1 +:+ (s2 +:+ s3).
Proof.
  induction s1 as [|c s1 IH]; rewrite ?append_String, ?append_Empty; [done|by rewrite IH].
Qed.

Lemma endswith_last_char s1 s2 c1 c2 :
  c1 ≠ c2 → endswith (s1 +:+ String c1 "") (s2 +:+ String c2 "") = false.
Proof.
  intros Hne. apply not_true_is_false. intros [front Heq]%endswith_inv.
  rewrite <- append_assoc in Heq. by apply app_last_char_inj in Heq.
Qed.

Lemma lower_app s1 s2 : lower (s1 +:+ s2) = lower s1 +:+ lower s2.
Proof.
  induction s1 as [|c s1 IH]; rewrite ?append_String, ?append_Empty; cbn [lower];
    [done|by rewrite IH].
Qed.

Lemma has_char_app c s1 s2 : has_char c (s1 +:+ s2) = has_char c s1 || has_char c s2.
Proof.
  induction s1 as [|a s1 IH]; rewrite ?append_String, ?append_Empty; cbn [has_char];
    [done|].
  by rewrite IH, orb_assoc.
Qed.

Lemma basename_no_slash p : has_char "/" p = false → basename p = p.
Proof.
  destruct p as [|c p]; [done|]. cbn [has_char basename]. by intros ->.
Qed.

Lemma basename_has_no_slash p : has_char "/" (basename p) = false.
Proof.
  induction p as [|c p IH]; [done|]. cbn [basename].
  destruct (_ || _) eqn:Hs; [done|]. cbn [has_char]. exact Hs.
Qed.

Lemma basename_after_slash dir name :
  has_char "/" name = false → basename (dir +:+ "/" +:+ name) = name.
Proof.
  intros Hname. induction dir as [|c dir IH];
    rewrite ?append_String, ?append_Empty; cbn [basename].
  - rewrite Ascii.eqb_refl. cbn [orb]. by apply basename_no_slash.
  - rewrite has_char_app. cbn [has_char]. rewrite Ascii.eqb_refl.
    cbn [orb]. rewrite !orb_true_r. exact IH.
Qed.

Lemma rfind_None c s : rfind c s = None ↔ has_char c s = false.
Proof.
  induction s as [|a s IH]; cbn [rfind has_char]; [done|].
  destruct (rfind c s) as [i|].
  - split; [done|]. intros [_ Hs]%orb_false_iff. by apply IH in Hs.
  - destruct IH as [IH _]. rewrite IH by done. rewrite orb_false_r.
    by destruct (Ascii.eqb a c).
Qed.

Lemma rfind_app_last c s t :
  has_char c t = false → rfind c (s +:+ String c t) = Some (String.length s).
Proof.
  intros Ht. apply rfind_None in Ht.
  induction s as [|a s IH]; rewrite ?append_String, ?append_Empty;
    cbn [rfind String.length].
  - by rewrite Ht, Ascii.eqb_refl.
  - by rewrite IH.
Qed.

Lemma substring_app_front s t : substring 0 (String.length s) (s +:+ t) = s.
Proof.
  induction s as [|a s IH]; rewrite ?append_String, ?append_Empty;
    cbn [String.length substring].
  - by destruct t.
  - by rewrite IH.
Qed.

Lemma splitext_root_app name ext :
  has_char "/" name = false → all_dots name = false →
  has_char "/" ext = false → has_char "." ext = false →
  splitext_root (name +:+ String "." ext) = name.
Proof.
  intros Hslash Hdots Hslash' Hdot. unfold splitext_root.
  rewrite rfind_app_last by done.
  assert (rfind "/" (name +:+ String "." ext) = None) as ->.
  { apply rfind_None. rewrite has_char_app. cbn [has_char]. rewrite Hslash, Hslash'. done. }
  cbn [Nat.leb]. rewrite Nat.sub_0_r, substring_app_front, Hdots. done.
Qed.

(** [".framework"] does not overlap itself: an occurrence that starts inside
    [s] and reaches into a following [".framework"] lies within [s]. *)
Lemma framework_no_overlap s :
  String.prefix ".framework" (s +:+ ".framework") = true →
  s = "" ∨ String.prefix ".framework" s = true.
Proof.
  intros Hp.
  do 10 (destruct s as [|? s]; [first [by left | exfalso; revert Hp; cbn;
    repeat (destruct (ascii_dec _ _); [|discriminate]); discriminate]|];
    revert Hp; rewrite append_String; cbn [String.prefix];
    destruct (ascii_dec _ _) as [<-|]; [|discriminate]; intros Hp).
  right. cbn. repeat (destruct (ascii_dec _ _); [|done]). by destruct s.
Qed.

Lemma replace_framework_app name :
  contains ".framework" name = false →
  replace ".framework" "" (name +:+ ".framework") = name.
Proof.
  unfold replace. induction name as [|c name IH]; [done|].
  cbn [contains]. intros [Hp Hc]%orb_false_iff.
  change (String c name +:+ ".framework") with (String c (name +:+ ".framework")).
  cbn [replace_from].
  destruct (String.prefix ".framework" (String c (name +:+ ".framework"))) eqn:Hp'.
  - apply (framework_no_overlap (String c name)) in Hp' as [?|Hp']; [done|].
    by rewrite Hp in Hp'.
  - by rewrite IH.
Qed.

(** X1.  [ext_from_path] and [is_library_like] agree: a path is
    library-like exactly when [ext_from_path] gives it a suffix.  The
    suffix is one of the four known ones, and the lower-cased path ends
    with it. *)
Theorem ext_from_path_agrees_with_is_library_like p :
  (is_library_like p = true ↔ ext_from_path p ≠ "")
  ∧ (ext_from_path p = "" ∨ ext_from_path p ∈ [".framework"; ".a"; ".tbd"; ".dylib"])
  ∧ endswith (lower p) (ext_from_path p) = true.
Proof.
  unfold is_library_like, ext_from_path. cbn [existsb].
  destruct (endswith (lower p) ".framework") eqn:H1.
  { split; [done|]. split; [right; set_solver|done]. }
  destruct (endswith (lower p) ".a") eqn:H2.
  { split; [done|]. split; [right; set_solver|done]. }
  destruct (endswith (lower p) ".tbd") eqn:H3.
  { split; [done|]. split; [right; set_solver|done]. }
  destruct (endswith (lower p) ".dylib") eqn:H4.
  { split; [done|]. split; [right; set_solver|done]. }
  split; [done|]. split; [by left|apply endswith_empty].
Qed.

(** X2.  The name of a library file is its file name without directory
    and suffix: for a path [dir/name.ext] (or [name.ext]) with one of the
    four suffixes in lower case, [basename_without_ext] returns [name],
    when [name] has no ["/"], does not contain [".framework"] in the
    framework case, and is not made of dots only in the other cases. *)
Theorem basename_without_ext_round_trip dir name ext :
  ext ∈ [".framework"; ".a"; ".tbd"; ".dylib"] →
  has_char "/" name = false →
  (ext = ".framework" → contains ".framework" name = false) →
  (ext ≠ ".framework" → all_dots name = false) →
  basename_without_ext (dir +:+ "/" +:+ name +:+ ext) = name
  ∧ basename_without_ext (name +:+ ext) = name.
Proof.
  intros Hext Hslash Hfw Hdots.
  assert (Hbase : has_char "/" (name +:+ ext) = false).
  { rewrite has_char_app, Hslash. cbn [orb].
    repeat (apply elem_of_cons in Hext as [->|Hext]; [reflexivity|]).
    by apply elem_of_nil in Hext. }
  unfold basename_without_ext.
  rewrite basename_after_slash, basename_no_slash by done.
  assert (Hlast : ∀ e c t, e = t +:+ String c "" → c ≠ "k"%char →
            endswith (name +:+ e) ".framework" = false).
  { intros e c t -> Hc. rewrite <- append_assoc.
    change ".framework" with (".framewor" +:+ String "k" "").
    by apply endswith_last_char. }
  apply elem_of_cons in Hext as [->|Hext].
  { rewrite endswith_app, replace_framework_app by auto. done. }
  apply elem_of_cons in Hext as [->|Hext].
  { rewrite (Hlast ".a" "a"%char ".") by done.
    rewrite endswith_app, !orb_true_r, splitext_root_app by auto. done. }
  apply elem_of_cons in Hext as [->|Hext].
  { rewrite (Hlast ".tbd" "d"%char ".tb") by done.
    rewrite endswith_app. cbn [orb]. rewrite splitext_root_app by auto. done. }
  apply elem_of_cons in Hext as [->|Hext].
  { rewrite (Hlast ".dylib" "b"%char ".dyli") by done.
    rewrite endswith_app, orb_true_r. cbn [orb]. rewrite splitext_root_app by auto. done. }
  by apply elem_of_nil in Hext.
Qed.

Lemma basename_without_ext_round_trip_witness :
  basename_without_ext ("Pods/Build" +:+ "/" +:+ "libz.1" +:+ ".tbd") = "libz.1"
  ∧ basename_without_ext ("libz.1" +:+ ".tbd") = "libz.1".
Proof.
  apply (basename_without_ext_round_trip "Pods/Build" "libz.1" ".tbd").
  - set_solver.
  - reflexivity.
  - discriminate.
  - reflexivity.
Defined.

(** *** [slugify] *)

Lemma sub_unsafe_safe s : ∀ in_run, all_safe (sub_unsafe in_run s) = true.
Proof.
  induction s as [|c s IH]; intros in_run; cbn [sub_unsafe]; [done|].
  destruct (is_safe c) eqn:Hc.
  - cbn [all_safe]. by rewrite Hc, IH.
  - destruct in_run; [apply IH|]. cbn [all_safe]. by rewrite IH.
Qed.

Lemma sub_unsafe_id s : all_safe s = true → sub_unsafe false s = s.
Proof.
  induction s as [|c s IH]; cbn [all_safe sub_unsafe]; [done|].
  intros [-> Hs]%andb_true_iff. by rewrite IH.
Qed.

Lemma is_safe_not_space c : is_safe c = true → is_space c = false.
Proof.
  destruct c as [[] [] [] [] [] [] [] []]; vm_compute; congruence.
Qed.

Lemma rstrip_id s : all_safe s = true → rstrip s = s.
Proof.
  induction s as [|c s IH]; cbn [all_safe rstrip]; [done|].
  intros [Hc Hs]%andb_true_iff. by rewrite IH, (is_safe_not_space c Hc).
Qed.

Lemma strip_id s : all_safe s = true → strip s = s.
Proof.
  intros Hs. unfold strip.
  assert (lstrip s = s) as ->; [|by apply rstrip_id].
  destruct s as [|c s]; [done|]. cbn [all_safe] in Hs.
  apply andb_true_iff in Hs as [Hc _]. cbn [lstrip].
  by rewrite (is_safe_not_space c Hc).
Qed.

Lemma slugify_all_safe name : all_safe (slugify name) = true.
Proof.
  unfold slugify. destruct (str_truthy _); [apply sub_unsafe_safe|reflexivity].
Qed.

Lemma slugify_nonempty name : slugify name ≠ "".
Proof.
  unfold slugify. destruct (sub_unsafe false (strip name)) eqn:Hs; cbn; done.
Qed.

Lemma has_char_unsafe c s : is_safe c = false → all_safe s = true → has_char c s = false.
Proof.
  intros Hc. induction s as [|a s IH]; cbn [all_safe has_char]; [done|].
  intros [Ha Hs]%andb_true_iff. rewrite (IH Hs), orb_false_r.
  apply not_true_is_false. intros Heq%Ascii.eqb_eq. congruence.
Qed.

(** X3.  A slug is a usable file name: it is never empty, is made only of
    the characters [A-Za-z0-9._-], and so holds no ["/"] and no blank. *)
Theorem slugify_is_safe name :
  slugify name ≠ ""
  ∧ all_safe (slugify name) = true
  ∧ has_char "/" (slugify name) = false
  ∧ has_char " " (slugify name) = false.
Proof.
  split; [apply slugify_nonempty|]. split; [apply slugify_all_safe|].
  split; apply has_char_unsafe; first [reflexivity | apply slugify_all_safe].
Qed.

(** X4.  [slugify] is idempotent, and it leaves unchanged every non-empty
    name that is already made of safe characters. *)
Theorem slugify_idempotent name :
  slugify (slugify name) = slugify name
  ∧ (name ≠ "" → all_safe name = true → slugify name = name).
Proof.
  assert (Hid : ∀ s, s ≠ "" → all_safe s = true → slugify s = s).
  { intros s Hne Hs. unfold slugify. rewrite strip_id, sub_unsafe_id by done.
    by destruct s. }
  split; [|apply Hid].
  apply Hid; [apply slugify_nonempty|apply slugify_all_safe].
Qed.

(** *** Colours *)

Lemma override_hex val cur :
  is_hex_color (Some cur) = true → is_hex_color (Some (override val cur)) = true.
Proof.
  intros Hcur. unfold override. destruct val as [v|]; [|done].
  destruct (str_truthy v); [|done].
  by destruct (is_hex_color (Some v)) eqn:Hv.
Qed.

(** X5.  Whatever is given on the command line, every entry of the colour
    table that [apply_color_overrides] returns is a colour of the form
    [#rrggbb]: an override that is not one never reaches the table. *)
Theorem apply_color_overrides_all_hex args :
  all_hex_colors (apply_color_overrides args) = true.
Proof.
  unfold all_hex_colors, apply_color_overrides.
  cbn [forallb target_fill target_stroke lib3p_fill lib3p_stroke libsys_fill
       libsys_stroke cycle_fill cycle_stroke focus_fill focus_stroke color_edge
       color_edge_cycle color_edge_tt color_edge_peer].
  rewrite !override_hex by reflexivity. reflexivity.
Qed.

(** ** Graph queries *)

Section query_claims.
Context `{SetOrder}.

Lemma elem_of_targets_linking_lib g lib t :
  t ∈ targets_linking_lib g lib ↔ t ∈ target_nodes g ∧ (t, lib) ∈ edges g.
Proof.
  unfold targets_linking_lib. rewrite elem_of_list_to_set, list_elem_of_fmap. split.
  - intros ([a b] & -> & [[Hb Ha] Hin]%list_elem_of_filter).
    cbn in *. subst b. by apply elem_of_iter_pairs in Hin.
  - intros [Ht Hin]. exists (t, lib). split; [done|].
    apply list_elem_of_filter. split; [done|]. by apply elem_of_iter_pairs.
Qed.

Lemma elem_of_libs_linked_by_targets g targets l :
  l ∈ libs_linked_by_targets g targets
  ↔ l ∈ lib_nodes g ∧ ∃ t, t ∈ targets ∧ (t, l) ∈ edges g.
Proof.
  unfold libs_linked_by_targets. rewrite elem_of_list_to_set, list_elem_of_fmap. split.
  - intros ([a b] & -> & [[Ha Hb] Hin]%list_elem_of_filter).
    cbn in *. split; [done|]. exists a. by apply elem_of_iter_pairs in Hin.
  - intros [Hl (t & Ht & Hin)]. exists (t, l). split; [done|].
    apply list_elem_of_filter. split; [done|]. by apply elem_of_iter_pairs.
Qed.

Lemma lib_in_degree_size g lib :
  lib_in_degree g lib = size (targets_linking_lib g lib).
Proof.
  unfold lib_in_degree, targets_linking_lib.
  rewrite size_list_to_set, length_map; [done|].
  apply NoDup_fmap_2_strong.
  - intros [a1 b1] [a2 b2] [[Hb1 _] _]%list_elem_of_filter [[Hb2 _] _]%list_elem_of_filter.
    cbn in *. congruence.
  - apply NoDup_filter, NoDup_iter_pairs.
Qed.

(** X6.  The in-degree of a library is the number of distinct registered
    targets that have an edge to it, which are the members of
    [targets_linking_lib]. *)
Theorem lib_in_degree_counts_linking_targets g lib :
  lib_in_degree g lib = size (targets_linking_lib g lib)
  ∧ ∀ t, t ∈ targets_linking_lib g lib ↔ t ∈ target_nodes g ∧ (t, lib) ∈ edges g.
Proof.
  split.
  - unfold lib_in_degree, targets_linking_lib.
    rewrite size_list_to_set, length_map; [done|].
    apply NoDup_fmap_2_strong; [|apply NoDup_filter, NoDup_iter_pairs].
    intros [a1 b1] [a2 b2] [[Hb1 _] _]%list_elem_of_filter [[Hb2 _] _]%list_elem_of_filter.
    cbn in *. congruence.
  - intros t. unfold targets_linking_lib.
    rewrite elem_of_list_to_set, list_elem_of_fmap. split.
    + intros ([a b] & -> & [[Hb Ha] Hin]%list_elem_of_filter).
      cbn in *. subst b. by apply elem_of_iter_pairs in Hin.
    + intros [Ht Hin]. exists (t, lib). split; [done|].
      apply list_elem_of_filter. split; [done|]. by apply elem_of_iter_pairs.
Qed.

(** X7.  The peer libraries of a framework view are the registered
    libraries, other than the framework itself, that share a linking
    target with it; there are none when peers are not asked for. *)
Theorem peer_libs_share_a_target g framework l :
  (l ∈ peer_libs g framework true
   ↔ l ≠ framework ∧ l ∈ lib_nodes g
     ∧ ∃ t, t ∈ target_nodes g ∧ (t, framework) ∈ edges g ∧ (t, l) ∈ edges g)
  ∧ peer_libs g framework false = ∅.
Proof.
  split; [|done]. unfold peer_libs. cbn [andb].
  unfold set_truthy. case_bool_decide as Hne.
  - rewrite elem_of_difference, elem_of_libs_linked_by_targets, not_elem_of_singleton.
    setoid_rewrite elem_of_targets_linking_lib. naive_solver.
  - split; [by intros ?%not_elem_of_empty|].
    intros (_ & _ & t & Ht & Hin & _). exfalso.
    apply (not_elem_of_empty (C:=gset string) t).
    rewrite <- Hne. by apply elem_of_targets_linking_lib.
Qed.

Lemma lib_in_degree_pos g t lib :
  t ∈ target_nodes g → (t, lib) ∈ edges g → 1 ≤ lib_in_degree g lib.
Proof.
  intros Ht Hin. rewrite lib_in_degree_size.
  assert (Hsub : ({[t]} : gset string) ⊆ targets_linking_lib g lib).
  { apply singleton_subseteq_l. by apply elem_of_targets_linking_lib. }
  apply subseteq_size in Hsub. by rewrite size_singleton in Hsub.
Qed.

(** X8.  When every edge starts at a registered target, every library
    that survives the filters is still linked by a surviving target: its
    in-degree in the filtered graph is at least one. *)
Theorem filtered_libraries_are_linked f keep g l :
  (∀ a b, (a, b) ∈ edges g → a ∈ target_nodes g) →
  l ∈ lib_nodes (apply_filters f keep g) →
  1 ≤ lib_in_degree (apply_filters f keep g) l.
Proof.
  intros Hsrc [_ [a Ha]]%apply_filters_lib_nodes.
  apply (lib_in_degree_pos _ a); [|done].
  apply apply_filters_target_nodes. split.
  - apply apply_filters_edges in Ha as [Ha _]. by apply (Hsrc a l).
  - left. by exists (a, l); split; [|left].
Qed.
End query_claims.

Lemma filtered_libraries_are_linked_witness :
  1 ≤ @lib_in_degree elements_order
        (@apply_filters elements_order (mkFilters [] [contains "Core"] [] [] ∅ ∅) true
           scenario_A) "LibA".
Proof.
  apply (@filtered_libraries_are_linked elements_order).
  - intros a b Hab. unfold scenario_A in *. cbn in Hab.
    assert ((a = "App" ∧ b = "Core") ∨ (a = "Core" ∧ b = "LibA")
            ∨ (a = "App" ∧ b = "LibA")) as [[-> ->]|[[-> ->]|[-> ->]]]
      by set_solver; cbn; set_solver.
  - vm_compute. reflexivity.
Defined.

(** ** The frameworks of the per-framework export *)

Lemma insert_by_perm {A} (le : A → A → bool) x l : insert_by le x l ≡ₚ x :: l.
Proof.
  induction l as [|y l IH]; cbn [insert_by]; [done|].
  destruct (le x y); [done|]. rewrite IH. apply Permutation_swap.
Qed.

Lemma sorted_by_perm {A} (le : A → A → bool) l : sorted_by le l ≡ₚ l.
Proof.
  unfold sorted_by. induction l as [|x l IH]; cbn [foldr]; [done|].
  by rewrite insert_by_perm, IH.
Qed.

Lemma insert_by_sorted {A} (le : A → A → bool) x l :
  (∀ a b, le a b = false → le b a = true) →
  (∀ a b c, le a b = true → le b c = true → le a c = true) →
  StronglySorted (λ a b, le a b = true) l →
  StronglySorted (λ a b, le a b = true) (insert_by le x l).
Proof.
  intros Htot Htrans. induction l as [|y l IH]; cbn [insert_by]; intros Hs.
  - repeat constructor.
  - apply StronglySorted_inv in Hs as Hs'. destruct Hs' as [Hl Hy].
    destruct (le x y) eqn:Hxy.
    + constructor; [done|]. constructor; [done|].
      eapply Forall_impl; [exact Hy|]. intros z Hz. by apply (Htrans x y z).
    + constructor; [by apply IH|].
      rewrite insert_by_perm. constructor; [by apply Htot|done].
Qed.

Lemma sorted_by_sorted {A} (le : A → A → bool) l :
  (∀ a b, le a b = false → le b a = true) →
  (∀ a b c, le a b = true → le b c = true → le a c = true) →
  StronglySorted (λ a b, le a b = true) (sorted_by le l).
Proof.
  intros Htot Htrans. unfold sorted_by.
  induction l as [|x l IH]; cbn [foldr]; [constructor|].
  by apply insert_by_sorted.
Qed.

Lemma StronglySorted_filter {A} (R : relation A) (P : A → Prop) `{∀ x, Decision (P x)} l :
  StronglySorted R l → StronglySorted R (filter P l).
Proof.
  induction 1 as [|x l Hs IH Hx]; [constructor|].
  rewrite filter_cons. destruct (decide (P x)); [|done].
  constructor; [done|]. apply Forall_forall. intros y [_ Hy]%list_elem_of_filter.
  rewrite Forall_forall in Hx. by apply Hx.
Qed.

Lemma StronglySorted_impl {A} (R1 R2 : relation A) l :
  (∀ x y, R1 x y → R2 x y) → StronglySorted R1 l → StronglySorted R2 l.
Proof.
  intros Himpl. induction 1 as [|x l Hs IH Hx]; constructor; [done|].
  eapply Forall_impl; [exact Hx|]. intros y. apply Himpl.
Qed.

Section split_claims.
Context `{SetOrder}.
Variable str_lower : string → string.

Lemma split_key_le_spec g a b :
  split_key_le (split_key str_lower g a) (split_key str_lower g b) = true ↔ split_before str_lower g a b.
Proof.
  unfold split_key_le, split_key, split_before, str_le. cbn [fst snd].
  destruct (Z.eqb_spec (- Z.of_nat (lib_in_degree g a)) (- Z.of_nat (lib_in_degree g b)))
    as [Heq|Hne].
  - split; [intros ?; right; split; [lia|done]|]. intros [?|[_ ?]]; [lia|done].
  - rewrite Z.ltb_lt. split; [intros ?; left; lia|]. intros [?|[? _]]; lia.
Qed.

Lemma split_before_total g a b : ¬ split_before str_lower g a b → split_before str_lower g b a.
Proof.
  unfold split_before. intros Hn.
  destruct (lt_eq_lt_dec (lib_in_degree g a) (lib_in_degree g b)) as [[?|Heq]|?].
  - by left.
  - right. split; [done|].
    destruct (total str_le (str_lower a) (str_lower b)) as [?|?]; [|done].
    exfalso. apply Hn. by right.
  - exfalso. apply Hn. by left.
Qed.

Lemma split_before_trans g a b c :
  split_before str_lower g a b → split_before str_lower g b c → split_before str_lower g a c.
Proof.
  unfold split_before. intros [?|[? ?]] [?|[? ?]]; [left; lia..|].
  right. split; [lia|]. by etrans.
Qed.

Lemma split_sorted g :
  StronglySorted (split_before str_lower g)
    (sorted_by (λ a b, split_key_le (split_key str_lower g a) (split_key str_lower g b))
               (iter_names (lib_nodes g))).
Proof.
  eapply StronglySorted_impl; [|apply sorted_by_sorted].
  - intros x y Hxy. by apply split_key_le_spec.
  - intros a b Hab. apply split_key_le_spec, split_before_total.
    rewrite <- split_key_le_spec. by rewrite Hab.
  - intros a b c Hab Hbc. apply split_key_le_spec.
    apply (split_before_trans g a b c); by apply split_key_le_spec.
Qed.

(** X9.  The frameworks taken by the per-framework export: they are
    distinct libraries of the graph that pass [--split-min-degree], listed
    by decreasing in-degree and then by lower-cased name, whatever
    [str.lower] maps a name to; a positive [--split-max] bounds their
    number and keeps the first ones in that order, so every library left
    out comes after every library taken; with no positive bound every
    library that passes is taken. *)
Theorem split_selection_takes_most_linked g split_max split_min_degree :
  NoDup (split_selection str_lower g split_max split_min_degree)
  ∧ StronglySorted (split_before str_lower g) (split_selection str_lower g split_max split_min_degree)
  ∧ (∀ l, l ∈ split_selection str_lower g split_max split_min_degree →
          l ∈ lib_nodes g ∧ split_eligible g split_min_degree l)
  ∧ ((0 < split_max)%Z →
     length (split_selection str_lower g split_max split_min_degree) ≤ Z.to_nat split_max)
  ∧ (∀ s l, s ∈ split_selection str_lower g split_max split_min_degree →
            l ∈ lib_nodes g → split_eligible g split_min_degree l →
            l ∉ split_selection str_lower g split_max split_min_degree →
            split_before str_lower g s l)
  ∧ ((split_max ≤ 0)%Z →
     ∀ l, l ∈ lib_nodes g → split_eligible g split_min_degree l →
          l ∈ split_selection str_lower g split_max split_min_degree).
Proof.
  unfold split_selection.
  set (L0 := sorted_by _ (iter_names (lib_nodes g))).
  set (L1 := if (1 <? split_min_degree)%Z
             then filter (λ l, (split_min_degree ≤ Z.of_nat (lib_in_degree g l))%Z) L0
             else L0).
  assert (Hperm0 : L0 ≡ₚ iter_names (lib_nodes g)) by apply sorted_by_perm.
  assert (Hnd0 : NoDup L0) by (rewrite Hperm0; apply NoDup_iter_names).
  assert (Hs0 : StronglySorted (split_before str_lower g) L0) by apply split_sorted.
  assert (Hin0 : ∀ l, l ∈ L0 ↔ l ∈ lib_nodes g).
  { intros l. by rewrite Hperm0, elem_of_iter_names. }
  assert (Hnd1 : NoDup L1).
  { unfold L1. destruct (1 <? split_min_degree)%Z; [by apply NoDup_filter|done]. }
  assert (Hs1 : StronglySorted (split_before str_lower g) L1).
  { unfold L1. destruct (1 <? split_min_degree)%Z; [by apply StronglySorted_filter|done]. }
  assert (Hin1 : ∀ l, l ∈ L1 ↔ l ∈ lib_nodes g ∧ split_eligible g split_min_degree l).
  { intros l. unfold L1, split_eligible.
    destruct (Z.ltb_spec 1 split_min_degree) as [Hlt|Hge].
    - rewrite list_elem_of_filter, Hin0. naive_solver.
    - rewrite Hin0. split; [intros ?; split; [done|lia]|by intros [? _]]. }
  clearbody L1. clear L0 Hperm0 Hnd0 Hs0 Hin0.
  destruct (bool_decide (split_max ≠ 0%Z) && (0 <? split_max)%Z) eqn:Hmax.
  - apply andb_true_iff in Hmax as [_ Hpos%Z.ltb_lt].
    pose proof (take_drop (Z.to_nat split_max) L1) as Hsplit.
    rewrite <- Hsplit in Hnd1, Hs1.
    apply NoDup_app in Hnd1 as (Hndt & Hdisj & _).
    apply StronglySorted_app in Hs1 as (Hcross & Hst & _).
    split; [done|]. split; [done|]. split; [|split; [|split]].
    + intros l Hl. apply Hin1. rewrite <- Hsplit. apply elem_of_app. by left.
    + intros _. rewrite length_take. lia.
    + intros s l Hs Hl Hel Hnot. apply Hcross; [done|].
      assert (l ∈ take (Z.to_nat split_max) L1 ++ drop (Z.to_nat split_max) L1)
        as [?|?]%elem_of_app; [|done..].
      rewrite Hsplit. by apply Hin1.
    + lia.
  - split; [done|]. split; [done|]. split; [|split; [|split]].
    + intros l. apply Hin1.
    + intros Hpos. exfalso. apply andb_false_iff in Hmax as [Hz|Hz].
      * apply bool_decide_eq_false in Hz. lia.
      * apply Z.ltb_ge in Hz. lia.
    + intros s l _ Hl Hel Hnot. exfalso. apply Hnot. by apply Hin1.
    + intros _ l Hl Hel. by apply Hin1.
Qed.
End split_claims.

(** ** The parser *)

Lemma od_insert_wf {V} k (v : V) d : od_wf d → od_wf (od_insert k v d).
Proof.
  intros Hwf x. unfold od_insert. cbn [od_keys od_map].
  rewrite lookup_insert_is_Some'. case_bool_decide as Hk.
  - rewrite (Hwf x). apply elem_of_dom in Hk. split; [by right|]. by intros [<-|?].
  - rewrite elem_of_app, list_elem_of_singleton, (Hwf x). naive_solver.
Qed.

Lemma elem_of_od_items {V} (d : odict V) item :
  item ∈ od_items d ↔ item.1 ∈ od_keys d ∧ od_map d !! item.1 = Some item.2.
Proof.
  unfold od_items. rewrite list_elem_of_omap. split.
  - intros (k & Hk & Hv). destruct (od_map d !! k) as [v|] eqn:Hkv; [|done].
    cbn in Hv. by simplify_eq.
  - intros [Hk Hv]. exists item.1. split; [done|]. rewrite Hv. by destruct item.
Qed.

Lemma dependency_pairs_source by_id obj_id deps d :
  d ∈ dependency_pairs by_id obj_id deps → d.1 = obj_id.
Proof.
  unfold dependency_pairs. rewrite list_elem_of_omap. intros (dep_id & _ & Hd).
  case_bool_decide; [|done]. destruct (Pbx.target _) as [t|]; [|done].
  destruct (str_truthy t); by simplify_eq.
Qed.

Lemma scan_object_inv by_id tb item :
  scan_inv tb →
  scan_inv (scan_object by_id tb item)
  ∧ (∀ k, is_Some (od_map (target_names tb) !! k) →
          is_Some (od_map (target_names (scan_object by_id tb item)) !! k))
  ∧ (Pbx.isa item.2 = Some "PBXNativeTarget" →
     is_Some (od_map (target_names (scan_object by_id tb item)) !! item.1)).
Proof.
  intros (Hwf & Hfp & Hdep). destruct item as [obj_id obj]. unfold scan_object.
  destruct (default "" (Pbx.isa obj) =? "PBXFileReference")%string eqn:E1.
  { split; [done|]. split; [done|]. cbn [snd]. intros Hisa. by rewrite Hisa in E1. }
  destruct (default "" (Pbx.isa obj) =? "PBXBuildFile")%string eqn:E2.
  { assert (∀ P : tables → Prop, P tb →
              (∀ r, P (mkTables (file_refs tb) (<[obj_id := r]> (build_files_to_filerefs tb))
                 (frameworks_phase_to_files tb) (target_to_frameworks_phases tb)
                 (target_names tb) (target_dependencies tb) (spm_products tb)
                 (spm_packages tb))) →
              P (match Pbx.fileRef obj with
                 | Some r => mkTables (file_refs tb)
                     (<[obj_id := r]> (build_files_to_filerefs tb))
                     (frameworks_phase_to_files tb) (target_to_frameworks_phases tb)
                     (target_names tb) (target_dependencies tb) (spm_products tb)
                     (spm_packages tb)
                 | None => tb
                 end)) as Hcase.
    { intros P H0 H1. destruct (Pbx.fileRef obj); [apply H1|apply H0]. }
    split; [|split].
    - by apply Hcase.
    - by apply (Hcase (λ t, ∀ k, _ → is_Some (od_map (target_names t) !! k))).
    - cbn [snd]. intros Hisa. by rewrite Hisa in E2. }
  destruct (default "" (Pbx.isa obj) =? "PBXFrameworksBuildPhase")%string eqn:E3.
  { split; [done|]. split; [done|]. cbn [snd]. intros Hisa. by rewrite Hisa in E3. }
  destruct (default "" (Pbx.isa obj) =? "PBXNativeTarget")%string eqn:E4.
  { cbn [target_names target_to_frameworks_phases target_dependencies fst snd].
    assert (Hmono : ∀ k, is_Some (od_map (target_names tb) !! k) →
              is_Some (od_map (od_insert obj_id (default obj_id (Pbx.name obj))
                                         (target_names tb)) !! k)).
    { intros k Hk. cbn [od_insert od_map]. rewrite lookup_insert_is_Some'. by right. }
    assert (Hnew : is_Some (od_map (od_insert obj_id (default obj_id (Pbx.name obj))
                                              (target_names tb)) !! obj_id)).
    { cbn [od_insert od_map]. rewrite lookup_insert_is_Some'. by left. }
    split; [|by split].
    unfold scan_inv.
    cbn [target_names target_to_frameworks_phases target_dependencies fst snd].
    split; [by apply od_insert_wf|]. split.
    - intros k. cbn [od_insert od_map]. rewrite !lookup_insert_is_Some'.
      intros [->|Hk]; [by left|right; by apply Hfp].
    - intros d [Hd|Hd]%elem_of_app.
      + by apply Hmono, Hdep.
      + apply dependency_pairs_source in Hd as ->. exact Hnew. }
  destruct (default "" (Pbx.isa obj) =? "XCSwiftPackageProductDependency")%string eqn:E5.
  { split; [done|]. split; [done|]. cbn [snd]. intros Hisa. by rewrite Hisa in E5. }
  destruct (default "" (Pbx.isa obj) =? "XCRemoteSwiftPackageReference")%string eqn:E6.
  { split; [done|]. split; [done|]. cbn [snd]. intros Hisa. by rewrite Hisa in E6. }
  split; [done|]. split; [done|]. cbn [snd]. intros Hisa. by rewrite Hisa in E4.
Qed.

Lemma scan_fold_inv by_id objects : ∀ tb,
  scan_inv tb →
  scan_inv (fold_left (scan_object by_id) objects tb)
  ∧ (∀ k, is_Some (od_map (target_names tb) !! k) →
          is_Some (od_map (target_names (fold_left (scan_object by_id) objects tb)) !! k))
  ∧ (∀ item, item ∈ objects → Pbx.isa item.2 = Some "PBXNativeTarget" →
       is_Some (od_map (target_names (fold_left (scan_object by_id) objects tb)) !! item.1)).
Proof.
  induction objects as [|o objects IH]; intros tb Hinv; cbn [fold_left].
  - split; [done|]. split; [done|]. by intros item ?%elem_of_nil.
  - destruct (scan_object_inv by_id tb o Hinv) as (Hinv' & Hmono & Hnew).
    destruct (IH _ Hinv') as (Hfin & Hmono' & Hnat).
    split; [done|]. split; [by intros k Hk; apply Hmono', Hmono|].
    intros item [->|Hin]%elem_of_cons Hisa; [by apply Hmono', Hnew|by apply Hnat].
Qed.

Lemma empty_tables_inv : scan_inv empty_tables.
Proof.
  split; [apply od_empty_wf|]. split.
  - intros k. cbn. rewrite lookup_empty. by intros [? ?].
  - by intros d ?%elem_of_nil.
Qed.

Lemma target_name_registered tb k :
  od_wf (target_names tb) → is_Some (od_map (target_names tb) !! k) →
  AddTarget (target_name tb k)
  ∈ map (λ item, AddTarget item.2) (od_items (target_names tb)).
Proof.
  intros Hwf [n Hn]. apply list_elem_of_fmap. exists (k, n).
  unfold target_name. rewrite Hn. split; [done|].
  apply elem_of_od_items. split; [|done]. apply Hwf. by exists n.
Qed.

Lemma build_file_facts_cases tb t_name bf_id f :
  f ∈ build_file_facts tb t_name bf_id →
  (∃ lib_name is_sys lib_path,
      f = AddLib lib_name None is_sys (Some (ext_from_path lib_path))
      ∧ is_library_like lib_path = true)
  ∨ (∃ lib_name, f = AddEdge t_name lib_name).
Proof.
  unfold build_file_facts. destruct (_ !! bf_id) as [fr_id|]; [|by intros ?%elem_of_nil].
  destruct (negb (str_truthy fr_id)); [by intros ?%elem_of_nil|].
  destruct (negb (str_truthy _)); [by intros ?%elem_of_nil|].
  destruct (is_library_like _) eqn:Hlib; [|by intros ?%elem_of_nil].
  intros [->|[->|?%elem_of_nil]%elem_of_cons]%elem_of_cons; [left|right|done]; eauto.
Qed.

Lemma package_product_facts_cases tb t_name p_id f :
  f ∈ package_product_facts tb t_name p_id →
  (∃ pname subtitle, f = AddLib pname (Some subtitle) false (Some "spm")
                     ∧ str_truthy subtitle = true)
  ∨ (∃ pname, f = AddEdge t_name pname).
Proof.
  unfold package_product_facts.
  destruct (_ !! p_id) as [[productName package]|]; [|by intros ?%elem_of_nil].
  intros [->|[->|?%elem_of_nil]%elem_of_cons]%elem_of_cons; [left|right|done]; [|eauto].
  eexists _, _. split; [done|].
  destruct (opt_truthy _) eqn:Hrepo; [|done].
  by destruct (match package with Some _ => _ | None => _ end).
Qed.

(** The calls of [parse_pbxproj_dependencies], by kind. *)
Lemma parse_facts_cases pbx_json f :
  f ∈ parse_facts pbx_json →
  (∃ n, f = AddTarget n)
  ∨ (∃ lib_name is_sys lib_path,
        f = AddLib lib_name None is_sys (Some (ext_from_path lib_path))
        ∧ is_library_like lib_path = true)
  ∨ (∃ pname subtitle, f = AddLib pname (Some subtitle) false (Some "spm")
                       ∧ str_truthy subtitle = true)
  ∨ (∃ a b, f = AddEdge a b ∧ AddTarget a ∈ parse_facts pbx_json).
Proof.
  unfold parse_facts.
  set (objects := default [] (Pbx.objects pbx_json)).
  set (by_id := list_to_map objects : gmap string Pbx.object).
  set (tb := fold_left (scan_object by_id) objects empty_tables).
  destruct (scan_fold_inv by_id objects empty_tables empty_tables_inv)
    as ((Hwf & Hfp & Hdep) & _ & Hnat).
  fold tb in Hwf, Hfp, Hdep, Hnat.
  assert (Hreg : ∀ k, is_Some (od_map (target_names tb) !! k) →
            ∀ rest, AddTarget (target_name tb k)
                    ∈ map (λ item, AddTarget item.2) (od_items (target_names tb)) ++ rest).
  { intros k Hk rest. apply elem_of_app. left. by apply target_name_registered. }
  rewrite !elem_of_app.
  intros [Hf|[Hf|[Hf|Hf]]].
  - apply list_elem_of_fmap in Hf as (item & -> & _). left. eauto.
  - apply list_elem_of_bind in Hf as (item & Hf & Hitem).
    apply list_elem_of_bind in Hf as (fp_id & Hf & _).
    apply list_elem_of_bind in Hf as (bf_id & Hf & _).
    apply build_file_facts_cases in Hf as [Hf|[lib_name ->]]; [by right; left|].
    right. right. right. eexists _, _. split; [done|]. apply Hreg, Hfp.
    apply elem_of_od_items in Hitem as [_ Hitem]. by eexists.
  - apply list_elem_of_bind in Hf as (item & Hf & Hitem).
    case_bool_decide as Hisa; [|by apply elem_of_nil in Hf].
    apply list_elem_of_bind in Hf as (p_id & Hf & _).
    apply package_product_facts_cases in Hf as [Hf|[pname ->]]; [by right; right; left|].
    right. right. right. eexists _, _. split; [done|]. by apply Hreg, Hnat.
  - apply list_elem_of_fmap in Hf as (d & -> & Hd).
    right. right. right. eexists _, _. split; [done|]. by apply Hreg, Hdep.
Qed.

Section parser_proofs.
Context `{SetOrder}.

Lemma fallback_facts_cases project f :
  f ∈ fallback_facts project →
  f = AddTarget ("[" +:+ stem project +:+ "]")
  ∨ (∃ lib, f = AddLib lib None false None)
  ∨ (∃ lib, f = AddEdge ("[" +:+ stem project +:+ "]") lib).
Proof.
  unfold fallback_facts. intros [->|Hf]%elem_of_cons; [by left|].
  apply list_elem_of_bind in Hf as (lib & Hf & _).
  apply elem_of_cons in Hf as [->|Hf]; [right; left; eauto|].
  apply elem_of_cons in Hf as [->|Hf]; [right; right; eauto|].
  by apply elem_of_nil in Hf.
Qed.

(** The calls of [process_project], by kind. *)
Lemma project_facts_cases project f :
  f ∈ project_facts project →
  (∃ n, f = AddTarget n)
  ∨ (∃ lib_name is_sys ext, f = AddLib lib_name None is_sys ext)
  ∨ (∃ pname subtitle, f = AddLib pname (Some subtitle) false (Some "spm")
                       ∧ str_truthy subtitle = true)
  ∨ (∃ a b, f = AddEdge a b ∧ AddTarget a ∈ project_facts project).
Proof.
  unfold project_facts. destruct (negb _); [by intros ?%elem_of_nil|].
  destruct (plutil_to_json project) as [pbx_json|].
  - intros [?|[(ln & sy & lp & -> & _)|[?|?]]]%parse_facts_cases; eauto 10.
  - intros Hf. apply fallback_facts_cases in Hf as [->|[[lib ->]|[lib ->]]]; eauto 10.
    right. right. right. eexists _, _. split; [done|]. by left.
Qed.

Lemma process_project_facts project g :
  process_project project g = fold_left apply_fact (project_facts project) g.
Proof.
  unfold process_project, project_facts. destruct (negb _); [done|].
  destruct (plutil_to_json project) as [pbx_json|]; [done|].
  unfold fallback_facts. cbn [fold_left apply_fact].
  generalize (add_target ("[" +:+ stem project +:+ "]") g).
  generalize (sorted (iter_names (list_to_set (map basename_without_ext
                                                   (raw_paths project))))).
  intros libs. induction libs as [|lib libs IH]; intros g0; [done|].
  cbn [fold_left mbind list_bind]. rewrite fold_left_app. cbn [fold_left apply_fact].
  apply IH.
Qed.

Lemma read_projects_facts projects :
  read_projects projects = build (projects ≫= project_facts).
Proof.
  unfold read_projects, build. generalize new_graph.
  induction projects as [|p projects IH]; intros g; [done|].
  cbn [fold_left mbind list_bind]. rewrite fold_left_app, <- process_project_facts.
  apply IH.
Qed.
End parser_proofs.
Lemma fold_annotated_have_ext fs : ∀ g,
  (∀ n sub sys ext, AddLib n sub sys ext ∈ fs → opt_truthy sub = true → ext ≠ None) →
  annotated_have_ext g → annotated_have_ext (fold_left apply_fact fs g).
Proof.
  induction fs as [|f fs IH]; intros g Hfs Hg; cbn [fold_left]; [done|].
  apply IH; [intros n sub sys ext Hin; apply (Hfs n sub sys ext); by right|].
  destruct f as [n|n sub sys ext|a b]; cbn [apply_fact].
  - exact Hg.
  - intros l Hl. destruct (decide (l = n)) as [->|Hne].
    + rewrite add_lib_ext. apply add_lib_annotations_eq in Hl as [Hsub|Hl].
      * specialize (Hfs n sub sys ext (list_elem_of_here _ _) Hsub). by destruct ext.
      * destruct ext; [done|]. by apply Hg.
    + rewrite add_lib_ext_ne by done. rewrite add_lib_annotations_ne in Hl by done.
      by apply Hg.
  - unfold add_edge. destruct (_ && _); exact Hg.
Qed.

Section parser_claims.
Context `{SetOrder}.

Lemma read_projects_annotated projects : annotated_have_ext (read_projects projects).
Proof.
  rewrite read_projects_facts. apply fold_annotated_have_ext.
  - intros n sub sys ext (p & Hf & _)%list_elem_of_bind Hsub.
    apply project_facts_cases in Hf
      as [[? ?]|[(? & ? & ? & ?)|[(? & ? & ? & _)|(? & ? & ? & _)]]];
      by simplify_eq.
  - intros l. cbn. rewrite lookup_empty. by intros [? ?].
Qed.

(** X10.  In the graph that [main] reads from the projects, every edge
    starts at a registered target and joins two non-empty names. *)
Theorem read_projects_edges_start_at_targets projects a b :
  (a, b) ∈ edges (read_projects projects) →
  a ∈ target_nodes (read_projects projects) ∧ a ≠ "" ∧ b ≠ "".
Proof.
  rewrite read_projects_facts. unfold build.
  rewrite build_fold_edges, build_fold_targets. cbn [fst snd].
  intros [Hin|(Hin & Ha & Hb)]; [by apply not_elem_of_empty in Hin|].
  split; [|by destruct a, b].
  right. apply list_elem_of_bind in Hin as (p & Hf & Hp).
  apply list_elem_of_bind. exists p. split; [|done].
  apply project_facts_cases in Hf
    as [[? ?]|[(? & ? & ? & ?)|[(? & ? & ? & _)|(? & ? & ? & Ht)]]];
    by simplify_eq.
Qed.

(** X11.  In the graph that [main] reads from the projects, a library with
    a subtitle always has a recorded suffix.  The filters therefore never
    infer one: the metadata of every library they keep is what the parser
    recorded. *)
Theorem read_projects_filters_keep_metadata projects f keep :
  (∀ l, is_Some (annotations (read_projects projects) !! l) →
        ∃ e, lib_ext (read_projects projects) l = Some e)
  ∧ (∀ l, lib_meta (apply_filters f keep (read_projects projects)) !! l
          = if bool_decide (l ∈ lib_nodes (apply_filters f keep (read_projects projects)))
            then lib_meta (read_projects projects) !! l else None).
Proof.
  pose proof (read_projects_annotated projects) as Hann. split.
  - intros l Hl. specialize (Hann l Hl).
    destruct (lib_ext (read_projects projects) l) as [e|]; [by exists e|done].
  - intros l. rewrite apply_filters_lib_meta. case_bool_decide; [|done].
    rewrite inferred_unfold.
    destruct (has_url_subtitle _ l) eqn:Hurl; [|by rewrite andb_false_r].
    assert (is_Some (annotations (read_projects projects) !! l)) as Hl.
    { unfold has_url_subtitle in Hurl. by destruct (_ !! l). }
    apply Hann in Hl. rewrite lib_ext_default in Hl.
    rewrite bool_decide_eq_false_2 by done. by rewrite andb_false_r.
Qed.
End parser_claims.

Lemma read_projects_edges_start_at_targets_witness :
  "App" ∈ target_nodes (@read_projects elements_order [sample_project])
  ∧ "App" ≠ "" ∧ "libz" ≠ "".
Proof.
  apply (@read_projects_edges_start_at_targets elements_order [sample_project] "App" "libz").
  apply (bool_decide_unpack _). vm_compute. reflexivity.
Defined.

Lemma fold_known_ext fs : ∀ g,
  (∀ n sub sys ext, AddLib n sub sys ext ∈ fs → ∃ e, ext = Some e ∧ e ∈ known_exts) →
  (∀ l, l ∈ lib_nodes g → ∃ e, lib_ext g l = Some e ∧ e ∈ known_exts) →
  ∀ l, l ∈ lib_nodes (fold_left apply_fact fs g) →
       ∃ e, lib_ext (fold_left apply_fact fs g) l = Some e ∧ e ∈ known_exts.
Proof.
  induction fs as [|f fs IH]; intros g Hfs Hg; cbn [fold_left]; [done|].
  apply IH; [intros n sub sys ext Hin; apply (Hfs n sub sys ext); by right|].
  destruct f as [n|n sub sys ext|a b]; cbn [apply_fact].
  - exact Hg.
  - intros l Hl. destruct (decide (l = n)) as [->|Hne].
    + rewrite add_lib_ext.
      destruct (Hfs n sub sys ext (list_elem_of_here _ _)) as (e & -> & He). eauto.
    + rewrite add_lib_ext_ne by done. apply Hg. cbn in Hl. set_solver.
  - unfold add_edge. destruct (_ && _); exact Hg.
Qed.

Lemma ext_from_path_known p : is_library_like p = true → ext_from_path p ∈ known_exts.
Proof.
  unfold is_library_like, ext_from_path, known_exts. cbn [existsb].
  destruct (endswith (lower p) ".framework"); [set_solver|].
  destruct (endswith (lower p) ".a"); [set_solver|].
  destruct (endswith (lower p) ".tbd"); [set_solver|].
  destruct (endswith (lower p) ".dylib"); [set_solver|done].
Qed.

(** X12.  Every library that [parse_pbxproj_dependencies] registers on a
    new graph has a recorded suffix, one of [.framework], [.a], [.tbd],
    [.dylib] and [spm]; a document without objects registers none. *)
Theorem parsed_libraries_have_known_ext pbx_json :
  lib_nodes (parse_pbxproj_dependencies (Pbx.mkJson None) new_graph) = ∅
  ∧ ∀ l, l ∈ lib_nodes (parse_pbxproj_dependencies pbx_json new_graph) →
         ∃ e, lib_ext (parse_pbxproj_dependencies pbx_json new_graph) l = Some e
              ∧ e ∈ known_exts.
Proof.
  split; [done|]. unfold parse_pbxproj_dependencies. apply fold_known_ext.
  - intros n sub sys ext Hf.
    apply parse_facts_cases in Hf
      as [[? ?]|[(? & ? & p & ? & Hp)|[(? & ? & ? & _)|(? & ? & ? & _)]]];
      simplify_eq.
    + eexists. split; [done|]. by apply ext_from_path_known.
    + eexists. split; [done|]. unfold known_exts. set_solver.
  - by intros l ?%not_elem_of_empty.
Qed.

(** The sample project, parsed and read from its raw text. *)
Example sample_project_parsed :
  let g := @read_projects elements_order [sample_project] in
  target_nodes g = {["App"; "Core"]}
  ∧ lib_nodes g = {["UIKit"; "libz"; "Alamofire"]}
  ∧ edges g = {[("App", "UIKit"); ("App", "libz"); ("App", "Alamofire"); ("App", "Core")]}
  ∧ map (λ l, (lib_ext g l, lib_is_system g l, annotations g !! l))
        ["UIKit"; "libz"; "Alamofire"]
    = [ (Some ".framework", true, None); (Some ".a", false, None);
        (Some "spm", false, Some "https://github.com/Alamofire/Alamofire.git") ].
Proof.
  cbv zeta. repeat split; apply (bool_decide_unpack _); vm_compute; reflexivity.
Qed.

Example sample_project_raw_read :
  let g := @read_projects elements_order [sample_project_raw] in
  target_nodes g = {["[App]"]}
  ∧ lib_nodes g = {["UIKit"; "libz"]}
  ∧ edges g = {[("[App]", "UIKit"); ("[App]", "libz")]}
  ∧ map (λ l, (lib_ext g l, lib_is_system g l, annotations g !! l)) ["UIKit"; "libz"]
    = [ (None, false, None); (None, false, None) ].
Proof.
  cbv zeta. repeat split; apply (bool_decide_unpack _); vm_compute; reflexivity.
Qed.

(** ** The run *)

Section main_claims.
Context `{SetOrder}.

Lemma apply_filters_cycle_components f keep g :
  cycle_components (apply_filters f keep g) = cycle_components g.
Proof. by rewrite apply_filters_unfold. Qed.

Lemma read_projects_cycle_components projects :
  cycle_components (read_projects projects) = [].
Proof. rewrite read_projects_facts. apply build_fold_cycle_components. Qed.

Lemma cycle_components_nil_iff limit g g' :
  mark_cycles limit g = Ok g' →
  cycle_components g' = [] ↔ ∀ v, ¬ reaches_plus g v v.
Proof.
  intros Hrun. split.
  - intros Hnil v Hv.
    destruct (proj2 (same_component_iff limit g g' v v Hrun) (conj Hv Hv))
      as (comp & Hcomp & _).
    rewrite Hnil in Hcomp. by apply elem_of_nil in Hcomp.
  - intros Hacyc. destruct (cycle_components g') as [|comp rest] eqn:Hcc; [done|].
    assert (comp ∈ cycle_components g') as Hcomp by (rewrite Hcc; left).
    apply (cycle_components_spec limit g g' comp Hrun) in Hcomp
      as (_ & _ & x & Hx & _).
    by apply Hacyc in Hx.
Qed.

Lemma export_cycles_summary_nil_iff cc :
  export_cycles_summary cc = ["HAS_CYCLES=false" +:+ nl; "CYCLES_COUNT=0" +:+ nl]
  ↔ cc = [].
Proof.
  split; [|by intros ->].
  destruct cc as [|c cc]; [done|]. intros Heq.
  apply (f_equal head) in Heq. cbn in Heq. discriminate.
Qed.

Lemma export_cycles_summary_head_iff cc :
  head (export_cycles_summary cc) = Some ("HAS_CYCLES=true" +:+ nl) ↔ cc ≠ [].
Proof.
  destruct cc as [|c cc]; cbn; [split; [discriminate|done]|]. done.
Qed.

(** X13.  The cycles summary tells whether the graph has a cycle: when
    [mark_cycles] has run, the file holds only [HAS_CYCLES=false] and
    [CYCLES_COUNT=0] exactly when no node reaches itself by at least one
    edge, and starts with [HAS_CYCLES=true] exactly when some node does;
    it has one line for each recorded component after the first two. *)
Theorem cycles_summary_reports_cycles limit g :
  (size (vertices g) ≤ limit → ∃ g', mark_cycles limit g = Ok g')
  ∧ ∀ g', mark_cycles limit g = Ok g' →
      (export_cycles_summary (cycle_components g')
         = ["HAS_CYCLES=false" +:+ nl; "CYCLES_COUNT=0" +:+ nl]
       ↔ ∀ v, ¬ reaches_plus g v v)
      ∧ (head (export_cycles_summary (cycle_components g'))
           = Some ("HAS_CYCLES=true" +:+ nl)
         ↔ ∃ v, reaches_plus g v v)
      ∧ length (export_cycles_summary (cycle_components g'))
        = 2 + length (cycle_components g').
Proof.
  split; [apply mark_cycles_total|]. intros g' Hrun. split; [|split].
  - by rewrite export_cycles_summary_nil_iff, (cycle_components_nil_iff limit g g').
  - rewrite export_cycles_summary_head_iff. split.
    + intros Hne. destruct (cycle_components g') as [|comp rest] eqn:Hcc; [done|].
      assert (comp ∈ cycle_components g') as Hcomp by (rewrite Hcc; left).
      apply (cycle_components_spec limit g g' comp Hrun) in Hcomp
        as (_ & _ & x & Hx & _).
      by exists x.
    + intros [v Hv] Hnil. by apply (cycle_components_nil_iff limit g g' Hrun) in Hv.
  - unfold export_cycles_summary. rewrite length_app. cbn [length].
    destruct (cycle_components g'); [done|]. cbn [list_truthy]. by rewrite length_imap.
Qed.

Lemma main_unfold re_compile limit args now_json now_dot root_path projects :
  main re_compile limit args now_json now_dot root_path projects
  = (graph ← (if negb (Cli.no_cycle_highlight args)
              then mark_cycles limit (filtered_graph re_compile args projects)
              else Ok (filtered_graph re_compile args projects));
     Ok (mkOutputs graph (export_cycles_summary (cycle_components graph))
           (if opt_truthy (Cli.json_out args) then
              Some (export_json graph now_json root_path
                      (mkFiltersMeta (Cli.include_target args) (Cli.exclude_target args)
                         (Cli.include_lib args) (Cli.exclude_lib args)
                         (sorted (iter_names (cli_suffixes (Cli.include_suffix args))))
                         (sorted (iter_names (cli_suffixes (Cli.exclude_suffix args))))
                         (negb (Cli.no_cycle_highlight args))
                         (negb (Cli.no_system_highlight args)) (Cli.split_only args))
                      (apply_color_overrides (Cli.color_args args)))
            else None)
           (if Cli.split_by_framework args || Cli.split_only args
            then Some (split_selection lower graph (Cli.split_max args)
                                       (Cli.split_min_degree args))
            else None)
           (if negb (Cli.split_only args)
            then Some (to_dot (apply_color_overrides (Cli.color_args args)) now_dot
                              (negb (Cli.no_cycle_highlight args))
                              (negb (Cli.no_system_highlight args)) graph)
            else None)
           (if Cli.fail_on_cycles args && list_truthy (cycle_components graph)
            then 2%Z else 0%Z))).
Proof. reflexivity. Qed.

Lemma filtered_graph_cycle_components re_compile args projects :
  cycle_components (filtered_graph re_compile args projects) = [].
Proof.
  unfold filtered_graph.
  by rewrite apply_filters_cycle_components, read_projects_cycle_components.
Qed.

(** X14.  The exit code of a run.  The run ends when cycle detection is
    switched off or the limit on nested calls covers the vertices.  It
    ends with code 2 exactly when [--fail-on-cycles] is given, cycle
    detection is not switched off by [--no-cycle-highlight], and the
    filtered graph has a cycle; otherwise with code 0.  With
    [--no-cycle-highlight] no cycle is ever recorded or reported. *)
Theorem main_exit_code re_compile limit args now_json now_dot root_path projects :
  (Cli.no_cycle_highlight args = true
   ∨ size (vertices (filtered_graph re_compile args projects)) ≤ limit →
   ∃ out, main re_compile limit args now_json now_dot root_path projects = Ok out)
  ∧ ∀ out, main re_compile limit args now_json now_dot root_path projects = Ok out →
      (out_exit_code out = 2%Z
       ↔ Cli.fail_on_cycles args = true ∧ Cli.no_cycle_highlight args = false
         ∧ ∃ v, reaches_plus (filtered_graph re_compile args projects) v v)
      ∧ (out_exit_code out ≠ 2%Z → out_exit_code out = 0%Z)
      ∧ target_nodes (out_graph out)
        = target_nodes (filtered_graph re_compile args projects)
      ∧ lib_nodes (out_graph out) = lib_nodes (filtered_graph re_compile args projects)
      ∧ edges (out_graph out) = edges (filtered_graph re_compile args projects)
      ∧ (Cli.no_cycle_highlight args = true →
         cycle_components (out_graph out) = []
         ∧ out_cycles_summary out
           = ["HAS_CYCLES=false" +:+ nl; "CYCLES_COUNT=0" +:+ nl]).
Proof.
  rewrite main_unfold. set (G := filtered_graph re_compile args projects).
  split.
  - intros [Hoff|Hsize].
    + rewrite Hoff. cbn [negb mbind result_bind]. eauto.
    + destruct (Cli.no_cycle_highlight args); cbn [negb]; [cbn; eauto|].
      destruct (mark_cycles_total limit G Hsize) as [g' ->]. cbn. eauto.
  - intros out. destruct (Cli.no_cycle_highlight args) eqn:Hoff; cbn [negb].
    + cbn [mbind result_bind]. intros [= <-]. cbn [out_exit_code out_graph out_cycles_summary].
      unfold G. rewrite filtered_graph_cycle_components. cbn [list_truthy].
      rewrite andb_false_r.
      split; [split; [done|by intros (_ & ? & _)]|]. done.
    + destruct (mark_cycles limit G) as [g'|e] eqn:Hrun; [|done].
      cbn [mbind result_bind]. intros [= <-].
      cbn [out_exit_code out_graph out_cycles_summary].
      pose proof (mark_cycles_inv _ _ _ Hrun) as (_ & _ & Ht & Hl & He & _).
      pose proof (cycle_components_nil_iff limit G g' Hrun) as Hnil.
      split; [|split; [|by repeat split]].
      * destruct (Cli.fail_on_cycles args); cbn [andb].
        -- destruct (cycle_components g') as [|comp rest] eqn:Hcc; cbn [list_truthy].
           ++ split; [done|]. intros (_ & _ & v & Hv). by apply (proj1 Hnil) in Hv.
           ++ split; [|done]. intros _. split; [done|]. split; [done|].
              assert (comp ∈ cycle_components g') as Hcomp by (rewrite Hcc; left).
              apply (cycle_components_spec limit G g' comp Hrun) in Hcomp
                as (_ & _ & x & Hx & _).
              by exists x.
        -- split; [done|]. by intros [? _].
      * destruct (_ && _); done.
Qed.
End main_claims.

(** ** Suffix options *)

Lemma lower_ascii_idem c : lower_ascii (lower_ascii c) = lower_ascii c.
Proof. destruct c as [[] [] [] [] [] [] [] []]; vm_compute; reflexivity. Qed.

Lemma lower_idem s : lower (lower s) = lower s.
Proof. induction s as [|c s IH]; cbn [lower]; [done|]. by rewrite lower_ascii_idem, IH. Qed.

Lemma lower_upper_ascii c : lower_ascii (upper_ascii c) = lower_ascii c.
Proof. destruct c as [[] [] [] [] [] [] [] []]; vm_compute; reflexivity. Qed.

Lemma lower_upper s : lower (upper s) = lower s.
Proof.
  induction s as [|c s IH]; cbn [lower upper]; [done|]. by rewrite lower_upper_ascii, IH.
Qed.

Lemma startswith_dot_lower s : startswith (lower s) "." = startswith s ".".
Proof.
  destruct s as [|c s]; [done|]. unfold startswith. cbn [lower String.prefix].
  destruct c as [[] [] [] [] [] [] [] []]; vm_compute; by destruct (lower s), s.
Qed.

Lemma elem_of_cli_suffixes raw s :
  s ∈ cli_suffixes raw ↔ ∃ r, r ∈ raw ∧ s = normalize_suffix (lower r).
Proof.
  unfold cli_suffixes, set_truthy. case_bool_decide as Hne.
  - rewrite elem_of_map. setoid_rewrite elem_of_list_to_set.
    setoid_rewrite list_elem_of_fmap. naive_solver.
  - rewrite Hne. split; [by intros ?%not_elem_of_empty|].
    intros (r & Hr & _). exfalso. apply (not_elem_of_empty (C:=gset string) (lower r)).
    rewrite <- Hne. apply elem_of_list_to_set, list_elem_of_fmap. eauto.
Qed.

Lemma normalize_suffix_normal s :
  lower s = s →
  (normalize_suffix s = "spm" ∨ startswith (normalize_suffix s) "." = true)
  ∧ lower (normalize_suffix s) = normalize_suffix s
  ∧ normalize_suffix s ≠ "".
Proof.
  intros Hs. unfold normalize_suffix. case_bool_decide as Hspm.
  - subst s. split; [by left|done].
  - destruct (startswith s ".") eqn:Hdot.
    + split; [by right|]. split; [done|]. by destruct s.
    + rewrite append_String, append_Empty. split; [right; by destruct s|]. split; [|done].
      cbn [lower]. rewrite Hs. reflexivity.
Qed.

Lemma normalize_suffix_dotted s : normalize_suffix ("." +:+ s) = "." +:+ s.
Proof.
  unfold normalize_suffix. rewrite append_String, append_Empty.
  rewrite bool_decide_eq_false_2 by discriminate.
  unfold startswith. cbn. by destruct s.
Qed.

(** X15.  The suffix sets that [main] passes to the filters are in normal
    form: every member is lower case and is either [spm] or starts with a
    dot; the set is empty only when the option was not given; and a
    member comes from an option value by lower-casing it and putting a
    dot in front unless it is [spm] or has one. *)
Theorem cli_suffixes_normal_form raw :
  (cli_suffixes raw = ∅ ↔ raw = [])
  ∧ ∀ s, s ∈ cli_suffixes raw →
         (s = "spm" ∨ startswith s "." = true) ∧ lower s = s ∧ s ≠ ""
         ∧ ∃ r, r ∈ raw ∧ s = normalize_suffix (lower r).
Proof.
  split.
  - split; [|by intros ->].
    destruct raw as [|r raw]; [done|]. intros Hnil. exfalso.
    apply (not_elem_of_empty (C:=gset string) (normalize_suffix (lower r))).
    rewrite <- Hnil. apply elem_of_cli_suffixes. exists r. split; [left|done].
  - intros s Hs. apply elem_of_cli_suffixes in Hs as Hs'. destruct Hs' as (r & Hr & ->).
    destruct (normalize_suffix_normal (lower r) (lower_idem r)) as (H1 & H2 & H3).
    repeat split; [done..|]. by exists r.
Qed.

(** X16.  For option values of ASCII characters, suffix options ignore
    case, and the leading dot is optional except for [spm]: a value that
    does not start with a dot and is not [spm] gives the same suffix set
    with and without a dot in front, and the same set in upper case. *)
Theorem cli_suffixes_dot_and_case s raw :
  is_ascii s = true → forallb is_ascii raw = true →
  lower s ≠ "spm" → startswith s "." = false →
  cli_suffixes (("." +:+ s) :: raw) = cli_suffixes (s :: raw)
  ∧ cli_suffixes (upper s :: raw) = cli_suffixes (s :: raw).
Proof.
  intros _ _ Hspm Hdot.
  assert (Hsame : ∀ r1 r2, normalize_suffix (lower r1) = normalize_suffix (lower r2) →
            cli_suffixes (r1 :: raw) = cli_suffixes (r2 :: raw)).
  { intros r1 r2 Heq. apply set_eq. intros x. rewrite !elem_of_cli_suffixes.
    split; intros (r & [->|Hr]%elem_of_cons & ->).
    - exists r2. split; [left|done].
    - exists r. split; [by right|done].
    - exists r1. split; [left|done].
    - exists r. split; [by right|done]. }
  split; apply Hsame.
  - rewrite lower_app. change (lower ".") with ".".
    unfold normalize_suffix at 2. rewrite bool_decide_eq_false_2 by done.
    rewrite startswith_dot_lower, Hdot.
    apply normalize_suffix_dotted.
  - by rewrite lower_upper.
Qed.

Lemma cli_suffixes_dot_and_case_witness :
  cli_suffixes (("." +:+ "Framework") :: ["a"]) = cli_suffixes ("Framework" :: ["a"])
  ∧ cli_suffixes (upper "Framework" :: ["a"]) = cli_suffixes ("Framework" :: ["a"]).
Proof.
  apply (cli_suffixes_dot_and_case "Framework" ["a"]).
  - reflexivity.
  - reflexivity.
  - vm_compute. discriminate.
  - reflexivity.
Defined.

(** X17.  With [--include-suffix], no library without a recorded or
    inferred suffix passes the library filter. *)
Theorem include_suffix_requires_ext re_compile args g l :
  Cli.include_suffix args ≠ [] →
  lib_ok (cli_filters re_compile args) g l = true →
  ext_key (annotations g) (lib_meta g) l ≠ "".
Proof.
  intros Hraw Hok. unfold lib_ok in Hok. rewrite lib_allowed_spec in Hok.
  apply andb_true_iff in Hok as [_ Hok]. apply suffix_allowed_spec in Hok as [Hinc _].
  unfold inc_suf in Hinc. cbn [cli_filters include_suffixes] in Hinc.
  destruct Hinc as [Hempty|Hin].
  - exfalso. destruct (Cli.include_suffix args) as [|r raw] eqn:Hargs; [done|].
    apply (not_elem_of_empty (C:=gset string) (lower (normalize_suffix (lower r)))).
    rewrite <- Hempty. apply elem_of_map. eexists. split; [done|].
    apply elem_of_cli_suffixes. exists r. split; [left|done].
  - apply elem_of_map in Hin as (s & -> & Hs).
    apply elem_of_cli_suffixes in Hs as (r & _ & ->).
    destruct (normalize_suffix_normal (lower r) (lower_idem r)) as (_ & -> & Hne). done.
Qed.

Lemma include_suffix_requires_ext_witness :
  ext_key (annotations scenario_A) (lib_meta scenario_A) "LibA" = ".framework"
  ∧ ext_key (annotations scenario_A) (lib_meta scenario_A) "LibA" ≠ "".
Proof.
  split; [reflexivity|].
  apply (include_suffix_requires_ext (λ _, None)
           (Cli.mkArgs false false false false false 0 1 None [] [] [] []
                       ["Framework"] [] no_color_args)
           scenario_A "LibA").
  - discriminate.
  - vm_compute. reflexivity.
Defined.

(** ** The order of the components *)

Lemma topo_closed_nil adj : topo_closed adj [].
Proof.
  intros front back Heq x y Hx. symmetry in Heq. apply app_eq_nil in Heq as [-> _].
  by apply elem_of_nil in Hx.
Qed.

Lemma topo_closed_snoc adj gray st' cs comp :
  topo_closed adj cs → sccs st' = cs ++ [comp] → tarjan_inv adj gray st' →
  topo_closed adj (sccs st').
Proof.
  intros Ht Heq Hinv front back Hsplit x y Hx Hxy. rewrite Heq in Hsplit.
  destruct back as [|z back _] using rev_ind.
  - rewrite app_nil_r in Hsplit. subst front. rewrite <- Heq in *.
    by apply (inv_closed _ _ _ Hinv x y).
  - rewrite (assoc_L (++)) in Hsplit. apply app_inj_tail in Hsplit as [Hcs _].
    by apply (Ht front back Hcs x y).
Qed.

Lemma close_component_order adj gray v cur st' :
  topo_closed adj (sccs cur) → close_component v cur = Ok st' →
  tarjan_inv adj gray st' → topo_closed adj (sccs st').
Proof.
  intros Ht Hrun Hinv. unfold close_component in Hrun.
  apply bind_Ok in Hrun as (lv & _ & Hrun). apply bind_Ok in Hrun as (iv & _ & Hrun).
  case_bool_decide; [|by injection Hrun as <-].
  apply bind_Ok in Hrun as ([[stack' onstack'] comp] & _ & Hrun).
  injection Hrun as <-. by apply (topo_closed_snoc adj gray _ (sccs cur) comp).
Qed.

Section topo.
Context `{SetOrder} (adj : odict (gset string)).
Hypothesis adj_closed : ∀ v w, succ_rel adj v w → w ∈ od_keys adj.

Lemma visit_successor_order (self : string → tarjan → result tarjan) d gray v st0 done
    cur cur' w :
  (∀ gray' v' st st',
     tarjan_inv adj gray' st → ¬ visited st v' → v' ∈ od_keys adj →
     (∀ g, g ∈ gray' → reach adj g v') →
     size (unvisited adj st) ≤ d →
     topo_closed adj (sccs st) →
     self v' st = Ok st' → topo_closed adj (sccs st')) →
  (∀ g, g ∈ gray → reach adj g v) →
  loop_inv adj gray v st0 done cur →
  succ_rel adj v w →
  size (unvisited adj cur) ≤ d →
  topo_closed adj (sccs cur) →
  visit_successor self v w cur = Ok cur' →
  topo_closed adj (sccs cur').
Proof.
  intros IH Hreach (Hcur & _) Hvw Hsize Ht. unfold visit_successor.
  case_bool_decide as Hw.
  - rewrite <- visited_dom in Hw. intros Hrun.
    apply bind_Ok in Hrun as (st2 & Hself & Hrun).
    apply bind_Ok in Hrun as (lv & _ & Hrun). apply bind_Ok in Hrun as (lw & _ & Hrun).
    injection Hrun as <-. cbn [sccs set_low].
    apply (IH ({[v]} ∪ gray) w cur st2 Hcur Hw (adj_closed _ _ Hvw)); [|done..].
    intros g [->%elem_of_singleton|Hg]%elem_of_union.
    + by apply rtc_once.
    + etrans; [by apply Hreach|by apply rtc_once].
  - case_bool_decide; [|by intros [= <-]]. intros Hrun.
    apply bind_Ok in Hrun as (lv & _ & Hrun). apply bind_Ok in Hrun as (iw & _ & Hrun).
    by injection Hrun as <-.
Qed.

Lemma successor_loop_order (self : string → tarjan → result tarjan) d gray v st0 :
  (∀ gray' v' st,
     tarjan_inv adj gray' st → ¬ visited st v' → v' ∈ od_keys adj →
     (∀ g, g ∈ gray' → reach adj g v') →
     size (unvisited adj st) ≤ d →
     ∃ st', self v' st = Ok st' ∧ sc_post adj gray' v' st st') →
  (∀ gray' v' st st',
     tarjan_inv adj gray' st → ¬ visited st v' → v' ∈ od_keys adj →
     (∀ g, g ∈ gray' → reach adj g v') →
     size (unvisited adj st) ≤ d →
     topo_closed adj (sccs st) →
     self v' st = Ok st' → topo_closed adj (sccs st')) →
  (∀ g, g ∈ gray → reach adj g v) →
  ∀ todo done cur,
    (∀ w, w ∈ todo → succ_rel adj v w) →
    loop_inv adj gray v st0 done cur →
    size (unvisited adj cur) ≤ d →
    topo_closed adj (sccs cur) →
    ∃ cur', for_each (visit_successor self v) todo cur = Ok cur'
            ∧ loop_inv adj gray v st0 (done ++ todo) cur'
            ∧ topo_closed adj (sccs cur').
Proof.
  intros Hplain Horder Hreach todo.
  induction todo as [|w todo IHtodo]; intros done cur Hsucc Hloop Hsize Ht.
  - exists cur. rewrite app_nil_r. done.
  - destruct (visit_successor_step adj adj_closed self d gray v st0 done cur w
                Hplain Hreach Hloop)
      as (cur1 & Hstep & Hloop1 & Hsize1); [apply Hsucc; by left|done|].
    pose proof (visit_successor_order self d gray v st0 done cur cur1 w
                  Horder Hreach Hloop (Hsucc w (list_elem_of_here _ _)) Hsize Ht Hstep)
      as Ht1.
    cbn [for_each]. rewrite Hstep. cbn [mbind result_bind].
    destruct (IHtodo (done ++ [w]) cur1) as (cur' & Hrest & Hloop' & Ht');
      [intros w' Hw'; apply Hsucc; by right|done..|].
    exists cur'. split; [done|]. split; [|done]. by rewrite <- (assoc_L (++)) in Hloop'.
Qed.

Lemma strongconnect_order d : ∀ gray v st st',
  tarjan_inv adj gray st →
  ¬ visited st v →
  v ∈ od_keys adj →
  (∀ g, g ∈ gray → reach adj g v) →
  size (unvisited adj st) ≤ d →
  topo_closed adj (sccs st) →
  strongconnect adj d v st = Ok st' → topo_closed adj (sccs st').
Proof.
  induction d as [|d IH]; intros gray v st st' Hinv Hv Hkey Hreach Hsize Ht; [done|].
  pose proof (unvisited_enter adj adj_closed v st Hkey Hv) as Hent.
  cbn [strongconnect]. intros Hrun.
  destruct (successor_loop_order (strongconnect adj d) d gray v st
              (strongconnect_spec adj adj_closed d) IH Hreach
              (iter_succ v (adj_get adj v)) [] (enter v st))
    as (cur & Hloop & Hinvl & Htl).
  - intros w Hw. by apply in_succ_list.
  - by apply enter_loop_inv.
  - lia.
  - done.
  - rewrite Hloop in Hrun. cbn [mbind result_bind app] in *.
    destruct (close_component_post adj adj_closed gray v st cur Hinv Hreach Hinvl)
      as (st'' & Hclose & Hinv'' & _).
    rewrite Hclose in Hrun. injection Hrun as <-.
    by apply (close_component_order adj gray v cur st'').
Qed.

Lemma roots_loop_order limit : ∀ l st st',
  (∀ k, k ∈ l → k ∈ od_keys adj) →
  tarjan_inv adj ∅ st →
  size (unvisited adj st) ≤ limit →
  topo_closed adj (sccs st) →
  for_each (λ v st, if bool_decide (v ∉ dom (indices st))
                    then strongconnect adj limit v st else Ok st) l st = Ok st' →
  topo_closed adj (sccs st').
Proof.
  induction l as [|v l IH]; intros st st' Hkeys Hinv Hsize Ht; cbn [for_each].
  - by intros [= <-].
  - intros (st1 & Hstep & Hrest)%bind_Ok.
    assert (tarjan_inv adj ∅ st1 ∧ (∀ x, visited st x → visited st1 x)
            ∧ topo_closed adj (sccs st1)) as (Hinv1 & Hsub1 & Ht1).
    { case_bool_decide as Hv; [|by injection Hstep as <-].
      rewrite <- visited_dom in Hv.
      assert (Hgray : ∀ g, g ∈ (∅ : gset string) → reach adj g v)
        by (by intros g ?%not_elem_of_empty).
      destruct (strongconnect_spec adj adj_closed limit ∅ v st Hinv Hv)
        as (st1' & Hsc & Hinv1 & Hgrow & _); [apply Hkeys; by left|done..|].
      rewrite Hsc in Hstep. injection Hstep as <-.
      split; [done|]. split; [intros x; by apply grows_visited|].
      apply (strongconnect_order limit ∅ v st st1' Hinv Hv); [apply Hkeys; by left|done..]. }
    apply (IH st1 st'); [|done| |done..].
    + intros k Hk. apply Hkeys. by right.
    + pose proof (unvisited_mono adj st st1 Hsub1). lia.
Qed.

Lemma find_sccs_order limit st :
  find_sccs adj limit = Ok st → topo_closed adj (sccs st).
Proof.
  intros Hrun.
  set (big := limit `max` size (list_to_set (od_keys adj) : gset string)).
  apply (find_sccs_mono adj limit big) in Hrun; [|lia].
  apply (roots_loop_order big (od_keys adj) tarjan_init st); [done| | | |done].
  - apply tarjan_init_inv.
  - etrans; [|apply Nat.le_max_r]. apply subseteq_size. unfold unvisited. set_solver.
  - apply topo_closed_nil.
Qed.
End topo.

Lemma closed_under_reach adj (l : list string) :
  (∀ x y, x ∈ l → succ_rel adj x y → y ∈ l) →
  ∀ x y, reach adj x y → x ∈ l → y ∈ l.
Proof.
  intros Hclosed x y Hxy. induction Hxy as [x|x z y Hxz _ IH]; [done|].
  intros Hx. apply IH. by apply (Hclosed x z).
Qed.

Lemma topo_closed_sorted adj l : ∀ front,
  (∀ p s, l = p ++ s → ∀ x y, x ∈ concat (front ++ p) → succ_rel adj x y →
                              y ∈ concat (front ++ p)) →
  NoDup (concat (front ++ l)) →
  StronglySorted (λ c1 c2, ∀ x y, x ∈ c1 → y ∈ c2 → ¬ reach adj x y) l.
Proof.
  induction l as [|c l IH]; intros front Hclosed Hnd; [constructor|].
  constructor.
  - apply (IH (front ++ [c])).
    + intros p s -> x y. rewrite <- (assoc_L (++)). by apply (Hclosed (c :: p) s).
    + by rewrite <- (assoc_L (++)).
  - apply Forall_forall. intros c2 Hc2 x y Hx Hy Hxy.
    assert (Hin : y ∈ concat (front ++ [c])).
    { apply (closed_under_reach adj _ (Hclosed [c] l eq_refl) x y Hxy).
      rewrite concat_app. apply elem_of_app. right. cbn. rewrite app_nil_r. done. }
    change (c :: l) with ([c] ++ l) in Hnd.
    rewrite (assoc_L (++) front [c] l), concat_app in Hnd.
    apply NoDup_app in Hnd as (_ & Hdisj & _).
    apply (Hdisj y Hin). apply elem_of_concat. by exists c2.
Qed.

Section order_claims.
Context `{SetOrder}.

Lemma sccs_dependency_order limit g st :
  find_sccs (build_adjacency g) limit = Ok st →
  StronglySorted (unreachable_from g) (sccs st).
Proof.
  intros Hst.
  pose proof (find_sccs_order (build_adjacency g) (build_adjacency_closed g) limit st Hst)
    as Ht.
  destruct (sccs_of_graph limit g st Hst) as (Hnd & _ & _).
  eapply StronglySorted_impl; [|apply (topo_closed_sorted (build_adjacency g) _ [])].
  - intros c1 c2 Hc x y Hx Hy Hxy. apply (Hc x y Hx Hy). by apply build_adjacency_reach.
  - intros p s Hsplit. cbn [app]. by apply (Ht p s).
  - done.
Qed.

(** X18.  [find_sccs] returns when the limit covers the vertices, and the
    components it returns partition the vertices into strongly connected
    components, listed dependencies first: no member of a component
    reaches a member of a component listed later. *)
Theorem find_sccs_partition_in_dependency_order limit g :
  (size (vertices g) ≤ limit → ∃ st, find_sccs (build_adjacency g) limit = Ok st)
  ∧ ∀ st, find_sccs (build_adjacency g) limit = Ok st →
      NoDup (concat (sccs st))
      ∧ (∀ x, x ∈ concat (sccs st) ↔ x ∈ vertices g)
      ∧ (∀ c, c ∈ sccs st → is_scc g (list_to_set c))
      ∧ StronglySorted (unreachable_from g) (sccs st).
Proof.
  split.
  - intros Hsize.
    destruct (find_sccs_total (build_adjacency g) (build_adjacency_closed g) limit)
      as (st & Hst & _); [by rewrite build_adjacency_size|]. by exists st.
  - intros st Hst. destruct (sccs_of_graph limit g st Hst) as (Hnd & Hcover & Hcls).
    split; [done|]. split; [done|]. split; [|by apply (sccs_dependency_order limit)].
    intros c Hc. destruct (Hcls c Hc) as (Hne & _ & Hclass).
    destruct c as [|x c]; [done|]. exists x. split.
    + apply Hcover, elem_of_concat. exists (x :: c). split; [done|by left].
    + intros y. rewrite elem_of_list_to_set. apply Hclass. by left.
Qed.

(** X19.  The cycle components are recorded dependencies first: no member
    of a recorded component reaches a member of a component recorded after
    it. *)
Theorem cycle_components_in_dependency_order limit g :
  (size (vertices g) ≤ limit → ∃ g', mark_cycles limit g = Ok g')
  ∧ ∀ g', mark_cycles limit g = Ok g' →
      StronglySorted (unreachable_from g) (cycle_components g').
Proof.
  split; [apply mark_cycles_total|]. intros g' Hrun.
  pose proof (mark_cycles_inv _ _ _ Hrun) as (st & Hst & _ & _ & _ & _ & _ & Hcc & _).
  rewrite Hcc. apply (StronglySorted_fmap _ (unreachable_from g)).
  - unfold unreachable_from. intros c1 c2 Hc x y Hx Hy.
    rewrite elem_of_sorted in Hx, Hy. by apply Hc.
  - apply StronglySorted_filter. by apply (sccs_dependency_order limit).
Qed.
End order_claims.

(** ** The adjacency dictionary, again *)

Lemma od_setdefault_NoDup {V} k (v : V) d :
  od_wf d → NoDup (od_keys d) → NoDup (od_keys (od_setdefault k v d)).
Proof.
  intros Hwf Hnd. unfold od_setdefault. destruct (od_map d !! k) eqn:Hk; [done|].
  cbn [od_keys]. apply NoDup_app. split; [done|]. split; [|apply NoDup_singleton].
  intros x Hx ->%list_elem_of_singleton. apply Hwf in Hx as [? Hx]. congruence.
Qed.

Lemma adj_add_NoDup a b d : od_wf d → NoDup (od_keys d) → NoDup (od_keys (adj_add a b d)).
Proof. intros Hwf Hnd. unfold adj_add. cbn [od_keys]. by apply od_setdefault_NoDup. Qed.

Section adjacency_claims.
Context `{SetOrder}.

Lemma build_edges_NoDup (l : list (string * string)) : ∀ d : odict (gset string),
  od_wf d → NoDup (od_keys d) →
  NoDup (od_keys (fold_left (λ adj e, od_setdefault e.2 ∅ (adj_add e.1 e.2 adj)) l d)).
Proof.
  induction l as [|[a b] l IH]; intros d Hwf Hnd; cbn [fold_left fst snd]; [done|].
  destruct (adj_add_spec a b d Hwf) as (Hwf1 & _).
  destruct (od_setdefault_spec b _ Hwf1) as (Hwf2 & _).
  apply IH; [done|]. apply od_setdefault_NoDup; [done|]. by apply adj_add_NoDup.
Qed.

Lemma build_nodes_NoDup (l : list string) : ∀ d : odict (gset string),
  od_wf d → NoDup (od_keys d) →
  NoDup (od_keys (fold_left (λ adj n, od_setdefault n ∅ adj) l d)).
Proof.
  induction l as [|n l IH]; intros d Hwf Hnd; cbn [fold_left]; [done|].
  destruct (od_setdefault_spec n d Hwf) as (Hwf1 & _).
  apply IH; [done|]. by apply od_setdefault_NoDup.
Qed.

(** X20.  The adjacency dictionary has one key for each vertex (every
    target, every library and every endpoint of an edge), each key once
    and each with an entry, and the successors stored for a key are
    exactly the destinations of its edges. *)
Theorem build_adjacency_lists_each_vertex_once g :
  NoDup (od_keys (build_adjacency g))
  ∧ (∀ x, x ∈ od_keys (build_adjacency g) ↔ x ∈ vertices g)
  ∧ (∀ x, x ∈ vertices g → is_Some (od_map (build_adjacency g) !! x))
  ∧ (∀ a b, b ∈ adj_get (build_adjacency g) a ↔ (a, b) ∈ edges g).
Proof.
  destruct (build_edges_spec (iter_pairs (edges g)) od_empty od_empty_wf)
    as (Hwf1 & _ & _).
  destruct (build_nodes_spec (iter_names (target_nodes g ∪ lib_nodes g)) _ Hwf1)
    as (Hwf2 & _ & _).
  split; [|split; [|split]].
  - unfold build_adjacency. apply build_nodes_NoDup; [done|].
    apply build_edges_NoDup; [apply od_empty_wf|apply NoDup_nil_2].
  - apply build_adjacency_keys.
  - intros x Hx. apply (Hwf2 x). by apply build_adjacency_keys.
  - intros a b. apply (build_adjacency_succ g a b).
Qed.
End adjacency_claims.

(** ** The filters, again *)

Lemma has_url_subtitle_ext ann1 ann2 l :
  ann1 !! l = ann2 !! l → has_url_subtitle ann1 l = has_url_subtitle ann2 l.
Proof. unfold has_url_subtitle. by intros ->. Qed.

Lemma match_any_app ps qs t : match_any (ps ++ qs) t = match_any ps t || match_any qs t.
Proof. unfold match_any. apply existsb_app. Qed.

Lemma name_allowed_more_excludes inc exc extra n :
  name_allowed inc (extra ++ exc) n = true → name_allowed inc exc n = true.
Proof.
  unfold name_allowed. rewrite match_any_app.
  destruct (match_any extra n); [done|]. done.
Qed.

Section filter_more.
Context `{SetOrder}.

Lemma filtered_lib_facts f keep g l :
  l ∈ lib_nodes (apply_filters f keep g) →
  annotations (apply_filters f keep g) !! l = annotations g !! l
  ∧ lib_meta (apply_filters f keep g) !! l = inferred f (annotations g) (lib_meta g) l
  ∧ ext_key (annotations (apply_filters f keep g)) (lib_meta (apply_filters f keep g)) l
    = ext_key (annotations g) (lib_meta g) l
  ∧ inferred f (annotations (apply_filters f keep g)) (lib_meta (apply_filters f keep g)) l
    = lib_meta (apply_filters f keep g) !! l.
Proof.
  intros Hl.
  assert (Hann : annotations (apply_filters f keep g) !! l = annotations g !! l).
  { by rewrite apply_filters_annotations, bool_decide_eq_true_2. }
  assert (Hlm : lib_meta (apply_filters f keep g) !! l
                = inferred f (annotations g) (lib_meta g) l).
  { by rewrite apply_filters_lib_meta, bool_decide_eq_true_2. }
  pose proof (has_url_subtitle_ext _ _ l Hann) as Hurl.
  split; [done|]. split; [done|].
  rewrite (inferred_unfold f (annotations (apply_filters f keep g))).
  unfold ext_key. rewrite Hurl, Hlm, inferred_unfold.
  destruct (name_allowed _ _ l) eqn:Hn; cbn [andb]; [|done].
  destruct (has_url_subtitle (annotations g) l) eqn:Hu; cbn [andb]; [|done].
  destruct (meta_ext (default empty_meta (lib_meta g !! l))) as [e|] eqn:He.
  - rewrite bool_decide_eq_false_2 by done. rewrite He.
    rewrite bool_decide_eq_false_2 by done. done.
  - rewrite bool_decide_eq_true_2 by done. cbn. done.
Qed.

Lemma filtered_lib_ok f keep g l :
  l ∈ lib_nodes (apply_filters f keep g) →
  lib_ok f (apply_filters f keep g) l = lib_ok f g l.
Proof.
  intros Hl. unfold lib_ok. rewrite !lib_allowed_spec.
  by destruct (filtered_lib_facts f keep g l Hl) as (_ & _ & -> & _).
Qed.

(** X21.  Filtering is idempotent: applying the same filters to a
    filtered graph changes nothing. *)
Theorem apply_filters_idempotent f keep g :
  apply_filters f keep (apply_filters f keep g) = apply_filters f keep g.
Proof.
  assert (He : edges (apply_filters f keep (apply_filters f keep g))
               = edges (apply_filters f keep g)).
  { apply set_eq. intros e. rewrite apply_filters_edges. split; [by intros [? _]|].
    intros He. split; [done|].
    pose proof He as He0. apply apply_filters_edges in He0 as [_ (H1 & H2 & H3)].
    split; [|split].
    - intros [Ht _]%apply_filters_target_nodes. by apply H1.
    - intros [Ht _]%apply_filters_target_nodes. by apply H2.
    - intros Hl. rewrite (filtered_lib_ok f keep g _ Hl).
      apply H3. by apply apply_filters_lib_nodes in Hl as [? _]. }
  assert (Hl : lib_nodes (apply_filters f keep (apply_filters f keep g))
               = lib_nodes (apply_filters f keep g)).
  { apply set_eq. intros x. rewrite apply_filters_lib_nodes, He. split; [by intros [? _]|].
    intros Hx. split; [done|]. by apply apply_filters_lib_nodes in Hx as [_ ?]. }
  apply graph_eq; try done.
  - apply set_eq. intros x. rewrite apply_filters_target_nodes, He.
    split; [by intros [? _]|]. intros Hx. split; [done|].
    by apply apply_filters_target_nodes in Hx as [_ ?].
  - apply map_eq. intros l. rewrite apply_filters_annotations, Hl.
    case_bool_decide as Hin; [done|]. symmetry. 
    by rewrite apply_filters_annotations, bool_decide_eq_false_2.
  - apply map_eq. intros l. rewrite apply_filters_lib_meta, Hl.
    case_bool_decide as Hin.
    + by destruct (filtered_lib_facts f keep g l Hin) as (_ & _ & _ & ->).
    + symmetry. by rewrite apply_filters_lib_meta, bool_decide_eq_false_2.
  - by rewrite !apply_filters_unfold.
  - by rewrite !apply_filters_unfold.
  - by rewrite !apply_filters_unfold.
Qed.

(** X22.  Further exclusions only remove: with more exclusion patterns
    and suffixes, the filtered graph has no node and no edge that the
    filtered graph did not have before. *)
Theorem more_excludes_only_remove f targets libs suffixes keep g :
  edges (apply_filters (with_excludes f targets libs suffixes) keep g)
    ⊆ edges (apply_filters f keep g)
  ∧ target_nodes (apply_filters (with_excludes f targets libs suffixes) keep g)
    ⊆ target_nodes (apply_filters f keep g)
  ∧ lib_nodes (apply_filters (with_excludes f targets libs suffixes) keep g)
    ⊆ lib_nodes (apply_filters f keep g).
Proof.
  set (f' := with_excludes f targets libs suffixes).
  assert (Ht : ∀ t, target_allowed f' t = true → target_allowed f t = true).
  { intros t. rewrite !target_allowed_spec. apply name_allowed_more_excludes. }
  assert (Hlib : ∀ l, lib_ok f' g l = true → lib_ok f g l = true).
  { intros l. unfold lib_ok. rewrite !lib_allowed_spec.
    intros [Hn Hs]%andb_true_iff. apply andb_true_iff. split.
    - by apply (name_allowed_more_excludes _ _ libs).
    - apply suffix_allowed_spec in Hs as [Hinc Hexc]. apply suffix_allowed_spec.
      split; [done|]. intros Hin. apply Hexc. unfold exc_suf in *.
      cbn [f' with_excludes exclude_suffixes]. set_solver. }
  assert (He : edges (apply_filters f' keep g) ⊆ edges (apply_filters f keep g)).
  { intros e. rewrite !apply_filters_edges. intros [Hin (H1 & H2 & H3)].
    split; [done|]. split; [|split]; auto. }
  split; [done|]. split.
  - intros x. rewrite !apply_filters_target_nodes.
    intros [Hx [(e & Hin & Hxe)|[Hk Ha]]]; (split; [done|]).
    + left. exists e. split; [by apply He|done].
    + right. split; [done|]. by apply Ht.
  - intros x. rewrite !apply_filters_lib_nodes. intros [Hx [a Ha]].
    split; [done|]. exists a. by apply He.
Qed.
End filter_more.

(** ** The tables of the parser *)

Lemma isa_eqb_true o s :
  s ≠ "" → (default "" (Pbx.isa o) =? s)%string = true ↔ Pbx.isa o = Some s.
Proof.
  intros Hs. rewrite String.eqb_eq. destruct (Pbx.isa o) as [i|]; cbn; naive_solver.
Qed.

Lemma isa_eqb_false o s :
  s ≠ "" → (default "" (Pbx.isa o) =? s)%string = false ↔ Pbx.isa o ≠ Some s.
Proof.
  intros Hs. rewrite <- (isa_eqb_true o s Hs). by destruct (_ =? _)%string.
Qed.

Lemma tables_of_empty by_id : tables_of [] by_id empty_tables.
Proof.
  constructor; cbn; intros;
    rewrite ?lookup_empty; try (apply od_empty_wf);
    unfold is_native_target; split; try done;
    try (intros (? & ?%elem_of_nil & _); done);
    try (intros (? & ? & [?%elem_of_nil _] & _); done);
    try (intros (? & [?%elem_of_nil _] & _); done);
    try (intros [?%elem_of_nil _]; done);
    try (intros ?%elem_of_nil; done).
Qed.

Ltac tables_field Hfresh :=
  unfold is_native_target;
  repeat setoid_rewrite elem_of_app; repeat setoid_rewrite list_elem_of_singleton;
  pose proof Hfresh; naive_solver.

Lemma tables_of_step done by_id tb k o :
  tables_of done by_id tb → (∀ o', (k, o') ∉ done) →
  tables_of (done ++ [(k, o)]) by_id (scan_object by_id tb (k, o)).
Proof.
  intros [Hfr Hbf Hph Htp Htpwf Hnm Hnmwf Hdp Hpr Hpk] Hfresh. unfold scan_object.
  destruct (default "" (Pbx.isa o) =? "PBXFileReference")%string eqn:E1;
    [apply isa_eqb_true in E1; [|done]|apply isa_eqb_false in E1; [|done]].
  { constructor; cbn [file_refs build_files_to_filerefs frameworks_phase_to_files
      target_to_frameworks_phases target_names target_dependencies spm_products
      spm_packages];
      try done; intros.
    - rewrite lookup_insert_Some, Hfr. tables_field Hfresh.
    - rewrite Hbf. tables_field Hfresh.
    - rewrite Hph. tables_field Hfresh.
    - rewrite Htp. tables_field Hfresh.
    - rewrite Hnm. tables_field Hfresh.
    - rewrite Hdp. tables_field Hfresh.
    - rewrite Hpr. tables_field Hfresh.
    - rewrite Hpk. tables_field Hfresh. }
  destruct (default "" (Pbx.isa o) =? "PBXBuildFile")%string eqn:E2;
    [apply isa_eqb_true in E2; [|done]|apply isa_eqb_false in E2; [|done]].
  { destruct (Pbx.fileRef o) as [r|] eqn:Hr;
      constructor; cbn [file_refs build_files_to_filerefs frameworks_phase_to_files
        target_to_frameworks_phases target_names target_dependencies spm_products
      spm_packages];
      try done; intros.
    - rewrite Hfr. tables_field Hfresh.
    - rewrite lookup_insert_Some, Hbf. tables_field Hfresh.
    - rewrite Hph. tables_field Hfresh.
    - rewrite Htp. tables_field Hfresh.
    - rewrite Hnm. tables_field Hfresh.
    - rewrite Hdp. tables_field Hfresh.
    - rewrite Hpr. tables_field Hfresh.
    - rewrite Hpk. tables_field Hfresh.
    - rewrite Hfr. tables_field Hfresh.
    - rewrite Hbf. tables_field Hfresh.
    - rewrite Hph. tables_field Hfresh.
    - rewrite Htp. tables_field Hfresh.
    - rewrite Hnm. tables_field Hfresh.
    - rewrite Hdp. tables_field Hfresh.
    - rewrite Hpr. tables_field Hfresh.
    - rewrite Hpk. tables_field Hfresh. }
  destruct (default "" (Pbx.isa o) =? "PBXFrameworksBuildPhase")%string eqn:E3;
    [apply isa_eqb_true in E3; [|done]|apply isa_eqb_false in E3; [|done]].
  { constructor; cbn [file_refs build_files_to_filerefs frameworks_phase_to_files
      target_to_frameworks_phases target_names target_dependencies spm_products
      spm_packages];
      try done; intros.
    - rewrite Hfr. tables_field Hfresh.
    - rewrite Hbf. tables_field Hfresh.
    - rewrite lookup_insert_Some, Hph. tables_field Hfresh.
    - rewrite Htp. tables_field Hfresh.
    - rewrite Hnm. tables_field Hfresh.
    - rewrite Hdp. tables_field Hfresh.
    - rewrite Hpr. tables_field Hfresh.
    - rewrite Hpk. tables_field Hfresh. }
  destruct (default "" (Pbx.isa o) =? "PBXNativeTarget")%string eqn:E4;
    [apply isa_eqb_true in E4; [|done]|apply isa_eqb_false in E4; [|done]].
  { constructor; cbn [file_refs build_files_to_filerefs frameworks_phase_to_files
      target_to_frameworks_phases target_names target_dependencies spm_products
      spm_packages];
      try (by apply od_insert_wf); intros.
    - rewrite Hfr. tables_field Hfresh.
    - rewrite Hbf. tables_field Hfresh.
    - rewrite Hph. tables_field Hfresh.
    - cbn [od_insert od_map]. rewrite lookup_insert_Some, Htp. unfold target_label.
      tables_field Hfresh.
    - cbn [od_insert od_map]. rewrite lookup_insert_Some, Hnm. unfold target_label.
      tables_field Hfresh.
    - rewrite elem_of_app, Hdp. tables_field Hfresh.
    - rewrite Hpr. tables_field Hfresh.
    - rewrite Hpk. tables_field Hfresh. }
  destruct (default "" (Pbx.isa o) =? "XCSwiftPackageProductDependency")%string eqn:E5;
    [apply isa_eqb_true in E5; [|done]|apply isa_eqb_false in E5; [|done]].
  { constructor; cbn [file_refs build_files_to_filerefs frameworks_phase_to_files
      target_to_frameworks_phases target_names target_dependencies spm_products
      spm_packages];
      try done; intros.
    - rewrite Hfr. tables_field Hfresh.
    - rewrite Hbf. tables_field Hfresh.
    - rewrite Hph. tables_field Hfresh.
    - rewrite Htp. tables_field Hfresh.
    - rewrite Hnm. tables_field Hfresh.
    - rewrite Hdp. tables_field Hfresh.
    - rewrite lookup_insert_Some, Hpr. tables_field Hfresh.
    - rewrite Hpk. tables_field Hfresh. }
  destruct (default "" (Pbx.isa o) =? "XCRemoteSwiftPackageReference")%string eqn:E6;
    [apply isa_eqb_true in E6; [|done]|apply isa_eqb_false in E6; [|done]].
  { constructor; cbn [file_refs build_files_to_filerefs frameworks_phase_to_files
      target_to_frameworks_phases target_names target_dependencies spm_products
      spm_packages];
      try done; intros.
    - rewrite Hfr. tables_field Hfresh.
    - rewrite Hbf. tables_field Hfresh.
    - rewrite Hph. tables_field Hfresh.
    - rewrite Htp. tables_field Hfresh.
    - rewrite Hnm. tables_field Hfresh.
    - rewrite Hdp. tables_field Hfresh.
    - rewrite Hpr. tables_field Hfresh.
    - rewrite lookup_insert_Some, Hpk. tables_field Hfresh. }
  constructor; try done; intros.
  - rewrite Hfr. tables_field Hfresh.
  - rewrite Hbf. tables_field Hfresh.
  - rewrite Hph. tables_field Hfresh.
  - rewrite Htp. tables_field Hfresh.
  - rewrite Hnm. tables_field Hfresh.
  - rewrite Hdp. tables_field Hfresh.
  - rewrite Hpr. tables_field Hfresh.
  - rewrite Hpk. tables_field Hfresh.
Qed.

Lemma tables_of_scan by_id objects :
  NoDup objects.*1 →
  tables_of objects by_id (fold_left (scan_object by_id) objects empty_tables).
Proof.
  induction objects as [|[k o] objects IH] using rev_ind; intros Hnd.
  - apply tables_of_empty.
  - rewrite fmap_app in Hnd. apply NoDup_app in Hnd as (Hnd & Hdisj & _).
    rewrite fold_left_app. cbn [fold_left]. apply tables_of_step; [by apply IH|].
    intros o' Hin. apply (Hdisj k); [|by left].
    apply list_elem_of_fmap. by exists (k, o').
Qed.


Lemma is_library_like_truthy p : is_library_like p = true → str_truthy p = true.
Proof. by destruct p. Qed.

Section parse_char.
Variables (objects : list (string * Pbx.object)) (by_id : gmap string Pbx.object)
  (tb : tables).
Hypothesis Hnd : NoDup objects.*1.
Hypothesis Hdef : by_id = list_to_map objects.
Hypothesis Htb : tables_of objects by_id tb.

Lemma by_id_lookup k o : by_id !! k = Some o ↔ (k, o) ∈ objects.
Proof. rewrite Hdef. symmetry. by apply elem_of_list_to_map. Qed.

Lemma objects_functional k o1 o2 : (k, o1) ∈ objects → (k, o2) ∈ objects → o1 = o2.
Proof. rewrite <- !by_id_lookup. congruence. Qed.

Lemma objects_get_isa k s :
  Pbx.isa (objects_get by_id k) = Some s ↔ ∃ o, (k, o) ∈ objects ∧ Pbx.isa o = Some s.
Proof.
  unfold objects_get. destruct (by_id !! k) as [o|] eqn:E; cbn.
  - apply by_id_lookup in E. split; [by eauto|]. intros (o' & Hin & His).
    by rewrite (objects_functional k o o').
  - split; [done|]. intros (o' & Hin%by_id_lookup & _). congruence.
Qed.

Lemma target_name_native k o :
  is_native_target objects k o → target_name tb k = target_label k o.
Proof.
  intros Hn. unfold target_name.
  by rewrite (proj2 (t_names _ _ _ Htb k (target_label k o)) (ex_intro _ o (conj Hn eq_refl))).
Qed.

Lemma target_name_other k :
  (∀ o, ¬ is_native_target objects k o) → target_name tb k = k.
Proof.
  intros Hnone. unfold target_name.
  destruct (od_map (target_names tb) !! k) as [n|] eqn:E; [|done].
  apply (t_names _ _ _ Htb) in E as (o & Hn & _). by apply Hnone in Hn.
Qed.

Lemma elem_of_target_facts f :
  f ∈ map (λ item, AddTarget item.2) (od_items (target_names tb))
  ↔ ∃ t_id t, is_native_target objects t_id t ∧ f = AddTarget (target_label t_id t).
Proof.
  rewrite list_elem_of_fmap. split.
  - intros ([k n] & -> & [_ Hk]%elem_of_od_items). cbn in *.
    apply (t_names _ _ _ Htb) in Hk as (o & Hn & ->). eauto.
  - intros (k & o & Hn & ->). exists (k, target_label k o). split; [done|].
    assert (od_map (target_names tb) !! k = Some (target_label k o)) as Hk
      by (apply (t_names _ _ _ Htb); eauto).
    apply elem_of_od_items. cbn. split; [|done].
    apply (t_names_wf _ _ _ Htb). by eexists.
Qed.

Lemma build_file_facts_spec t_name bf_id f :
  f ∈ build_file_facts tb t_name bf_id
  ↔ ∃ bf fr_id fr,
      (bf_id, bf) ∈ objects ∧ Pbx.isa bf = Some "PBXBuildFile"
      ∧ Pbx.fileRef bf = Some fr_id ∧ fr_id ≠ ""
      ∧ (fr_id, fr) ∈ objects ∧ Pbx.isa fr = Some "PBXFileReference"
      ∧ is_library_like (file_path fr) = true
      ∧ (f = AddLib (basename_without_ext (file_path fr)) None
                    (detect_system_framework fr) (Some (ext_from_path (file_path fr)))
         ∨ f = AddEdge t_name (basename_without_ext (file_path fr))).
Proof.
  unfold build_file_facts.
  destruct (build_files_to_filerefs tb !! bf_id) as [fr_id|] eqn:Ebf.
  - apply (t_build_files _ _ _ Htb) in Ebf as (bf & Hbf & Hisa & Href).
    destruct (str_truthy fr_id) eqn:Hfr; cbn [negb].
    + destruct (file_refs tb !! fr_id) as [fr|] eqn:Efr; cbn [from_option]; unfold id.
      * apply (t_file_refs _ _ _ Htb) in Efr as [Hfrin Hfrisa].
        fold (file_path fr).
        destruct (is_library_like (file_path fr)) eqn:Hlib.
        -- rewrite (is_library_like_truthy _ Hlib). cbn [negb]. split.
           ++ intros Hf. exists bf, fr_id, fr.
              repeat (split; [done || by destruct fr_id|]).
              apply elem_of_cons in Hf as [->|Hf]; [by left|].
              apply elem_of_cons in Hf as [->|Hf]; [by right|].
              by apply elem_of_nil in Hf.
           ++ intros (bf' & fr_id' & fr' & Hbf' & _ & Href' & _ & Hfr' & _ & _ & Hf).
              rewrite (objects_functional _ _ _ Hbf' Hbf) in Href'.
              assert (fr_id' = fr_id) as -> by congruence.
              rewrite (objects_functional _ _ _ Hfr' Hfrin) in Hf.
              destruct Hf as [-> | ->]; [left|right; left].
        -- split.
           ++ destruct (negb _); by intros ?%elem_of_nil.
           ++ intros (bf' & fr_id' & fr' & Hbf' & _ & Href' & _ & Hfr' & _ & Hlib' & _).
              rewrite (objects_functional _ _ _ Hbf' Hbf) in Href'.
              assert (fr_id' = fr_id) as -> by congruence.
              rewrite (objects_functional _ _ _ Hfr' Hfrin) in Hlib'. congruence.
      * cbn. split; [by intros ?%elem_of_nil|].
        intros (bf' & fr_id' & fr' & Hbf' & _ & Href' & _ & Hfr' & Hfrisa & _).
        rewrite (objects_functional _ _ _ Hbf' Hbf) in Href'.
        assert (fr_id' = fr_id) as -> by congruence.
        assert (file_refs tb !! fr_id = Some fr') as Hsome
          by (by apply (t_file_refs _ _ _ Htb)).
        congruence.
    + split; [by intros ?%elem_of_nil|].
      intros (bf' & fr_id' & fr' & Hbf' & _ & Href' & Hne & _).
      rewrite (objects_functional _ _ _ Hbf' Hbf) in Href'.
      assert (fr_id' = fr_id) as -> by congruence. by destruct fr_id.
  - split; [by intros ?%elem_of_nil|].
    intros (bf' & fr_id' & fr' & Hbf' & Hisa & Href' & _).
    assert (build_files_to_filerefs tb !! bf_id = Some fr_id') as Hsome
      by (apply (t_build_files _ _ _ Htb); eauto).
    congruence.
Qed.

Lemma objects_get_in k o : (k, o) ∈ objects → objects_get by_id k = o.
Proof. intros Hin%by_id_lookup. unfold objects_get. by rewrite Hin. Qed.

Lemma framework_part_spec f :
  f ∈ (od_items (target_to_frameworks_phases tb) ≫= λ item,
         item.2 ≫= λ fp_id,
           default [] (frameworks_phase_to_files tb !! fp_id) ≫= λ bf_id,
             build_file_facts tb (target_name tb item.1) bf_id)
  ↔ ∃ a fr, links_file objects a fr ∧ is_library_like (file_path fr) = true
            ∧ (f = AddLib (basename_without_ext (file_path fr)) None
                          (detect_system_framework fr)
                          (Some (ext_from_path (file_path fr)))
               ∨ f = AddEdge a (basename_without_ext (file_path fr))).
Proof.
  split.
  - intros ([t_id fps] & Hf & Hitem)%list_elem_of_bind. cbn [fst snd] in Hf.
    apply elem_of_od_items in Hitem as [_ Hitem]. cbn [fst snd] in Hitem.
    apply (t_target_phases _ _ _ Htb) in Hitem as (t & Hnat & ->).
    apply list_elem_of_bind in Hf as (fp_id & Hf & [Hfpisa Hfp]%list_elem_of_filter).
    apply objects_get_isa in Hfpisa as (fp & Hfpin & Hfpisa).
    assert (frameworks_phase_to_files tb !! fp_id = Some (default [] (Pbx.files fp)))
      as Hfiles by (apply (t_phases _ _ _ Htb); eauto).
    rewrite Hfiles in Hf. cbn [from_option] in Hf. unfold id in Hf.
    apply list_elem_of_bind in Hf as (bf_id & Hf & Hbf).
    apply build_file_facts_spec in Hf
      as (bf & fr_id & fr & Hbfin & Hbfisa & Href & Hne & Hfrin & Hfrisa & Hlib & Hf).
    exists (target_label t_id t), fr. split; [|split; [done|]].
    + exists t_id, t, fp_id, fp, bf_id, bf, fr_id. destruct Hnat. by repeat split.
    + by rewrite (target_name_native t_id t Hnat) in Hf.
  - intros (a & fr & (t_id & t & fp_id & fp & bf_id & bf & fr_id & Hnat & -> & Hfp
                      & Hfpin & Hfpisa & Hbf & Hbfin & Hbfisa & Href & Hne & Hfrin
                      & Hfrisa) & Hlib & Hf).
    apply list_elem_of_bind.
    exists (t_id, filter (λ ph_id, Pbx.isa (objects_get by_id ph_id)
                                   = Some "PBXFrameworksBuildPhase")
                         (default [] (Pbx.buildPhases t))).
    assert (od_map (target_to_frameworks_phases tb) !! t_id
            = Some (filter (λ ph_id, Pbx.isa (objects_get by_id ph_id)
                                     = Some "PBXFrameworksBuildPhase")
                           (default [] (Pbx.buildPhases t)))) as Hlook
      by (apply (t_target_phases _ _ _ Htb); eauto).
    split.
    + cbn [fst snd]. apply list_elem_of_bind. exists fp_id. split.
      * assert (frameworks_phase_to_files tb !! fp_id = Some (default [] (Pbx.files fp)))
          as Hfiles by (apply (t_phases _ _ _ Htb); eauto).
        rewrite Hfiles. cbn [from_option]. unfold id.
        apply list_elem_of_bind. exists bf_id. split; [|done].
        apply build_file_facts_spec. exists bf, fr_id, fr.
        rewrite (target_name_native t_id t Hnat). by repeat split.
      * apply list_elem_of_filter. split; [|done]. apply objects_get_isa. eauto.
    + apply elem_of_od_items. cbn [fst snd]. split; [|done].
      apply (t_target_phases_wf _ _ _ Htb). by eexists.
Qed.

Lemma package_repo pkg_id :
  default None (spm_packages tb !! pkg_id)
  = match by_id !! pkg_id with
    | Some pkg =>
        if bool_decide (Pbx.isa pkg = Some "XCRemoteSwiftPackageReference")
        then Pbx.repositoryURL pkg else None
    | None => None
    end.
Proof.
  destruct (spm_packages tb !! pkg_id) as [u|] eqn:E.
  - apply (t_packages _ _ _ Htb) in E as (o & Hin & Hisa & ->).
    apply by_id_lookup in Hin. rewrite Hin. by rewrite bool_decide_eq_true_2.
  - cbn. destruct (by_id !! pkg_id) as [pkg|] eqn:Hin; [|done].
    case_bool_decide as Hisa; [|done]. apply by_id_lookup in Hin.
    assert (spm_packages tb !! pkg_id = Some (Pbx.repositoryURL pkg)) as Hsome
      by (apply (t_packages _ _ _ Htb); eauto).
    congruence.
Qed.

Lemma package_product_facts_spec t_name p_id f :
  f ∈ package_product_facts tb t_name p_id
  ↔ ∃ prod, (p_id, prod) ∈ objects
            ∧ Pbx.isa prod = Some "XCSwiftPackageProductDependency"
            ∧ (f = AddLib (or_str (Pbx.productName prod) ("SPMProduct:" +:+ p_id))
                          (Some (package_subtitle objects prod)) false (Some "spm")
               ∨ f = AddEdge t_name
                       (or_str (Pbx.productName prod) ("SPMProduct:" +:+ p_id))).
Proof.
  unfold package_product_facts.
  destruct (spm_products tb !! p_id) as [[pn pk]|] eqn:E.
  - apply (t_products _ _ _ Htb) in E as (prod & Hin & Hisa & -> & ->).
    assert (Hsub : (if opt_truthy
                         match Pbx.package prod with
                         | Some pkg_id => default None (spm_packages tb !! pkg_id)
                         | None => None
                         end
                    then default ""
                           match Pbx.package prod with
                           | Some pkg_id => default None (spm_packages tb !! pkg_id)
                           | None => None
                           end
                    else "Swift Package") = package_subtitle objects prod).
    { unfold package_subtitle. destruct (Pbx.package prod) as [pkg_id|]; [|done].
      by rewrite package_repo, Hdef. }
    rewrite Hsub. split.
    + intros Hf. exists prod. split; [done|]. split; [done|].
      apply elem_of_cons in Hf as [->|Hf]; [by left|].
      apply elem_of_cons in Hf as [->|Hf]; [by right|].
      by apply elem_of_nil in Hf.
    + intros (prod' & Hin' & _ & Hf).
      rewrite (objects_functional _ _ _ Hin' Hin) in Hf.
      destruct Hf as [-> | ->]; [left|right; left].
  - split; [by intros ?%elem_of_nil|].
    intros (prod & Hin & Hisa & _).
    assert (spm_products tb !! p_id = Some (Pbx.productName prod, Pbx.package prod))
      as Hsome by (apply (t_products _ _ _ Htb); eauto).
    congruence.
Qed.

Lemma package_part_spec f :
  f ∈ (objects ≫= λ item,
         if bool_decide (Pbx.isa item.2 = Some "PBXNativeTarget") then
           default [] (Pbx.packageProductDependencies item.2) ≫= λ p_id,
             package_product_facts tb (target_name tb item.1) p_id
         else [])
  ↔ ∃ t_id t p_id prod,
      is_native_target objects t_id t
      ∧ p_id ∈ default [] (Pbx.packageProductDependencies t)
      ∧ (p_id, prod) ∈ objects
      ∧ Pbx.isa prod = Some "XCSwiftPackageProductDependency"
      ∧ (f = AddLib (or_str (Pbx.productName prod) ("SPMProduct:" +:+ p_id))
                    (Some (package_subtitle objects prod)) false (Some "spm")
         ∨ f = AddEdge (target_label t_id t)
                 (or_str (Pbx.productName prod) ("SPMProduct:" +:+ p_id))).
Proof.
  rewrite list_elem_of_bind. split.
  - intros ([t_id t] & Hf & Hin). cbn [fst snd] in Hf.
    case_bool_decide as Hisa; [|by apply elem_of_nil in Hf].
    apply list_elem_of_bind in Hf as (p_id & Hf & Hp).
    apply package_product_facts_spec in Hf as (prod & Hprod & Hpisa & Hf).
    rewrite (target_name_native t_id t (conj Hin Hisa)) in Hf.
    exists t_id, t, p_id, prod. by repeat split.
  - intros (t_id & t & p_id & prod & [Hin Hisa] & Hp & Hprod & Hpisa & Hf).
    exists (t_id, t). split; [|done]. cbn [fst snd].
    rewrite bool_decide_eq_true_2 by done.
    apply list_elem_of_bind. exists p_id. split; [|done].
    apply package_product_facts_spec. exists prod.
    rewrite (target_name_native t_id t (conj Hin Hisa)). by repeat split.
Qed.

Lemma dependency_part_spec f :
  f ∈ map (λ d, AddEdge (target_name tb d.1) (target_name tb d.2))
          (target_dependencies tb)
  ↔ ∃ a b, dependency_edge objects a b ∧ f = AddEdge a b.
Proof.
  rewrite list_elem_of_fmap. split.
  - intros ([src dst] & -> & Hd). cbn [fst snd].
    apply (t_deps _ _ _ Htb) in Hd as (k & t & Hnat & Hd).
    unfold dependency_pairs in Hd. apply list_elem_of_omap in Hd as (dep_id & Hdep & Hd).
    case_bool_decide as Hisa; [|done].
    destruct (Pbx.target (objects_get by_id dep_id)) as [dst_id|] eqn:Htarget; [|done].
    destruct (str_truthy dst_id) eqn:Hdst; [|done]. injection Hd as <- <-.
    apply objects_get_isa in Hisa as Hisa'. destruct Hisa' as (dep & Hdepin & Hdepisa).
    rewrite (objects_get_in _ _ Hdepin) in Htarget.
    eexists _, _. split; [|done].
    exists k, t, dep_id, dep, dst_id.
    split; [done|]. split; [by rewrite (target_name_native k t Hnat)|].
    split; [done|]. split; [done|]. split; [done|]. split; [done|].
    split; [by destruct dst_id|].
    destruct (od_map (target_names tb) !! dst_id) as [n|] eqn:E.
    + apply (t_names _ _ _ Htb) in E as (d & Hdnat & ->). left. exists d.
      split; [done|]. by apply target_name_native.
    + right. assert (Hnone : ∀ d, ¬ is_native_target objects dst_id d).
      { intros d Hdnat.
        assert (od_map (target_names tb) !! dst_id = Some (target_label dst_id d))
          as Hsome by (apply (t_names _ _ _ Htb); eauto).
        congruence. }
      split; [done|]. by apply target_name_other.
  - intros (a & b & (k & t & dep_id & dep & dst_id & Hnat & -> & Hdep & Hdepin
                     & Hdepisa & Htarget & Hne & Hb) & ->).
    exists (k, dst_id). cbn [fst snd]. split.
    + rewrite (target_name_native k t Hnat). f_equal.
      destruct Hb as [(d & Hdnat & ->)|[Hnone ->]].
      * symmetry. by apply target_name_native.
      * symmetry. by apply target_name_other.
    + apply (t_deps _ _ _ Htb). exists k, t. split; [done|].
      unfold dependency_pairs. apply list_elem_of_omap. exists dep_id. split; [done|].
      rewrite (objects_get_in _ _ Hdepin), bool_decide_eq_true_2, Htarget by done.
      by destruct dst_id.
Qed.
End parse_char.

Lemma parse_facts_spec objects f :
  NoDup objects.*1 →
  f ∈ parse_facts (Pbx.mkJson (Some objects))
  ↔ (∃ t_id t, is_native_target objects t_id t ∧ f = AddTarget (target_label t_id t))
    ∨ (∃ a fr, links_file objects a fr ∧ is_library_like (file_path fr) = true
               ∧ (f = AddLib (basename_without_ext (file_path fr)) None
                             (detect_system_framework fr)
                             (Some (ext_from_path (file_path fr)))
                  ∨ f = AddEdge a (basename_without_ext (file_path fr))))
    ∨ (∃ t_id t p_id prod,
         is_native_target objects t_id t
         ∧ p_id ∈ default [] (Pbx.packageProductDependencies t)
         ∧ (p_id, prod) ∈ objects
         ∧ Pbx.isa prod = Some "XCSwiftPackageProductDependency"
         ∧ (f = AddLib (or_str (Pbx.productName prod) ("SPMProduct:" +:+ p_id))
                       (Some (package_subtitle objects prod)) false (Some "spm")
            ∨ f = AddEdge (target_label t_id t)
                    (or_str (Pbx.productName prod) ("SPMProduct:" +:+ p_id))))
    ∨ (∃ a b, dependency_edge objects a b ∧ f = AddEdge a b).
Proof.
  intros Hnd. unfold parse_facts. cbn [Pbx.objects from_option]. unfold id.
  set (by_id := list_to_map objects : gmap string Pbx.object).
  set (tb := fold_left (scan_object by_id) objects empty_tables).
  pose proof (tables_of_scan by_id objects Hnd) as Htb. fold tb in Htb.
  rewrite !elem_of_app.
  rewrite (elem_of_target_facts objects by_id tb Htb).
  rewrite (framework_part_spec objects by_id tb Hnd eq_refl Htb).
  rewrite (package_part_spec objects by_id tb Hnd eq_refl Htb).
  rewrite (dependency_part_spec objects by_id tb Hnd eq_refl Htb).
  done.
Qed.

(** X23.  What the parser reads from a project whose objects have distinct
    identifiers.  The targets are the names of the native targets.  The
    libraries are the files, with a library-like path, that a native
    target lists in a frameworks build phase, under their base names, and
    the products of the package dependencies of the native targets.  The
    edges join a native target to each of these and to the targets it
    depends on, whenever both names are not empty. *)
Theorem parse_pbxproj_dependencies_reads_the_objects objects :
  NoDup objects.*1 →
  (∀ x, x ∈ target_nodes (parse_pbxproj_dependencies (Pbx.mkJson (Some objects)) new_graph)
        ↔ ∃ t_id t, is_native_target objects t_id t ∧ x = target_label t_id t)
  ∧ (∀ l, l ∈ lib_nodes (parse_pbxproj_dependencies (Pbx.mkJson (Some objects)) new_graph)
          ↔ ∃ a, file_edge objects a l ∨ package_edge objects a l)
  ∧ (∀ a b, (a, b) ∈ edges (parse_pbxproj_dependencies (Pbx.mkJson (Some objects))
                              new_graph)
            ↔ a ≠ "" ∧ b ≠ ""
              ∧ (file_edge objects a b ∨ package_edge objects a b
                 ∨ dependency_edge objects a b)).
Proof.
  intros Hnd. unfold parse_pbxproj_dependencies. split; [|split].
  - intros x. rewrite build_fold_targets, (parse_facts_spec objects _ Hnd). split.
    + intros [Hin|[(t_id & t & Hnat & Hf)|[Hf|[Hf|Hf]]]].
      * by apply not_elem_of_empty in Hin.
      * exists t_id, t. split; [done|]. by injection Hf.
      * destruct Hf as (? & ? & _ & _ & [?|?]); done.
      * destruct Hf as (? & ? & ? & ? & _ & _ & _ & _ & [?|?]); done.
      * destruct Hf as (? & ? & _ & ?); done.
    + intros (t_id & t & Hnat & ->). right. left. eauto.
  - intros l. rewrite build_fold_libs. split.
    + intros [Hin|(s & sy & e & Hf)]; [by apply not_elem_of_empty in Hin|].
      apply (parse_facts_spec objects _ Hnd) in Hf
        as [(? & ? & _ & ?)|[(a & fr & Hl & Hlib & Hf)|[Hf|(? & ? & _ & ?)]]];
        [done| | |done].
      * destruct Hf as [Hf|?]; [|done]. injection Hf as -> _ _ _.
        exists a. left. by exists fr.
      * destruct Hf as (t_id & t & p_id & prod & Hnat & Hp & Hprod & Hisa & [Hf|?]);
          [|done].
        injection Hf as -> _. exists (target_label t_id t). right.
        by exists t_id, t, p_id, prod.
    + intros (a & [(fr & Hl & Hlib & ->)|(t_id & t & p_id & prod & Hnat & -> & Hp
                                          & Hprod & Hisa & ->)]).
      * right. eexists _, _, _. apply (parse_facts_spec objects _ Hnd).
        right. left. exists a, fr. split; [done|]. split; [done|]. by left.
      * right. eexists _, _, _. apply (parse_facts_spec objects _ Hnd).
        right. right. left. exists t_id, t, p_id, prod.
        split; [done|]. split; [done|]. split; [done|]. split; [done|]. by left.
  - intros a b. rewrite build_fold_edges. cbn [fst snd].
    rewrite (parse_facts_spec objects _ Hnd).
    assert (Htruthy : ∀ s, str_truthy s = true ↔ s ≠ "") by (by intros []).
    rewrite !Htruthy. split.
    + intros [Hin|(Hf & Ha & Hb)]; [by apply not_elem_of_empty in Hin|].
      split; [done|]. split; [done|].
      destruct Hf as [(? & ? & _ & ?)|[(a' & fr & Hl & Hlib & Hf)|[Hf|Hf]]]; [done| | |].
      * destruct Hf as [?|Hf]; [done|]. injection Hf as -> ->. left. by exists fr.
      * destruct Hf as (t_id & t & p_id & prod & Hnat & Hp & Hprod & Hisa & [?|Hf]);
          [done|].
        injection Hf as -> ->. right. left. by exists t_id, t, p_id, prod.
      * destruct Hf as (a' & b' & Hdep & Hf). injection Hf as -> ->. by right; right.
    + intros (Ha & Hb & Hedge). right. split; [|done].
      destruct Hedge as [(fr & Hl & Hlib & ->)|[Hpkg|Hdep]].
      * right. left. exists a, fr. split; [done|]. split; [done|]. by right.
      * destruct Hpkg as (t_id & t & p_id & prod & Hnat & -> & Hp & Hprod & Hisa & ->).
        right. right. left. exists t_id, t, p_id, prod.
        split; [done|]. split; [done|]. split; [done|]. split; [done|]. by right.
      * right. right. right. by exists a, b.
Qed.

Lemma parse_pbxproj_dependencies_reads_the_objects_witness :
  (∀ x, x ∈ target_nodes (parse_pbxproj_dependencies (Pbx.mkJson (Some sample_objects))
                            new_graph)
        ↔ ∃ t_id t, is_native_target sample_objects t_id t ∧ x = target_label t_id t)
  ∧ (∀ l, l ∈ lib_nodes (parse_pbxproj_dependencies (Pbx.mkJson (Some sample_objects))
                           new_graph)
          ↔ ∃ a, file_edge sample_objects a l ∨ package_edge sample_objects a l)
  ∧ (∀ a b, (a, b) ∈ edges (parse_pbxproj_dependencies (Pbx.mkJson (Some sample_objects))
                              new_graph)
            ↔ a ≠ "" ∧ b ≠ ""
              ∧ (file_edge sample_objects a b ∨ package_edge sample_objects a b
                 ∨ dependency_edge sample_objects a b)).
Proof.
  apply (parse_pbxproj_dependencies_reads_the_objects sample_objects).
  apply (bool_decide_unpack _). vm_compute. reflexivity.
Defined.

(** X24.  For a project whose objects have distinct identifiers, a
    library is marked as a system library exactly when one of the file
    references registered under its name is detected as one. *)
Theorem parsed_library_is_system_iff objects l :
  NoDup objects.*1 →
  lib_is_system (parse_pbxproj_dependencies (Pbx.mkJson (Some objects)) new_graph) l = true
  ↔ ∃ a fr, links_file objects a fr ∧ is_library_like (file_path fr) = true
            ∧ l = basename_without_ext (file_path fr)
            ∧ detect_system_framework fr = true.
Proof.
  intros Hnd. unfold parse_pbxproj_dependencies. rewrite build_fold_is_system. split.
  - intros [Hsys|(s & e & Hf)]; [done|].
    apply (parse_facts_spec objects _ Hnd) in Hf
      as [(? & ? & _ & ?)|[(a & fr & Hl & Hlib & Hf)|[Hf|(? & ? & _ & ?)]]];
      [done| | |done].
    + destruct Hf as [Hf|?]; [|done]. injection Hf as -> _ Hsys _.
      by exists a, fr.
    + destruct Hf as (? & ? & ? & ? & _ & _ & _ & _ & [?|?]); done.
  - intros (a & fr & Hl & Hlib & -> & Hsys). right. eexists _, _.
    apply (parse_facts_spec objects _ Hnd). right. left. exists a, fr.
    split; [done|]. split; [done|]. left. by rewrite Hsys.
Qed.

Lemma parsed_library_is_system_iff_witness :
  lib_is_system (parse_pbxproj_dependencies (Pbx.mkJson (Some sample_objects)) new_graph)
                "UIKit" = true
  ↔ ∃ a fr, links_file sample_objects a fr ∧ is_library_like (file_path fr) = true
            ∧ "UIKit" = basename_without_ext (file_path fr)
            ∧ detect_system_framework fr = true.
Proof.
  apply (parsed_library_is_system_iff sample_objects "UIKit").
  apply (bool_decide_unpack _). vm_compute. reflexivity.
Defined.

(** ** The cycle fields of the JSON payload *)

Section json_claims.
Context `{SetOrder}.

Lemma sorted_pairs_nil_iff (X : gset (string * string)) :
  sorted_pairs (iter_pairs X) = [] ↔ X = ∅.
Proof.
  split.
  - intros Hnil. apply set_eq. intros e.
    rewrite <- elem_of_iter_pairs, <- (sorted_pairs_Permutation (iter_pairs X)), Hnil.
    split; [by intros ?%elem_of_nil|by intros ?%not_elem_of_empty].
  - intros ->. apply Permutation_nil_r.
    rewrite sorted_pairs_Permutation, iter_pairs_perm. by rewrite elements_empty.
Qed.

Lemma cycle_edges_empty_iff limit g g' :
  mark_cycles limit g = Ok g' →
  cycle_edges g' = ∅ ↔ ∀ v, ¬ reaches_plus g v v.
Proof.
  intros Hrun. split.
  - intros Hempty v Hv. apply tc_first_step in Hv as Hstep.
    destruct Hstep as (w & Hvw & Hwv).
    apply (not_elem_of_empty (C:=gset (string * string)) (v, w)). rewrite <- Hempty.
    apply (cycle_edges_iff limit g g' _ Hrun). cbn [fst snd].
    split; [done|]. split; [by apply tc_once|].
    apply rtc_tc in Hwv as [->|?]; [by apply tc_once|done].
  - intros Hacyc. apply set_eq. intros e.
    split; [|by intros ?%not_elem_of_empty].
    intros (_ & H1 & H2)%(cycle_edges_iff limit g g' _ Hrun).
    exfalso. apply (Hacyc e.1). by etrans.
Qed.

(** X25.  The cycle fields of the JSON payload agree with each other and
    with the graph: after [mark_cycles], [has_cycles] is true exactly
    when the graph has a cycle, exactly when [cycles_count] is positive
    and exactly when the list of cycle edges is not empty; every cycle
    edge is one of the listed edges; and the lists of targets, libraries
    and edges have one entry for each node and edge of the graph. *)
Theorem export_json_cycle_fields_agree {F} limit g now root_path (filters_meta : F)
    colors :
  (size (vertices g) ≤ limit → ∃ g', mark_cycles limit g = Ok g')
  ∧ ∀ g', mark_cycles limit g = Ok g' →
      (has_cycles (export_json g' now root_path filters_meta colors) = true
       ↔ ∃ v, reaches_plus g v v)
      ∧ (has_cycles (export_json g' now root_path filters_meta colors) = true
         ↔ 0 < cycles_count (export_json g' now root_path filters_meta colors))
      ∧ (has_cycles (export_json g' now root_path filters_meta colors) = true
         ↔ cycles_edges (export_json g' now root_path filters_meta colors) ≠ [])
      ∧ (∀ e, e ∈ cycles_edges (export_json g' now root_path filters_meta colors) →
              e ∈ payload_edges (export_json g' now root_path filters_meta colors))
      ∧ length (nodes_targets (export_json g' now root_path filters_meta colors))
        = size (target_nodes g)
      ∧ length (nodes_libraries (export_json g' now root_path filters_meta colors))
        = size (lib_nodes g)
      ∧ length (payload_edges (export_json g' now root_path filters_meta colors))
        = size (edges g).
Proof.
  split; [apply mark_cycles_total|]. intros g' Hrun.
  pose proof (mark_cycles_inv _ _ _ Hrun) as (_ & _ & Ht & Hl & He & _).
  pose proof (cycle_components_nil_iff limit g g' Hrun) as Hnil.
  pose proof (cycle_edges_empty_iff limit g g' Hrun) as Hempty.
  cbn [export_json has_cycles cycles_count cycles_edges payload_edges nodes_targets
       nodes_libraries].
  assert (Hcyc : list_truthy (cycle_components g') = true ↔ ∃ v, reaches_plus g v v).
  { destruct (cycle_components g') as [|comp rest] eqn:Hcc; cbn [list_truthy].
    - split; [done|]. intros [v Hv]. by apply (proj1 Hnil) in Hv.
    - split; [|done]. intros _.
      assert (comp ∈ cycle_components g') as Hcomp by (rewrite Hcc; left).
      apply (cycle_components_spec limit g g' comp Hrun) in Hcomp
        as (_ & _ & x & Hx & _).
      by exists x. }
  split; [done|]. split; [|split; [|split; [|split; [|split]]]].
  - destruct (cycle_components g'); cbn; split; (done || lia).
  - rewrite Hcyc, sorted_pairs_nil_iff, Hempty. split.
    + intros [v Hv] Hacyc. by apply Hacyc in Hv.
    + intros Hne. destruct (cycle_components g') as [|comp rest] eqn:Hcc.
      * exfalso. apply Hne. by apply Hnil.
      * by apply Hcyc.
  - intros e. rewrite !sorted_pairs_Permutation, !elem_of_iter_pairs, He.
    by intros [? _]%(cycle_edges_iff limit g g' _ Hrun).
  - by rewrite sorted_Permutation, iter_names_perm, Ht.
  - by rewrite length_map, sorted_Permutation, iter_names_perm, Hl.
  - by rewrite sorted_pairs_Permutation, iter_pairs_perm, He.
Qed.
End json_claims.

(** ** Subtitles *)

Lemma build_fold_annotations fs : ∀ g l s,
  annotations (fold_left apply_fact fs g) !! l = Some s →
  annotations g !! l = Some s
  ∨ ∃ sys e, AddLib l (Some s) sys e ∈ fs ∧ str_truthy s = true.
Proof.
  induction fs as [|f fs IH]; intros g l s; cbn [fold_left]; [by left|].
  intros [Hl|(sys & e & Hin & Hs)]%IH; [|right; exists sys, e; split; [by right|done]].
  destruct f as [n|n sub sys e|a b]; cbn [apply_fact] in Hl.
  - by left.
  - unfold add_lib in Hl. cbn [annotations] in Hl.
    destruct sub as [s'|]; [|by left].
    destruct (str_truthy s') eqn:Hs'; [|by left].
    destruct (decide (l = n)) as [->|Hne].
    + rewrite lookup_insert_eq in Hl. injection Hl as ->.
      right. exists sys, e. split; [left|done].
    + rewrite lookup_insert_ne in Hl by done. by left.
  - unfold add_edge in Hl. destruct (_ && _); by left.
Qed.

Lemma build_fold_annotated fs : ∀ g l,
  (is_Some (annotations g !! l)
   ∨ ∃ s sys e, AddLib l (Some s) sys e ∈ fs ∧ str_truthy s = true) →
  is_Some (annotations (fold_left apply_fact fs g) !! l).
Proof.
  induction fs as [|f fs IH]; intros g l; cbn [fold_left].
  - intros [?|(? & ? & ? & ?%elem_of_nil & _)]; done.
  - intros Hl. apply IH.
    destruct Hl as [Hl|(s & sys & e & [<-|Hin]%elem_of_cons & Hs)].
    + left. destruct f as [n|n sub sys e|a b]; cbn [apply_fact].
      * done.
      * unfold add_lib. cbn [annotations]. destruct sub as [s'|]; [|done].
        destruct (str_truthy s'); [|done]. rewrite lookup_insert_is_Some'. by right.
      * unfold add_edge. by destruct (_ && _).
    + left. cbn [apply_fact]. unfold add_lib. cbn [annotations]. rewrite Hs.
      rewrite lookup_insert_eq. by eexists.
    + right. by exists s, sys, e.
Qed.

Lemma package_subtitle_truthy objects prod :
  str_truthy (package_subtitle objects prod) = true.
Proof.
  unfold package_subtitle.
  destruct (opt_truthy _) eqn:Hrepo; [|done].
  by destruct (match Pbx.package prod with Some _ => _ | None => _ end).
Qed.

(** X26.  For a project whose objects have distinct identifiers, the
    libraries with a subtitle are the package products, and the subtitle
    of one is the repository URL of the package of a product of that name,
    or [Swift Package] when that product has no package with a URL; it is
    never empty.  Libraries that are files have no subtitle. *)
Theorem parsed_subtitles_are_package_urls objects l :
  NoDup objects.*1 →
  (is_Some (annotations (parse_pbxproj_dependencies (Pbx.mkJson (Some objects))
                           new_graph) !! l)
   ↔ ∃ a, package_edge objects a l)
  ∧ ∀ s, annotations (parse_pbxproj_dependencies (Pbx.mkJson (Some objects)) new_graph)
           !! l = Some s →
         s ≠ ""
         ∧ ∃ p_id prod,
             (p_id, prod) ∈ objects
             ∧ Pbx.isa prod = Some "XCSwiftPackageProductDependency"
             ∧ l = or_str (Pbx.productName prod) ("SPMProduct:" +:+ p_id)
             ∧ s = package_subtitle objects prod.
Proof.
  intros Hnd. unfold parse_pbxproj_dependencies.
  assert (Hsome : ∀ s, annotations (fold_left apply_fact
                         (parse_facts (Pbx.mkJson (Some objects))) new_graph) !! l
                       = Some s →
            ∃ t_id t p_id prod,
              is_native_target objects t_id t
              ∧ p_id ∈ default [] (Pbx.packageProductDependencies t)
              ∧ (p_id, prod) ∈ objects
              ∧ Pbx.isa prod = Some "XCSwiftPackageProductDependency"
              ∧ l = or_str (Pbx.productName prod) ("SPMProduct:" +:+ p_id)
              ∧ s = package_subtitle objects prod).
  { intros s [Hl|(sys & e & Hf & Hs)]%build_fold_annotations; [done|].
    apply (parse_facts_spec objects _ Hnd) in Hf
      as [(? & ? & _ & ?)|[(? & ? & _ & _ & [?|?])|[Hf|(? & ? & _ & ?)]]]; try done.
    destruct Hf as (t_id & t & p_id & prod & Hnat & Hp & Hprod & Hisa & [Hf|?]); [|done].
    injection Hf as -> -> _ _. by exists t_id, t, p_id, prod. }
  split.
  - split.
    + intros [s Hs]. destruct (Hsome s Hs) as (t_id & t & p_id & prod & ? & ? & ? & ? & -> & _).
      exists (target_label t_id t). by exists t_id, t, p_id, prod.
    + intros (a & t_id & t & p_id & prod & Hnat & -> & Hp & Hprod & Hisa & ->).
      apply build_fold_annotated. right.
      exists (package_subtitle objects prod), false, (Some "spm").
      split; [|apply package_subtitle_truthy].
      apply (parse_facts_spec objects _ Hnd). right. right. left.
      exists t_id, t, p_id, prod.
      split; [done|]. split; [done|]. split; [done|]. split; [done|]. by left.
  - intros s Hs. destruct (Hsome s Hs) as (t_id & t & p_id & prod & ? & ? & ? & ? & -> & ->).
    split.
    + pose proof (package_subtitle_truthy objects prod) as Ht.
      by destruct (package_subtitle objects prod).
    + by exists p_id, prod.
Qed.

Lemma parsed_subtitles_are_package_urls_witness :
  (is_Some (annotations (parse_pbxproj_dependencies (Pbx.mkJson (Some sample_objects))
                           new_graph) !! "Alamofire")
   ↔ ∃ a, package_edge sample_objects a "Alamofire")
  ∧ ∀ s, annotations (parse_pbxproj_dependencies (Pbx.mkJson (Some sample_objects))
                        new_graph) !! "Alamofire" = Some s →
         s ≠ ""
         ∧ ∃ p_id prod,
             (p_id, prod) ∈ sample_objects
             ∧ Pbx.isa prod = Some "XCSwiftPackageProductDependency"
             ∧ "Alamofire" = or_str (Pbx.productName prod) ("SPMProduct:" +:+ p_id)
             ∧ s = package_subtitle sample_objects prod.
Proof.
  apply (parsed_subtitles_are_package_urls sample_objects "Alamofire").
  apply (bool_decide_unpack _). vm_compute. reflexivity.
Defined.

(** ** Patterns that do not compile *)

Lemma compile_regex_list_nil re_compile patterns :
  (∀ p, p ∈ patterns → re_compile p = None) → compile_regex_list re_compile patterns = [].
Proof.
  unfold compile_regex_list. induction patterns as [|p ps IH]; intros Hnone; [done|].
  cbn [omap list_omap]. rewrite (Hnone p) by left. apply IH.
  intros q Hq. apply Hnone. by right.
Qed.

(** X27.  Inclusion patterns that do not compile are dropped, and when
    none of the patterns given for [--include-target] (or
    [--include-lib]) compiles, inclusion is not applied at all: every
    target that no exclusion pattern matches is allowed, and the name
    tests of the library filter pass for every library that no exclusion
    pattern matches. *)
Theorem invalid_include_patterns_are_ignored re_compile args name :
  (∀ p, p ∈ Cli.include_target args → re_compile p = None) →
  (∀ p, p ∈ Cli.include_lib args → re_compile p = None) →
  target_allowed (cli_filters re_compile args) name
    = negb (match_any (compile_regex_list re_compile (Cli.exclude_target args)) name)
  ∧ name_allowed (include_libs (cli_filters re_compile args))
                 (exclude_libs (cli_filters re_compile args)) name
    = negb (match_any (compile_regex_list re_compile (Cli.exclude_lib args)) name).
Proof.
  intros Ht Hl. rewrite target_allowed_spec. unfold cli_filters.
  cbn [include_targets exclude_targets include_libs exclude_libs].
  rewrite (compile_regex_list_nil re_compile _ Ht), (compile_regex_list_nil re_compile _ Hl).
  unfold name_allowed. split; by destruct (match_any _ name).
Qed.

Lemma invalid_include_patterns_are_ignored_witness :
  target_allowed
    (cli_filters (λ p, if String.eqb p "Tests$" then Some (contains "Tests") else None)
       (Cli.mkArgs false false false false false 0 1 None ["(App"] ["Tests$"] ["["] []
                   [] [] no_color_args)) "Core"
    = negb (match_any
              (compile_regex_list
                 (λ p, if String.eqb p "Tests$" then Some (contains "Tests") else None)
                 ["Tests$"]) "Core")
  ∧ name_allowed
      (include_libs
         (cli_filters (λ p, if String.eqb p "Tests$" then Some (contains "Tests") else None)
            (Cli.mkArgs false false false false false 0 1 None ["(App"] ["Tests$"] ["["]
                        [] [] [] no_color_args)))
      (exclude_libs
         (cli_filters (λ p, if String.eqb p "Tests$" then Some (contains "Tests") else None)
            (Cli.mkArgs false false false false false 0 1 None ["(App"] ["Tests$"] ["["]
                        [] [] [] no_color_args))) "Core"
    = negb (match_any
              (compile_regex_list
                 (λ p, if String.eqb p "Tests$" then Some (contains "Tests") else None)
                 []) "Core").
Proof.
  apply (invalid_include_patterns_are_ignored
           (λ p, if String.eqb p "Tests$" then Some (contains "Tests") else None)
           (Cli.mkArgs false false false false false 0 1 None ["(App"] ["Tests$"] ["["] []
                       [] [] no_color_args) "Core").
  - intros p Hp. apply list_elem_of_singleton in Hp as ->. reflexivity.
  - intros p Hp. apply list_elem_of_singleton in Hp as ->. reflexivity.
Defined.

(** ** Libraries of a run *)

Section run_claims.
Context `{SetOrder}.

Lemma read_projects_edge_source projects a b :
  (a, b) ∈ edges (read_projects projects) → a ∈ target_nodes (read_projects projects).
Proof.
  rewrite read_projects_facts. unfold build.
  rewrite build_fold_edges, build_fold_targets. cbn [fst snd].
  intros [Hin|(Hin & _)]; [by apply not_elem_of_empty in Hin|].
  right. apply list_elem_of_bind in Hin as (p & Hf & Hp).
  apply list_elem_of_bind. exists p. split; [|done].
  apply project_facts_cases in Hf
    as [[? ?]|[(? & ? & ? & ?)|[(? & ? & ? & _)|(? & ? & ? & Ht)]]];
    by simplify_eq.
Qed.

(** X28.  In a run, every library that is left after filtering is linked
    by a target that is left: in the graph that [main] exports, whatever
    the projects and the filters, the in-degree of every library is at
    least one, and every edge starts at a target of that graph. *)
Theorem main_libraries_are_linked re_compile limit args now_json now_dot root_path
    projects :
  (Cli.no_cycle_highlight args = true
   ∨ size (vertices (filtered_graph re_compile args projects)) ≤ limit →
   ∃ out, main re_compile limit args now_json now_dot root_path projects = Ok out)
  ∧ ∀ out, main re_compile limit args now_json now_dot root_path projects = Ok out →
      (∀ l, l ∈ lib_nodes (out_graph out) → 1 ≤ lib_in_degree (out_graph out) l)
      ∧ (∀ a b, (a, b) ∈ edges (out_graph out) → a ∈ target_nodes (out_graph out)).
Proof.
  rewrite main_unfold. set (G := filtered_graph re_compile args projects).
  assert (Hsrc : ∀ a b, (a, b) ∈ edges G → a ∈ target_nodes G).
  { intros a b Hab. unfold G, filtered_graph in *.
    apply apply_filters_target_nodes. split.
    - apply apply_filters_edges in Hab as [Hab _].
      by apply (read_projects_edge_source projects a b).
    - left. by exists (a, b); split; [|left]. }
  assert (Hdeg : ∀ l, l ∈ lib_nodes G → 1 ≤ lib_in_degree G l).
  { intros l Hl. unfold G, filtered_graph in Hl.
    apply apply_filters_lib_nodes in Hl as [_ [a Ha]].
    apply (lib_in_degree_pos G a); [|done]. by apply (Hsrc a l). }
  split.
  - intros [Hoff|Hsize].
    + rewrite Hoff. cbn [negb mbind result_bind]. eauto.
    + destruct (Cli.no_cycle_highlight args); cbn [negb]; [cbn; eauto|].
      destruct (mark_cycles_total limit G Hsize) as [g' ->]. cbn. eauto.
  - intros out. destruct (Cli.no_cycle_highlight args); cbn [negb].
    + cbn [mbind result_bind]. intros [= <-]. cbn [out_graph]. done.
    + destruct (mark_cycles limit G) as [g'|e] eqn:Hrun; [|done].
      cbn [mbind result_bind]. intros [= <-]. cbn [out_graph].
      pose proof (mark_cycles_inv _ _ _ Hrun) as (_ & _ & Ht & Hl & He & _).
      split.
      * intros l. rewrite Hl. intros Hin%Hdeg.
        unfold lib_in_degree in *. by rewrite He, Ht.
      * intros a b. rewrite He, Ht. apply Hsrc.
Qed.
End run_claims.
